(** * bethepenguin: heightfield, footprint trail and penguin colony

    A shallow embedding of the simulation core of the game
    (Environment.ts, Penguin.ts, ColonyPenguin.ts, ColonyManager.ts)
    and the properties of it that the specification relies on, followed by
    the shell around it (main.ts, AudioManager.ts, SubtitleOverlay.ts,
    VirtualJoystick.ts) and more properties of both.

    Numbers.  A JavaScript [number] is modelled as a real number: [+], [*],
    [Math.sin], [Math.sqrt] ... are the exact operations of [R].  Rounding,
    infinities and NaN are outside the model.

    Effects.  [Math.random()] and [Date.now()] are reads from the host; see
    [Host].  Objects that the code mutates in place (agents, footprints) are
    records threaded through the operations; an array of objects is a list,
    and object identity is the index in that list (agents) or an allocation
    stamp (footprints).  A call that may throw returns an [option], [None]
    for the exception. *)

From Stdlib Require Import Reals Lra Lia List Bool ZArith Arith Sorted.
From Stdlib Require String.
Import String.StringSyntax.
Import ListNotations.
Delimit Scope string_scope with string.
Open Scope R_scope.

(* ================================================================= *)
(** ** The host: [Math.random] and [Date.now] *)

Module Host.

(** The host holds the sequence of values that [Math.random()] is going to
    return and the sequence of readings of the wall clock, each with the
    position of the next one. *)
Record t : Type := mk {
  rand : nat -> R;
  rand_pos : nat;
  clock : nat -> R;
  clock_pos : nat
}.

Definition M (A : Type) : Type := t -> A * t.

Definition ret {A : Type} (a : A) : M A := fun h => (a, h).

Definition bind {A B : Type} (m : M A) (k : A -> M B) : M B :=
  fun h => let (a, h') := m h in k a h'.

(** [Math.random()] *)
Definition Math_random : M R :=
  fun h => (rand h (rand_pos h),
            mk (rand h) (S (rand_pos h)) (clock h) (clock_pos h)).

(** [Date.now()] *)
Definition Date_now : M R :=
  fun h => (clock h (clock_pos h),
            mk (rand h) (rand_pos h) (clock h) (S (clock_pos h))).

(** Every draw of [Math.random()] lies in [[0, 1)]. *)
Definition fair (h : t) : Prop := forall n, 0 <= rand h n < 1.

End Host.

Declare Scope host_scope.
Delimit Scope host_scope with host.
Notation "x <- m ;; k" := (Host.bind m (fun x => k))
  (at level 61, m at next level, right associativity) : host_scope.

(* ================================================================= *)
(** ** The parts of JavaScript and three.js that the code calls *)

Module JS.

(** [a || d] on numbers: [d] when [a] is [0]. *)
Definition or_else (a d : R) : R := if Req_dec_T a 0 then d else a.

(** [Math.floor] *)
Definition Math_floor (a : R) : Z := Int_part a.

(** [Math.pow(a, b)] for a base [a >= 0] and an exponent [b > 0], which is
    how the code calls it.  (A negative base with a fractional exponent is
    NaN in JavaScript.) *)
Definition Math_pow (a b : R) : R := if Rlt_dec 0 a then Rpower a b else 0.

(** [a[k]] for an integer [k]: [undefined] outside the array. *)
Definition at_index {A : Type} (a : list A) (k : Z) : option A :=
  if (k <? 0)%Z then None else nth_error a (Z.to_nat k).

End JS.

Module THREE.

Module MathUtils.

(** [lerp(x, y, t) = (1 - t) * x + t * y] *)
Definition lerp (x y t : R) : R := (1 - t) * x + t * y.

(** [smoothstep(x, min, max)]:
    [if (x <= min) return 0; if (x >= max) return 1;
     x = (x - min) / (max - min); return x * x * (3 - 2 * x);] *)
Definition smoothstep (x min max : R) : R :=
  if Rle_dec x min then 0
  else if Rge_dec x max then 1
  else let t := (x - min) / (max - min) in t * t * (3 - 2 * t).

End MathUtils.

Module Vector2.
Record t : Type := mk { x : R; y : R }.

Definition length (v : t) : R := sqrt (x v * x v + y v * y v).
Definition multiplyScalar (v : t) (s : R) : t := mk (x v * s) (y v * s).
Definition divideScalar (v : t) (s : R) : t := multiplyScalar v (1 / s).
(** [normalize() { return this.divideScalar(this.length() || 1); }] *)
Definition normalize (v : t) : t := divideScalar v (JS.or_else (length v) 1).
End Vector2.

Module Vector3.
Record t : Type := mk { x : R; y : R; z : R }.

Definition zero : t := mk 0 0 0.
Definition add (a b : t) : t := mk (x a + x b) (y a + y b) (z a + z b).
Definition sub (a b : t) : t := mk (x a - x b) (y a - y b) (z a - z b).
Definition multiplyScalar (v : t) (s : R) : t := mk (x v * s) (y v * s) (z v * s).
Definition divideScalar (v : t) (s : R) : t := multiplyScalar v (1 / s).
Definition length (v : t) : R := sqrt (x v * x v + y v * y v + z v * z v).
Definition normalize (v : t) : t := divideScalar v (JS.or_else (length v) 1).

(** [lerp(v, alpha)]: [this.x += (v.x - this.x) * alpha], and so on. *)
Definition lerp (a v : t) (alpha : R) : t :=
  mk (x a + (x v - x a) * alpha) (y a + (y v - y a) * alpha)
     (z a + (z v - z a) * alpha).

(** [distanceTo(v) = Math.sqrt(this.distanceToSquared(v))] *)
Definition distanceTo (a b : t) : R :=
  let dx := x a - x b in
  let dy := y a - y b in
  let dz := z a - z b in
  sqrt (dx * dx + dy * dy + dz * dz).

(** [applyAxisAngle(axis, angle)] sets a quaternion from the axis and
    the angle ([s = sin(angle/2)], [q = (axis * s, cos(angle/2))]) and
    applies it: [t = 2 * cross(q.xyz, v)],
    [v + q.w * t + cross(q.xyz, t)]. *)
Definition applyAxisAngle (v axis : t) (angle : R) : t :=
  let s := sin (angle / 2) in
  let qx := x axis * s in
  let qy := y axis * s in
  let qz := z axis * s in
  let qw := cos (angle / 2) in
  let tx := 2 * (qy * z v - qz * y v) in
  let ty := 2 * (qz * x v - qx * z v) in
  let tz := 2 * (qx * y v - qy * x v) in
  mk (x v + qw * tx + qy * tz - qz * ty)
     (y v + qw * ty + qz * tx - qx * tz)
     (z v + qw * tz + qx * ty - qy * tx).
End Vector3.

End THREE.
Import THREE.

(** Arrays: [a.splice(i, 1)] and the in-place write [a[i] = v], for an index
    inside the array. *)
Definition splice1 {A : Type} (l : list A) (i : nat) : list A :=
  firstn i l ++ skipn (S i) l.

Definition store {A : Type} (l : list A) (i : nat) (v : A) : list A :=
  firstn i l ++ v :: skipn (S i) l.

(* ================================================================= *)
(** ** Environment.ts *)

Module Environment.

(** [getGroundHeight(x, z)] *)
Definition getGroundHeight (x z : R) : R :=
  let h := 0 in
  let h := h + sin (x * 0.05) * cos (z * 0.04) * 0.4 in
  let h := h + sin (x * 0.02) * 0.2 in
  let windDir := Vector2.normalize (Vector2.mk 1.0 0.5) in
  let windCoord := x * Vector2.x windDir + z * Vector2.y windDir in
  let perpCoord := x * - Vector2.y windDir + z * Vector2.x windDir in
  let h := h + sin (windCoord * 0.5) * sin (perpCoord * 5.0) * 0.05 in
  let h := h + sin (windCoord * 0.2) * 0.1 in
  h.

(** The position attribute of [new THREE.PlaneGeometry(width, height,
    gridX, gridY)]: rows from the top, [(x, -y, 0)] for column [ix] of row
    [iy]. *)
Definition PlaneGeometry (width height : R) (gridX gridY : nat)
  : list Vector3.t :=
  let width_half := width / 2 in
  let height_half := height / 2 in
  let segment_width := width / INR gridX in
  let segment_height := height / INR gridY in
  flat_map (fun iy =>
    let y := INR iy * segment_height - height_half in
    map (fun ix =>
      let x := INR ix * segment_width - width_half in
      Vector3.mk x (- y) 0) (seq 0 (gridX + 1)))
    (seq 0 (gridY + 1)).

(** The mesh that [createMountainMesh] returns: the vertices of its
    geometry and where it is placed.  Normals and colours are not part of
    the model. *)
Record MountainMesh : Type := mkMountainMesh {
  vertices : list Vector3.t;
  mesh_position : Vector3.t;
  mesh_rotation_x : R
}.

Definition elevations (m : MountainMesh) : list R := map Vector3.z (vertices m).

Section createMountainMesh.
Variables offsetX offsetZ scale heightScale seed : R.

Definition random (x z : R) : R :=
  let s := sin ((x + seed) * 12.9898 + (z + seed) * 78.233) * 43758.5453 in
  s - IZR (JS.Math_floor s).

Definition noise (x z : R) : R :=
  let i := IZR (JS.Math_floor x) in
  let j := IZR (JS.Math_floor z) in
  let u := x - i in
  let v := z - j in
  (random i j * (1 - u) + random (i + 1) j * u) * (1 - v) +
  (random i (j + 1) * (1 - u) + random (i + 1) (j + 1) * u) * v.

(** The loop of [fbm] with [octaves] turns still to run. *)
Fixpoint fbm_from (x z : R) (octaves : nat) (total amp freq : R) : R :=
  match octaves with
  | O => total
  | S o =>
      fbm_from x z o (total + noise (x * freq) (z * freq) * amp)
               (amp * 0.5) (freq * 2)
  end.

Definition fbm (x z : R) (octaves : nat) : R := fbm_from x z octaves 0 1 1.

Definition radius : R := 4500 * scale.

(** The body of the loop "Deform vertices": the [z] written to a vertex
    at [(x, y)]. *)
Definition deformed (x y : R) : R :=
  let d := sqrt (x * x + y * y) in
  let mask := Rmax 0 (1 - JS.Math_pow (d / radius) 1.5) in
  let mask := JS.Math_pow mask 1.0 in
  if Rle_dec mask 0 then - 10
  else
    let h := 0 in
    let n1 := fbm (x * 0.001) (y * 0.001) 4 in
    let h := h + n1 * 1200 * mask * heightScale in
    let n2 := fbm (x * 0.005) (y * 0.005) 6 in
    let h := h + n2 * 150 * mask * heightScale in
    let ridgeRaw :=
      1.0 - Rabs (fbm (x * 0.0006 + 50) (y * 0.0006 + 50) 2 * 2.0 - 1.0) in
    let ridge := Rmax 0 ridgeRaw in
    let h := h + JS.Math_pow ridge 1.8 * 500 * mask * heightScale in
    h.

Definition setZ (v : Vector3.t) (z : R) : Vector3.t :=
  Vector3.mk (Vector3.x v) (Vector3.y v) z.

(** [for (let i = ...; i < pos.count; i++)] with [n] turns still to
    run; the attribute is written in place.  A read outside the
    attribute cannot happen ([i < pos.count]). *)
Fixpoint deform_from (i n : nat) (pos : list Vector3.t) : list Vector3.t :=
  match n with
  | O => pos
  | S n =>
      match nth_error pos i with
      | None => deform_from (S i) n pos
      | Some v =>
          deform_from (S i) n
            (store pos i (setZ v (deformed (Vector3.x v) (Vector3.y v))))
      end
  end.

Definition createMountainMesh : Host.M MountainMesh :=
  let baseSize := 10000 * scale in
  let segs := Z.to_nat (JS.Math_floor (256 * Rmax 0.75 scale)) in
  let pos := PlaneGeometry baseSize baseSize segs segs in
  let pos := deform_from 0 (length pos) pos in
  Host.ret (mkMountainMesh pos (Vector3.mk offsetX (- 10) (7500 + offsetZ))
                           (- PI / 2)).
End createMountainMesh.

(** The peaks of [createMountain], in the order in which they are added to
    the group. *)
Definition peaks : list (R * R * R * R * R) :=
  [ (0, 0, 1.0, 1.0, 0);
    (- 2800, 300, 0.85, 0.90, 100);
    (- 5000, 500, 0.75, 0.82, 200);
    (2800, 300, 0.88, 0.92, 300);
    (5000, 500, 0.78, 0.85, 400);
    (- 1400, 400, 0.70, 0.85, 500);
    (- 3900, 450, 0.72, 0.80, 600);
    (1400, 400, 0.68, 0.83, 700);
    (3900, 450, 0.73, 0.81, 800);
    (- 6500, 600, 0.65, 0.75, 900);
    (6500, 600, 0.67, 0.77, 1000) ].

Fixpoint createPeaks (l : list (R * R * R * R * R)) : Host.M (list MountainMesh) :=
  match l with
  | [] => Host.ret []
  | (offsetX, offsetZ, scale, heightScale, seed) :: l =>
      Host.bind (createMountainMesh offsetX offsetZ scale heightScale seed)
        (fun m => Host.bind (createPeaks l) (fun ms => Host.ret (m :: ms)))
  end.

Definition createMountain : Host.M (list MountainMesh) := createPeaks peaks.

(** [smoothstep(min, max, value)], the private one of the class *)
Definition smoothstep (min max value : R) : R :=
  let x := Rmax 0 (Rmin 1 ((value - min) / (max - min))) in
  x * x * (3 - 2 * x).

(** A [THREE.Color] and [c.lerp(color, alpha)]. *)
Record Color : Type := mkColor { red : R; green : R; blue : R }.

Definition Color_lerp (c color : Color) (alpha : R) : Color :=
  mkColor (red c + (red color - red c) * alpha)
          (green c + (green color - green c) * alpha)
          (blue c + (blue color - blue c) * alpha).

(** The body of the loop "Vertex Colors for Snow/Rock" of
    [createMountainMesh], for a vertex [v] of the deformed geometry;
    [rockColor] and [snowColor] are its two colours. *)
Definition vertexColor (rockColor snowColor : Color) (heightScale seed : R)
           (v : Vector3.t) : Color :=
  let x := Vector3.x v in
  let y := Vector3.y v in
  let z := Vector3.z v in
  let noiseVal := (sin ((x + seed) * 0.1) * cos ((z + seed) * 0.1) + 1) * 0.5 in
  let mixVal :=
    smoothstep (50 * heightScale) (500 * heightScale)
               (y + noiseVal * 250 * heightScale) in
  Color_lerp rockColor snowColor mixVal.

Local Open Scope host_scope.

(** The loop of [createSnow] with [n] turns still to run; [positions] holds
    the particles pushed so far, three numbers each. *)
Fixpoint createSnow_from (n : nat) (positions : list Vector3.t)
  : Host.M (list Vector3.t) :=
  match n with
  | O => Host.ret positions
  | S n =>
      a <- Host.Math_random ;;
      b <- Host.Math_random ;;
      c <- Host.Math_random ;;
      createSnow_from n
        (positions ++ [Vector3.mk ((a - 0.5) * 100) (b * 40) ((c - 0.5) * 100)])
  end.

Definition createSnow : Host.M (list Vector3.t) := createSnow_from 5000 [].

(** The loop of [createGroundSnow]. *)
Fixpoint createGroundSnow_from (n : nat) (positions : list Vector3.t)
  : Host.M (list Vector3.t) :=
  match n with
  | O => Host.ret positions
  | S n =>
      a <- Host.Math_random ;;
      b <- Host.Math_random ;;
      c <- Host.Math_random ;;
      createGroundSnow_from n
        (positions ++ [Vector3.mk ((a - 0.5) * 200) (b * 0.5) ((c - 0.5) * 200)])
  end.

Definition createGroundSnow : Host.M (list Vector3.t) :=
  createGroundSnow_from 2000 [].

(** What [update] reads and writes of the environment: the positions of the
    two ground meshes, the time uniform of the ground shader (there once the
    material has been compiled), and the two particle systems with their
    position attributes. *)
Record t : Type := mk {
  ground : Vector3.t;
  farGround : Vector3.t;
  mountain : list MountainMesh;
  shader : bool;
  uTime : R;
  snowSystem : list Vector3.t;
  snowSystem_position : Vector3.t;
  snowSystem_rotation_y : R;
  groundSnow : list Vector3.t;
  groundSnow_position : Vector3.t
}.

(** The constructor: mountains, snow, ground snow, in this order. *)
Definition make : Host.M t :=
  m <- createMountain ;;
  s <- createSnow ;;
  g <- createGroundSnow ;;
  Host.ret (mk (Vector3.mk 0 0 0) (Vector3.mk 0 (- 0.5) 0) m false 0
               s (Vector3.mk 0 0 0) 0 g (Vector3.mk 0 0 0)).

(** The ground material is compiled, at the first render. *)
Definition compiled (e : t) : t :=
  mk (ground e) (farGround e) (mountain e) true 0 (snowSystem e)
     (snowSystem_position e) (snowSystem_rotation_y e) (groundSnow e)
     (groundSnow_position e).

(** The body of the loop "Particles: Wrap around". *)
Definition fall (dt : R) (v : Vector3.t) : Vector3.t :=
  let y := Vector3.y v in
  let y := y - dt * 2.0 in
  let y := if Rlt_dec y 0 then 40 else y in
  Vector3.mk (Vector3.x v) y (Vector3.z v).

(** The body of the loop "Ground Skim Particles"; it ends with
    [setXY(i, x, z)], which writes the first two components. *)
Definition skim (dt : R) (v : Vector3.t) : Host.M Vector3.t :=
  let x := Vector3.x v in
  let z := Vector3.z v in
  let x := x + dt * 5.0 in
  let z := z + dt * 2.5 in
  x <- (if Rgt_dec (Rabs x) 100
        then r <- Host.Math_random ;; Host.ret ((r - 0.5) * 200)
        else Host.ret x) ;;
  z <- (if Rgt_dec (Rabs z) 100
        then r <- Host.Math_random ;; Host.ret ((r - 0.5) * 200)
        else Host.ret z) ;;
  Host.ret (Vector3.mk x z (Vector3.z v)).

(** [for (let i = ...; i < a.count; i++)] over a position attribute, written
    in place, with [n] turns still to run. *)
Fixpoint each_from (body : Vector3.t -> Host.M Vector3.t) (i n : nat)
         (a : list Vector3.t) : Host.M (list Vector3.t) :=
  match n with
  | O => Host.ret a
  | S n =>
      match nth_error a i with
      | None => each_from body (S i) n a
      | Some v => v' <- body v ;; each_from body (S i) n (store a i v')
      end
  end.

(** [update(dt, playerPos, time)] *)
Definition update (dt : R) (playerPos : Vector3.t) (time : R) (e : t)
  : Host.M t :=
  let uTime' := if shader e then time else uTime e in
  let ground' :=
    Vector3.mk (Vector3.x playerPos) (Vector3.y (ground e)) (Vector3.z playerPos) in
  let farGround' :=
    Vector3.mk (Vector3.x playerPos) (Vector3.y (farGround e))
               (Vector3.z playerPos) in
  snow <- each_from (fun v => Host.ret (fall dt v)) 0 (length (snowSystem e))
                    (snowSystem e) ;;
  let snow_position := Vector3.mk (Vector3.x playerPos) 0 (Vector3.z playerPos) in
  skimmed <- each_from (skim dt) 0 (length (groundSnow e)) (groundSnow e) ;;
  let skim_position :=
    Vector3.mk (Vector3.x playerPos) 0.1 (Vector3.z playerPos) in
  Host.ret (mk ground' farGround' (mountain e) (shader e) uTime' snow
               snow_position (sin (time * 0.1) * 0.1) skimmed skim_position).

(** A session of the environment: frames [(dt, playerPos, time)]. *)
Fixpoint frames (fs : list (R * Vector3.t * R)) (e : t) : Host.M t :=
  match fs with
  | [] => Host.ret e
  | (dt, playerPos, time) :: fs =>
      e <- update dt playerPos time e ;; frames fs e
  end.

End Environment.

(* ================================================================= *)
(** ** Penguin.ts: the player and its footprint trail *)

Module Penguin.

(** A footprint decal: a mesh with a material of its own.  [fp_id] stands
    for the identity of the mesh object. *)
Record Footprint : Type := mkFootprint {
  fp_id : nat;
  fp_position : Vector3.t;
  fp_rotation_x : R;
  fp_rotation_z : R;
  fp_opacity : R
}.

Definition fade (dt : R) (fp : Footprint) : Footprint :=
  mkFootprint (fp_id fp) (fp_position fp) (fp_rotation_x fp) (fp_rotation_z fp)
              (fp_opacity fp - dt * 0.02).

Record t : Type := mk {
  position : Vector3.t;       (* this.mesh.position *)
  rotation_y : R;
  rotation_z : R;
  body : bool;                (* the FBX model has been loaded *)
  walkTime : R;
  footprints : list Footprint;
  lastStepTime : R;
  isLeftStep : bool;
  footprintTexture : bool;    (* non-null *)
  footprintNormal : bool;     (* non-null *)
  allocated : nat             (* number of footprint meshes created so far *)
}.

Definition waddleSpeed : R := 8.0.
Definition moveSpeed : R := 2.0.

(** State at the end of the constructor: [loadFootprintTexture] has
    assigned [footprintNormal]; the model and the footprint image arrive
    later, in loader callbacks. *)
Definition init : t :=
  mk (Vector3.mk 0 0 0) 0 0 false 0 [] 0 true false true 0.

Definition set_footprints (p : t) (fps : list Footprint) : t :=
  mk (position p) (rotation_y p) (rotation_z p) (body p) (walkTime p) fps
     (lastStepTime p) (isLeftStep p) (footprintTexture p) (footprintNormal p)
     (allocated p).

(** The loop of [updateFootprints], from index [k - 1] down to [0].
    Reading a slot outside the array would raise a TypeError ([None]). *)
Fixpoint updateFootprints_from (dt : R) (k : nat) (fps : list Footprint)
  : option (list Footprint) :=
  match k with
  | O => Some fps
  | S i =>
      match nth_error fps i with
      | None => None
      | Some fp =>
          let fp := fade dt fp in
          if Rle_dec (fp_opacity fp) 0
          then updateFootprints_from dt i (splice1 fps i)
          else updateFootprints_from dt i (store fps i fp)
      end
  end.

Definition updateFootprints (dt : R) (fps : list Footprint)
  : option (list Footprint) :=
  updateFootprints_from dt (length fps) fps.

(** [getGroundHeight(x, z)] ("Must match Environment.ts formula!") *)
Definition getGroundHeight (x z : R) : R :=
  let h := 0 in
  let h := h + sin (x * 0.05) * cos (z * 0.04) * 0.4 in
  let h := h + sin (x * 0.02) * 0.2 in
  let windDir := Vector2.normalize (Vector2.mk 1.0 0.5) in
  let windCoord := x * Vector2.x windDir + z * Vector2.y windDir in
  let perpCoord := x * - Vector2.y windDir + z * Vector2.x windDir in
  let h := h + sin (windCoord * 0.5) * sin (perpCoord * 5.0) * 0.05 in
  let h := h + sin (windCoord * 0.2) * 0.1 in
  h.

(** The mesh that [spawnFootprint] builds. *)
Definition newFootprint (id : nat) (position : Vector3.t) (isLeft : bool)
  : Footprint :=
  let groundHeight := getGroundHeight (Vector3.x position) (Vector3.z position) in
  mkFootprint id
    (Vector3.mk (Vector3.x position) (groundHeight + 0.03) (Vector3.z position))
    (- PI / 2)
    ((if isLeft then 0.2 else - 0.2) + PI)
    1.0.

Definition spawnFootprint (position : Vector3.t) (isLeft : bool) (p : t) : t :=
  if negb (footprintTexture p) || negb (footprintNormal p) then p
  else
    let fp := newFootprint (allocated p) position isLeft in
    let fps := footprints p ++ [fp] in
    let fps := if (200 <? length fps)%nat then tl fps else fps in
    mk (Penguin.position p) (rotation_y p) (rotation_z p) (body p) (walkTime p)
       fps (lastStepTime p) (isLeftStep p) (footprintTexture p)
       (footprintNormal p) (S (allocated p)).

(** [update(dt, moving, speedMultiplier = 1.0, audio?)].  The sound of the
    step is not part of the model. *)
Definition update (dt : R) (moving : bool) (speedMultiplier : option R) (p : t)
  : option t :=
  match updateFootprints dt (footprints p) with
  | None => None
  | Some fps =>
      let p := set_footprints p fps in
      if negb (body p) then Some p
      else if negb moving then
        Some (mk (position p) (rotation_y p)
                 (MathUtils.lerp (rotation_z p) 0 (dt * 5))
                 (body p) (walkTime p) (footprints p) (lastStepTime p)
                 (isLeftStep p) (footprintTexture p) (footprintNormal p)
                 (allocated p))
      else
        let speedMultiplier :=
          match speedMultiplier with Some s => s | None => 1.0 end in
        let effectiveWaddleSpeed := waddleSpeed * speedMultiplier in
        let effectiveMoveSpeed := moveSpeed * speedMultiplier in
        let walkTime' := walkTime p + dt * effectiveWaddleSpeed in
        let waddle := sin walkTime' in
        let bob := Rabs (cos walkTime') in
        let position' :=
          Vector3.mk (Vector3.x (position p)) (bob * 0.05)
                     (Vector3.z (position p) + effectiveMoveSpeed * dt) in
        let p := mk position' (waddle * 0.05) (waddle * 0.1) (body p) walkTime'
                    (footprints p) (lastStepTime p) (isLeftStep p)
                    (footprintTexture p) (footprintNormal p) (allocated p) in
        if Rgt_dec (walkTime p - lastStepTime p) PI then
          let footPos :=
            Vector3.mk
              (Vector3.x (position p) + (if isLeftStep p then - 0.2 else 0.2))
              (Vector3.y (position p)) (Vector3.z (position p)) in
          let p := mk (position p) (rotation_y p) (rotation_z p) (body p)
                      (walkTime p) (footprints p) (walkTime p) (isLeftStep p)
                      (footprintTexture p) (footprintNormal p) (allocated p) in
          let p := spawnFootprint footPos (isLeftStep p) p in
          Some (mk (position p) (rotation_y p) (rotation_z p) (body p)
                   (walkTime p) (footprints p) (lastStepTime p)
                   (negb (isLeftStep p)) (footprintTexture p)
                   (footprintNormal p) (allocated p))
        else Some p
  end.

(** What can happen to the player between two frames. *)
Inductive event : Type :=
| ImageLoaded                                   (* footprint.png decoded *)
| ModelLoaded                                   (* PenguinBaseMesh.fbx loaded *)
| Spawn (position : Vector3.t) (isLeft : bool)  (* spawnFootprint *)
| Decay (dt : R)                                (* updateFootprints *)
| Frame (dt : R) (moving : bool) (speedMultiplier : option R). (* update *)

Definition step (e : event) (p : t) : option t :=
  match e with
  | ImageLoaded =>
      Some (mk (position p) (rotation_y p) (rotation_z p) (body p) (walkTime p)
               (footprints p) (lastStepTime p) (isLeftStep p) true
               (footprintNormal p) (allocated p))
  | ModelLoaded =>
      Some (mk (position p) (rotation_y p) (rotation_z p) true (walkTime p)
               (footprints p) (lastStepTime p) (isLeftStep p)
               (footprintTexture p) (footprintNormal p) (allocated p))
  | Spawn position isLeft => Some (spawnFootprint position isLeft p)
  | Decay dt =>
      match updateFootprints dt (footprints p) with
      | None => None
      | Some fps => Some (set_footprints p fps)
      end
  | Frame dt moving speedMultiplier => update dt moving speedMultiplier p
  end.

Fixpoint run (es : list event) (p : t) : option t :=
  match es with
  | [] => Some p
  | e :: es =>
      match step e p with
      | None => None
      | Some p => run es p
      end
  end.

(** The body of the loop of [loadFootprintTexture]: from the red channel [r]
    of a pixel of the image, the number assigned to its three colour
    channels and the number assigned to its alpha channel (the store in the
    clamped byte array of the canvas rounds them). *)
Definition footprintPixel (r : R) : R * R :=
  let alpha := 255 in
  let alpha :=
    if Rgt_dec r 200 then Rmax 0 ((255 - r) * (255 / 55)) else alpha in
  let colVal := 100 + (r / 200) * 155 in
  let finalCol := Rmin 255 colVal in
  (finalCol, alpha).

End Penguin.

(* ================================================================= *)
(** ** ColonyPenguin.ts: one agent of the colony *)

(** What the code uses of a [THREE.Group]: its transform, its [visible]
    flag and the opacity of the materials of the meshes below it. *)
Module Object3D.
Record t : Type := mk {
  position : Vector3.t;
  rotation_x : R;
  rotation_y : R;
  rotation_z : R;
  visible : bool;
  opacity : R
}.

Definition set_position (o : t) (v : Vector3.t) : t :=
  mk v (rotation_x o) (rotation_y o) (rotation_z o) (visible o) (opacity o).
Definition set_rotation_x (o : t) (a : R) : t :=
  mk (position o) a (rotation_y o) (rotation_z o) (visible o) (opacity o).
Definition set_rotation_y (o : t) (a : R) : t :=
  mk (position o) (rotation_x o) a (rotation_z o) (visible o) (opacity o).
Definition set_rotation_z (o : t) (a : R) : t :=
  mk (position o) (rotation_x o) (rotation_y o) a (visible o) (opacity o).
End Object3D.

Module ColonyPenguin.
Import Host.
Local Open Scope host_scope.

Inductive PenguinState : Type := IDLE | WALKING | TURNING | LOOKING.

(** [this.position] is the same object as [this.mesh.position]. *)
Record t : Type := mk {
  mesh : Object3D.t;
  state : PenguinState;
  timer : R;
  stateDuration : R;
  walkTime : R;
  waddleSpeed : R;
  moveSpeed : R;
  targetRotation : R;
  currentRotation : R;
  headTilt : R;
  headTiltTarget : R
}.

Definition position (p : t) : Vector3.t := Object3D.position (mesh p).

Definition set_mesh (p : t) (m : Object3D.t) : t :=
  mk m (state p) (timer p) (stateDuration p) (walkTime p) (waddleSpeed p)
     (moveSpeed p) (targetRotation p) (currentRotation p) (headTilt p)
     (headTiltTarget p).
Definition set_timer (p : t) (v : R) : t :=
  mk (mesh p) (state p) v (stateDuration p) (walkTime p) (waddleSpeed p)
     (moveSpeed p) (targetRotation p) (currentRotation p) (headTilt p)
     (headTiltTarget p).
Definition set_walkTime (p : t) (v : R) : t :=
  mk (mesh p) (state p) (timer p) (stateDuration p) v (waddleSpeed p)
     (moveSpeed p) (targetRotation p) (currentRotation p) (headTilt p)
     (headTiltTarget p).
Definition set_currentRotation (p : t) (v : R) : t :=
  mk (mesh p) (state p) (timer p) (stateDuration p) (walkTime p) (waddleSpeed p)
     (moveSpeed p) (targetRotation p) v (headTilt p) (headTiltTarget p).
Definition set_headTilt (p : t) (v : R) : t :=
  mk (mesh p) (state p) (timer p) (stateDuration p) (walkTime p) (waddleSpeed p)
     (moveSpeed p) (targetRotation p) (currentRotation p) v (headTiltTarget p).

(** The three assignments of one branch of [pickNewState]. *)
Definition enter (p : t) (s : PenguinState) (duration target tilt : R) : t :=
  mk (mesh p) s (timer p) duration (walkTime p) (waddleSpeed p) (moveSpeed p)
     target (currentRotation p) (headTilt p) tilt.

Definition pickNewState (p : t) : M t :=
  r <- Math_random ;;
  p <- (if Rlt_dec r 0.6 then
          d <- Math_random ;;
          ret (enter p IDLE (2 + d * 4) (targetRotation p) (headTiltTarget p))
        else if Rlt_dec r 0.85 then
          d <- Math_random ;;
          a <- Math_random ;;
          ret (enter p WALKING (1.5 + d * 3)
                     (currentRotation p + (a - 0.5) * 1.5) (headTiltTarget p))
        else if Rlt_dec r 0.95 then
          d <- Math_random ;;
          a <- Math_random ;;
          ret (enter p TURNING (1 + d * 2) (a * PI * 2) (headTiltTarget p))
        else
          d <- Math_random ;;
          a <- Math_random ;;
          ret (enter p LOOKING (2 + d * 2) (targetRotation p) ((a - 0.5) * 0.5))) ;;
  ret (set_timer p 0).

(** Field initialisers, then the constructor body. *)
Definition make (model : Object3D.t) (startPos : Vector3.t) : M t :=
  w <- Math_random ;;
  m <- Math_random ;;
  a <- Math_random ;;
  let currentRotation := a * PI * 2 in
  let mesh := Object3D.set_rotation_y (Object3D.set_position model startPos)
                                      currentRotation in
  pickNewState (mk mesh IDLE 0 0 0 (5.0 + w * 3.0) (0.5 + m * 0.5)
                   currentRotation currentRotation 0 0).

Definition updateIdle (dt : R) (p : t) : M t :=
  now <- Date_now ;;
  ret (set_mesh p (Object3D.set_rotation_z (mesh p)
         (MathUtils.lerp (Object3D.rotation_z (mesh p))
                         (sin (now * 0.001) * 0.02) (dt * 2)))).

(** One turn of the loop over [otherPenguins]; [self] is the index of
    [this] in that array, [j] the index of [other]. *)
Definition avoid (self : nat) (here : Vector3.t) (avoidance : Vector3.t)
           (entry : nat * t) : Vector3.t :=
  let (j, other) := entry in
  if (j =? self)%nat then avoidance
  else
    let dist := Vector3.distanceTo here (position other) in
    if Rlt_dec dist 1.0 then
      let diff := Vector3.normalize (Vector3.sub here (position other)) in
      Vector3.add avoidance (Vector3.multiplyScalar diff (0.5 / (dist + 0.1)))
    else avoidance.

Definition indexed {A : Type} (l : list A) : list (nat * A) :=
  combine (seq 0 (length l)) l.

(** The direction of the step of a walking agent, after [normalize]. *)
Definition heading (colonyCenter : Vector3.t) (self : nat)
           (otherPenguins : list t) (here : Vector3.t) (rotation : R)
  : Vector3.t :=
  let forward :=
    Vector3.applyAxisAngle (Vector3.mk 0 0 1) (Vector3.mk 0 1 0) rotation in
  let avoidance :=
    fold_left (avoid self here) (indexed otherPenguins) Vector3.zero in
  let toCenter := Vector3.sub colonyCenter here in
  let avoidance :=
    if Rgt_dec (Vector3.length toCenter) 5
    then Vector3.add avoidance
           (Vector3.multiplyScalar (Vector3.normalize toCenter) 0.1)
    else avoidance in
  Vector3.normalize (Vector3.add forward avoidance).

Definition updateWalking (dt : R) (colonyCenter : Vector3.t) (self : nat)
           (otherPenguins : list t) (p : t) : t :=
  let p := set_walkTime p (walkTime p + dt * waddleSpeed p) in
  let p := set_currentRotation p
             (MathUtils.lerp (currentRotation p) (targetRotation p) (dt * 2)) in
  let p := set_mesh p (Object3D.set_rotation_y (mesh p) (currentRotation p)) in
  let forward :=
    heading colonyCenter self otherPenguins (position p) (currentRotation p) in
  let p := set_mesh p (Object3D.set_position (mesh p)
             (Vector3.add (position p)
                (Vector3.multiplyScalar forward (moveSpeed p * dt)))) in
  let waddle := sin (walkTime p) in
  let p := set_mesh p (Object3D.set_rotation_z (mesh p) (waddle * 0.08)) in
  set_mesh p (Object3D.set_position (mesh p)
    (Vector3.mk (Vector3.x (position p))
                (Vector3.y (position p) + Rabs (cos (walkTime p)) * 0.03)
                (Vector3.z (position p)))).

Definition updateTurning (dt : R) (p : t) : M t :=
  let p := set_currentRotation p
             (MathUtils.lerp (currentRotation p) (targetRotation p) (dt * 3)) in
  let p := set_mesh p (Object3D.set_rotation_y (mesh p) (currentRotation p)) in
  now <- Date_now ;;
  ret (set_mesh p (Object3D.set_rotation_z (mesh p) (sin (now * 0.01) * 0.03))).

Definition updateLooking (dt : R) (p : t) : t :=
  let p := set_headTilt p
             (MathUtils.lerp (headTilt p) (headTiltTarget p) (dt * 2)) in
  set_mesh p (Object3D.set_rotation_x (mesh p) (headTilt p)).

(** The test at the head of [update], on the timer already advanced. *)
Definition expired (p : t) : bool :=
  if Rge_dec (timer p) (stateDuration p) then true else false.

(** The ground under a colony penguin, last statement of [update]. *)
Definition ground (v : Vector3.t) : R :=
  sin (Vector3.x v * 0.1) * cos (Vector3.z v * 0.1) * 0.5.

(** The [switch] of [update]. *)
Definition behave (dt : R) (colonyCenter : Vector3.t) (self : nat)
           (otherPenguins : list t) (p : t) : M t :=
  match state p with
  | IDLE => updateIdle dt p
  | WALKING => ret (updateWalking dt colonyCenter self otherPenguins p)
  | TURNING => updateTurning dt p
  | LOOKING => ret (updateLooking dt p)
  end.

(** "Always keep them near ground". *)
Definition place (p : t) : t :=
  set_mesh p (Object3D.set_position (mesh p)
    (Vector3.mk (Vector3.x (position p)) (ground (position p))
                (Vector3.z (position p)))).

Definition update (dt : R) (colonyCenter : Vector3.t) (self : nat)
           (otherPenguins : list t) (p : t) : M t :=
  let p := set_timer p (timer p + dt) in
  p <- (if expired p then pickNewState p else ret p) ;;
  p <- behave dt colonyCenter self otherPenguins p ;;
  ret (place p).

Definition setOpacity (opacity : R) (p : t) : t :=
  set_mesh p (Object3D.mk (position p) (Object3D.rotation_x (mesh p))
                (Object3D.rotation_y (mesh p)) (Object3D.rotation_z (mesh p))
                (if Rgt_dec opacity 0.01 then true else false) opacity).

End ColonyPenguin.

(* ================================================================= *)
(** ** ColonyManager.ts *)

Module ColonyManager.
Import Host.
Local Open Scope host_scope.

Record t : Type := mk {
  penguins : list ColonyPenguin.t;
  colonyCenter : Vector3.t
}.

Definition init : t := mk [] (Vector3.mk 0 0 0).

(** The loop of the loader callback of [loadAndSpawn]: [n] more penguins
    are pushed. *)
Fixpoint spawn (model : Object3D.t) (n : nat) (ps : list ColonyPenguin.t)
  : M (list ColonyPenguin.t) :=
  match n with
  | O => ret ps
  | S n =>
      a <- Math_random ;;
      b <- Math_random ;;
      let angle := a * PI * 2 in
      let radius := 2 + b * 4 in
      let pos := Vector3.mk (cos angle * radius) 0 (sin angle * radius) in
      penguin <- ColonyPenguin.make model pos ;;
      spawn model n (ps ++ [penguin])
  end.

(** The loader callback of [loadAndSpawn]; [model] is the loaded FBX. *)
Definition loaded (model : Object3D.t) (c : t) : M t :=
  r <- Math_random ;;
  let count := Z.to_nat (15 + JS.Math_floor (r * 10)) in
  ps <- spawn model count (penguins c) ;;
  ret (mk ps (colonyCenter c)).

(** [this.penguins.forEach(p => p.update(dt, this.colonyCenter,
    this.penguins))].  [done] are the penguins already updated in this
    frame and [todo] the ones still to be visited, so that the array is
    [done ++ todo] when the head of [todo] is updated. *)
Fixpoint updateEach (dt : R) (center : Vector3.t)
         (done todo : list ColonyPenguin.t) : M (list ColonyPenguin.t) :=
  match todo with
  | [] => ret done
  | p :: rest =>
      p' <- ColonyPenguin.update dt center (length done) (done ++ p :: rest) p ;;
      updateEach dt center (done ++ [p']) rest
  end.

(** The opacity of the colony for a player at distance [dist] of the
    origin. *)
Definition fade (dist : R) : R :=
  let fadeStart := 5 in
  let fadeEnd := 30 in
  1.0 - MathUtils.smoothstep dist fadeStart fadeEnd.

Definition update (dt : R) (playerPos : Vector3.t) (c : t) : M t :=
  ps <- updateEach dt (colonyCenter c) [] (penguins c) ;;
  let dist := Vector3.length playerPos in
  let opacity := fade dist in
  ret (mk (map (ColonyPenguin.setOpacity opacity) ps) (colonyCenter c)).

(** What happens to the colony: the model arrives once, then frames. *)
Inductive event : Type :=
| ModelLoaded (model : Object3D.t)
| Frame (dt : R) (playerPos : Vector3.t).

Definition step (e : event) (c : t) : M t :=
  match e with
  | ModelLoaded model => loaded model c
  | Frame dt playerPos => update dt playerPos c
  end.

Fixpoint run (es : list event) (c : t) : M t :=
  match es with
  | [] => ret c
  | e :: es => c <- step e c ;; run es c
  end.

End ColonyManager.

(* ================================================================= *)
(** ** SubtitleOverlay.ts *)

Module SubtitleOverlay.

(** An entry of [Narration.subtitles.json]; [end_] is its field [end]. *)
Record Subtitle : Type := mkSubtitle {
  start : R;
  end_ : R;
  text : String.string
}.

(** The overlay: the array, the index of the entry on display ([-1] for
    none) and, of the element, the text and the opacity that the class
    writes. *)
Record t : Type := mk {
  subtitles : list Subtitle;
  activeIndex : Z;
  innerText : String.string;
  opacity : String.string
}.

Definition init : t := mk [] (-1) ""%string "0"%string.

(** [loadSubtitles], once the file has arrived. *)
Definition loaded (subs : list Subtitle) (s : t) : t :=
  mk subs (activeIndex s) (innerText s) (opacity s).

(** The loop of [update] from the index [i] on; [subs] is the rest of the
    array.  The result is [(foundIndex, maxStart)]. *)
Fixpoint search (currentTime : R) (i : nat) (subs : list Subtitle)
         (foundIndex : Z) (maxStart : R) : Z * R :=
  match subs with
  | [] => (foundIndex, maxStart)
  | sub :: subs =>
      if Rge_dec currentTime (start sub) then
        if Rlt_dec currentTime (end_ sub) then
          if Rgt_dec (start sub) maxStart
          then search currentTime (S i) subs (Z.of_nat i) (start sub)
          else search currentTime (S i) subs foundIndex maxStart
        else search currentTime (S i) subs foundIndex maxStart
      else search currentTime (S i) subs foundIndex maxStart
  end.

(** [update(currentTime)]; [None] is the [TypeError] of reading [text] of
    [undefined]. *)
Definition update (currentTime : R) (s : t) : option t :=
  let foundIndex := fst (search currentTime 0 (subtitles s) (-1) (-1)) in
  if negb (foundIndex =? activeIndex s)%Z then
    if negb (foundIndex =? -1)%Z then
      match JS.at_index (subtitles s) foundIndex with
      | Some sub => Some (mk (subtitles s) foundIndex (text sub) "1"%string)
      | None => None
      end
    else Some (mk (subtitles s) foundIndex (innerText s) "0"%string)
  else Some s.

(** [setVisible(visible)] *)
Definition setVisible (visible : bool) (s : t) : t :=
  if negb visible
  then mk (subtitles s) (-1) (innerText s) "0"%string
  else s.

(** The calls from outside. *)
Inductive event : Type :=
| Update (currentTime : R)
| SetVisible (visible : bool).

Definition step (e : event) (s : t) : option t :=
  match e with
  | Update currentTime => update currentTime s
  | SetVisible visible => Some (setVisible visible s)
  end.

Fixpoint run (es : list event) (s : t) : option t :=
  match es with
  | [] => Some s
  | e :: es =>
      match step e s with
      | Some s => run es s
      | None => None
      end
  end.

(** A session: calls while the file is on its way, the file, more calls. *)
Definition session (before : list event) (subs : list Subtitle)
           (after : list event) : option t :=
  match run before init with
  | Some s => run after (loaded subs s)
  | None => None
  end.

End SubtitleOverlay.

(* ================================================================= *)
(** ** VirtualJoystick.ts *)

Module VirtualJoystick.

(** What [getBoundingClientRect()] returns. *)
Record DOMRect : Type := mkRect {
  left : R;
  top : R;
  width : R;
  height : R
}.

(** The joystick; [axisX], [axisY] and [active] are the fields behind the
    getters of these names, and [knob] the two offsets in the transform of
    the knob. *)
Record t : Type := mk {
  centerX : R;
  centerY : R;
  pointerId : option Z;
  axisX : R;
  axisY : R;
  active : bool;
  baseRadius : R;
  knob : R * R
}.

Definition updateKnobPosition (dx dy : R) (s : t) : t :=
  mk (centerX s) (centerY s) (pointerId s) (axisX s) (axisY s) (active s)
     (baseRadius s) (dx, dy).

Definition init : t :=
  updateKnobPosition 0 0 (mk 0 0 None 0 0 false 60 (0, 0)).

(** [handleMove(clientX, clientY)] *)
Definition handleMove (clientX clientY : R) (s : t) : t :=
  let dx := clientX - centerX s in
  let dy := clientY - centerY s in
  let dist := sqrt (dx * dx + dy * dy) in
  let maxDist := baseRadius s in
  let d :=
    if Rgt_dec dist maxDist
    then ((dx / dist) * maxDist, (dy / dist) * maxDist)
    else (dx, dy) in
  let dx := fst d in
  let dy := snd d in
  updateKnobPosition dx dy
    (mk (centerX s) (centerY s) (pointerId s) (dx / maxDist) (dy / maxDist)
        (active s) (baseRadius s) (knob s)).

(** The listener of [pointerdown]; [rect] is the bounding rectangle of the
    base at that moment. *)
Definition pointerdown (id : Z) (clientX clientY : R) (rect : DOMRect)
           (s : t) : t :=
  match pointerId s with
  | Some _ => s
  | None =>
      handleMove clientX clientY
        (mk (left rect + width rect / 2) (top rect + height rect / 2)
            (Some id) (axisX s) (axisY s) true (width rect / 2) (knob s))
  end.

(** [this.pointerId !== e.pointerId] *)
Definition other_pointer (id : Z) (s : t) : bool :=
  match pointerId s with
  | Some p => negb (p =? id)%Z
  | None => true
  end.

(** The listener of [pointermove]. *)
Definition pointermove (id : Z) (clientX clientY : R) (s : t) : t :=
  if other_pointer id s then s else handleMove clientX clientY s.

(** [endMove], the listener of [pointerup] and of [pointercancel]. *)
Definition endMove (id : Z) (s : t) : t :=
  if other_pointer id s then s
  else updateKnobPosition 0 0
         (mk (centerX s) (centerY s) None 0 0 false (baseRadius s) (knob s)).

Inductive event : Type :=
| PointerDown (id : Z) (clientX clientY : R) (rect : DOMRect)
| PointerMove (id : Z) (clientX clientY : R)
| PointerUp (id : Z)
| PointerCancel (id : Z).

Definition step (e : event) (s : t) : t :=
  match e with
  | PointerDown id clientX clientY rect => pointerdown id clientX clientY rect s
  | PointerMove id clientX clientY => pointermove id clientX clientY s
  | PointerUp id => endMove id s
  | PointerCancel id => endMove id s
  end.

Definition run (es : list event) (s : t) : t :=
  fold_left (fun s e => step e s) es s.

End VirtualJoystick.

(* ================================================================= *)
(** ** AudioManager.ts: when the music and the narration start *)

Module AudioManager.

(** The flags and the timers of the class; [windGain] and [musicGain] are
    the targets that the two gains have been given, and [music] and
    [narration] tell whether [play()] has been called on the element. *)
Record t : Type := mk {
  isEnabled : bool;
  musicStarted : bool;
  narrationStarted : bool;
  walkTimer : R;
  narrationTimer : R;
  windGain : R;
  musicGain : R;
  music : bool;
  narration : bool
}.

Definition init : t := mk false false false 0 0 0.0 0 false false.

(** [resume()] *)
Definition resume (a : t) : t :=
  mk true (musicStarted a) (narrationStarted a) (walkTimer a)
     (narrationTimer a) 0.05 (musicGain a) (music a) (narration a).

(** The first [if] of [update], for an enabled manager. *)
Definition startMusic (dt : R) (isWalking : bool) (a : t) : t :=
  if isWalking && negb (musicStarted a) then
    let walkTimer := walkTimer a + dt in
    if Rge_dec walkTimer 10
    then mk (isEnabled a) true (narrationStarted a) walkTimer
            (narrationTimer a) (windGain a) 0.4 true (narration a)
    else mk (isEnabled a) (musicStarted a) (narrationStarted a) walkTimer
            (narrationTimer a) (windGain a) (musicGain a) (music a)
            (narration a)
  else a.

(** The second [if] of [update]. *)
Definition startNarration (dt : R) (a : t) : t :=
  if musicStarted a && negb (narrationStarted a) then
    let narrationTimer := narrationTimer a + dt in
    if Rge_dec narrationTimer 4.0
    then mk (isEnabled a) (musicStarted a) true (walkTimer a) narrationTimer
            (windGain a) (musicGain a) (music a) true
    else mk (isEnabled a) (musicStarted a) (narrationStarted a) (walkTimer a)
            narrationTimer (windGain a) (musicGain a) (music a)
            (narration a)
  else a.

(** [update(dt, isWalking)] *)
Definition update (dt : R) (isWalking : bool) (a : t) : t :=
  if negb (isEnabled a) then a
  else startNarration dt (startMusic dt isWalking a).

Inductive event : Type :=
| Resume
| Update (dt : R) (isWalking : bool).

Definition step (e : event) (a : t) : t :=
  match e with
  | Resume => resume a
  | Update dt isWalking => update dt isWalking a
  end.

Definition run (es : list event) (a : t) : t :=
  fold_left (fun a e => step e a) es a.

End AudioManager.

(* ================================================================= *)
(** ** main.ts: the input, the cinematic camera and the audio of [App]

    Of [animate], the part on the fields of [App] itself: the position of
    the penguin after its update is an argument of the frame. *)

Module App.
Import Host.
Local Open Scope host_scope.

Record t : Type := mk {
  input_forward : bool;
  hasInteracted : bool;
  walkingTimer : R;
  isCinematicMode : bool;
  cinematicTimer : R;
  cinematicPhaseTimer : R;
  currentCinematicOffset : Vector3.t;
  camera_position : Vector3.t;
  audioManager : AudioManager.t
}.

Definition DEFAULT_OFFSET : Vector3.t := Vector3.mk 0 2 (- 5).

Definition init : t :=
  mk false false 0 false 0 0 (Vector3.mk 0 2 (- 5)) (Vector3.mk 0 2 (- 4))
     AudioManager.init.

Definition set_forward (b : bool) (a : t) : t :=
  mk b (hasInteracted a) (walkingTimer a) (isCinematicMode a)
     (cinematicTimer a) (cinematicPhaseTimer a) (currentCinematicOffset a)
     (camera_position a) (audioManager a).

Definition set_walkingTimer (w : R) (a : t) : t :=
  mk (input_forward a) (hasInteracted a) w (isCinematicMode a)
     (cinematicTimer a) (cinematicPhaseTimer a) (currentCinematicOffset a)
     (camera_position a) (audioManager a).

Definition set_cinematic (mode : bool) (timer phase : R) (a : t) : t :=
  mk (input_forward a) (hasInteracted a) (walkingTimer a) mode timer phase
     (currentCinematicOffset a) (camera_position a) (audioManager a).

Definition set_offset (v : Vector3.t) (a : t) : t :=
  mk (input_forward a) (hasInteracted a) (walkingTimer a) (isCinematicMode a)
     (cinematicTimer a) (cinematicPhaseTimer a) v (camera_position a)
     (audioManager a).

Definition set_camera (v : Vector3.t) (a : t) : t :=
  mk (input_forward a) (hasInteracted a) (walkingTimer a) (isCinematicMode a)
     (cinematicTimer a) (cinematicPhaseTimer a) (currentCinematicOffset a) v
     (audioManager a).

Definition set_audio (m : AudioManager.t) (a : t) : t :=
  mk (input_forward a) (hasInteracted a) (walkingTimer a) (isCinematicMode a)
     (cinematicTimer a) (cinematicPhaseTimer a) (currentCinematicOffset a)
     (camera_position a) m.

(** A call that may throw: [None] is the exception. *)
Definition and_then {A B : Type} (m : M (option A)) (k : A -> M (option B))
  : M (option B) :=
  r <- m ;;
  match r with
  | Some a => k a
  | None => ret None
  end.

Definition handleInteraction (a : t) : t :=
  if negb (hasInteracted a) then
    mk (input_forward a) true (walkingTimer a) (isCinematicMode a)
       (cinematicTimer a) (cinematicPhaseTimer a) (currentCinematicOffset a)
       (camera_position a) (AudioManager.resume (audioManager a))
  else a.

Definition presets : list Vector3.t :=
  [ Vector3.mk 4 1.5 4;
    Vector3.mk (- 4) 2 2;
    Vector3.mk 0 0.5 6;
    Vector3.mk 0 8 (- 10);
    Vector3.mk (- 6) 1 (- 2);
    Vector3.mk 3 4 (- 6);
    Vector3.mk 8 2 0 ].

(** [pickRandomCinematicOffset()]; [copy(undefined)] throws. *)
Definition pickRandomCinematicOffset (a : t) : M (option t) :=
  r <- Math_random ;;
  let k := JS.Math_floor (r * INR (length presets)) in
  match JS.at_index presets k with
  | Some v => ret (Some (set_offset v a))
  | None => ret None
  end.

Definition triggerCinematic (a : t) : M (option t) :=
  if isCinematicMode a then ret (Some a)
  else pickRandomCinematicOffset (set_cinematic true 10 0 a).

(** [e.code === 'KeyW' || e.code === 'ArrowUp'] *)
Definition is_forward (code : String.string) : bool :=
  String.eqb code "KeyW"%string || String.eqb code "ArrowUp"%string.

Definition onKeyDown (code : String.string) (a : t) : M (option t) :=
  let a := handleInteraction a in
  let a := if is_forward code then set_forward true a else a in
  if String.eqb code "KeyC"%string then triggerCinematic a
  else ret (Some a).

Definition onKeyUp (code : String.string) (a : t) : t :=
  if is_forward code then set_forward false a else a.

Definition onTouchStart (a : t) : t := set_forward true (handleInteraction a).

Definition onTouchEnd (a : t) : t := set_forward false a.

(** "Auto Cinematic Trigger" *)
Definition autoCinematic (dt : R) (a : t) : M (option t) :=
  if input_forward a then
    let a := set_walkingTimer (walkingTimer a + dt) a in
    if Rgt_dec (walkingTimer a) 25
    then triggerCinematic (set_walkingTimer 0 a)
    else ret (Some a)
  else
    ret (Some (set_walkingTimer (Rmax 0 (walkingTimer a - dt * 2)) a)).

(** "Cinematic Logic"; the result comes with [targetOffset]. *)
Definition cinematic (dt : R) (a : t) : M (option (t * Vector3.t)) :=
  if isCinematicMode a then
    let a :=
      set_cinematic true (cinematicTimer a - dt) (cinematicPhaseTimer a + dt) a in
    and_then
      (if Rgt_dec (cinematicPhaseTimer a) 2.5
       then pickRandomCinematicOffset
              (set_cinematic true (cinematicTimer a) 0 a)
       else ret (Some a))
      (fun a =>
         if Rle_dec (cinematicTimer a) 0
         then ret (Some (set_cinematic false (cinematicTimer a)
                                       (cinematicPhaseTimer a) a,
                         DEFAULT_OFFSET))
         else ret (Some (a, currentCinematicOffset a)))
  else ret (Some (a, DEFAULT_OFFSET)).

(** "Camera Follow" *)
Definition follow (dt : R) (penguin : Vector3.t) (targetOffset : Vector3.t)
           (a : t) : t :=
  let targetCamPos := Vector3.add penguin targetOffset in
  let lerpSpeed := if isCinematicMode a then 3.0 else 2.0 in
  set_camera (Vector3.lerp (camera_position a) targetCamPos (lerpSpeed * dt)) a.

(** [animate()] for a frame of [dt] seconds in which the penguin is at
    [penguin] after its update. *)
Definition animate (dt : R) (penguin : Vector3.t) (a : t) : M (option t) :=
  let a :=
    set_audio (AudioManager.update dt (input_forward a) (audioManager a)) a in
  and_then (autoCinematic dt a) (fun a =>
  and_then (cinematic dt a) (fun r =>
  ret (Some (follow dt penguin (snd r) (fst r))))).

Inductive event : Type :=
| KeyDown (code : String.string)
| KeyUp (code : String.string)
| TouchStart
| TouchEnd
| MouseDown
| Animate (dt : R) (penguin : Vector3.t).

Definition step (e : event) (a : t) : M (option t) :=
  match e with
  | KeyDown code => onKeyDown code a
  | KeyUp code => ret (Some (onKeyUp code a))
  | TouchStart => ret (Some (onTouchStart a))
  | TouchEnd => ret (Some (onTouchEnd a))
  | MouseDown => ret (Some (handleInteraction a))
  | Animate dt penguin => animate dt penguin a
  end.

Fixpoint run (es : list event) (a : t) : M (option t) :=
  match es with
  | [] => ret (Some a)
  | e :: es => and_then (step e a) (run es)
  end.

End App.

(* ================================================================= *)
(** ** The words of the specification *)

Module Spec.

(** The normalization of a plane vector [(a, b)] that is not null. *)
Definition unit_x (a b : R) : R := a / sqrt (a * a + b * b).
Definition unit_y (a b : R) : R := b / sqrt (a * a + b * b).

(** The heightfield of section 4.1. *)
Definition elevation (x z : R) : R :=
  let wx := unit_x 1.0 0.5 in
  let wz := unit_y 1.0 0.5 in
  let w := x * wx + z * wz in
  let p := x * (- wz) + z * wx in
  sin (x * 0.05) * cos (z * 0.04) * 0.4 + sin (x * 0.02) * 0.2
  + sin (w * 0.5) * sin (p * 5.0) * 0.05 + sin (w * 0.2) * 0.1.

(** A footprint is still there after a decay pass of [dt]. *)
Definition survives (dt : R) (fp : Penguin.Footprint) : bool :=
  if Rle_dec (Penguin.fp_opacity fp - dt * 0.02) 0 then false else true.

(** The decay pass of section 4.3: the footprints that survive, in their
    order, each faded by [0.02 * dt]. *)
Definition decay (dt : R) (fps : list Penguin.Footprint)
  : list Penguin.Footprint :=
  map (Penguin.fade dt) (filter (survives dt) fps).

(** The clamped cubic [3t^2 - 2t^3] of the glossary. *)
Definition smoothstep (x lo hi : R) : R :=
  let t := Rmax 0 (Rmin 1 ((x - lo) / (hi - lo))) in
  3 * (t * t) - 2 * (t * t * t).

(** Section 4.4, Walking.  The vector of length one (or null) from [a]
    towards [b]. *)
Definition towards (a b : Vector3.t) : Vector3.t :=
  Vector3.normalize (Vector3.sub b a).

Definition forward (facing : R) : Vector3.t :=
  Vector3.mk (sin facing) 0 (cos facing).

Definition vsum (l : list Vector3.t) : Vector3.t :=
  fold_right Vector3.add Vector3.zero l.

(** The other agents at a distance below [1.0] of [here]. *)
Definition too_close (self : nat) (here : Vector3.t)
           (entry : nat * ColonyPenguin.t) : bool :=
  negb (fst entry =? self)%nat &&
  (if Rlt_dec (Vector3.distanceTo here (ColonyPenguin.position (snd entry))) 1.0
   then true else false).

Definition repulsion (here : Vector3.t) (entry : nat * ColonyPenguin.t)
  : Vector3.t :=
  let there := ColonyPenguin.position (snd entry) in
  Vector3.multiplyScalar (towards there here)
                         (0.5 / (Vector3.distanceTo here there + 0.1)).

Definition separation (self : nat) (here : Vector3.t)
           (others : list ColonyPenguin.t) : Vector3.t :=
  vsum (map (repulsion here)
            (filter (too_close self here) (ColonyPenguin.indexed others))).

Definition cohesion (center here : Vector3.t) : Vector3.t :=
  if Rgt_dec (Vector3.distanceTo here center) 5
  then Vector3.multiplyScalar (towards here center) 0.1
  else Vector3.zero.

Definition steering (center : Vector3.t) (self : nat)
           (others : list ColonyPenguin.t) (here : Vector3.t) (facing : R)
  : Vector3.t :=
  Vector3.normalize
    (Vector3.add (Vector3.add (forward facing) (separation self here others))
                 (cohesion center here)).

(** An agent up to the roll of its body ([mesh.rotation.z]). *)
Definition unrolled (p : ColonyPenguin.t) : ColonyPenguin.t :=
  ColonyPenguin.set_mesh p (Object3D.set_rotation_z (ColonyPenguin.mesh p) 0).

(** Two hosts that give the same random draws. *)
Definition same_draws (h1 h2 : Host.t) : Prop :=
  Host.rand h1 = Host.rand h2 /\ Host.rand_pos h1 = Host.rand_pos h2.

End Spec.

(* ================================================================= *)
(** ** Sample inputs *)

Module Sample.

Definition origin : Vector3.t := Vector3.mk 0 0 0.

(** A footprint half faded. *)
Definition footprint : Penguin.Footprint :=
  Penguin.mkFootprint 0 origin (- PI / 2) (0.2 + PI) 0.5.

(** A player whose trail is full. *)
Definition full_trail : Penguin.t :=
  Penguin.mk origin 0 0 true 0
    (repeat (Penguin.newFootprint 0 origin true) 200) 0 true true true 200.

(** A host whose draws are all [0.5], with the clock stopped at [now]. *)
Definition host (now : R) : Host.t :=
  Host.mk (fun _ => 0.5) 0 (fun _ => now) 0.

Definition mesh : Object3D.t := Object3D.mk origin 0 0 0 true 1.

(** An agent at the origin, in state [s], facing [facing], one second
    into a stay of five. *)
Definition agent (s : ColonyPenguin.PenguinState) (facing : R)
  : ColonyPenguin.t :=
  ColonyPenguin.mk (Object3D.set_rotation_y mesh facing) s 1 5 0 5 1
                   facing facing 0 0.

Definition idler : ColonyPenguin.t := agent ColonyPenguin.IDLE 0.
Definition walker : ColonyPenguin.t := agent ColonyPenguin.WALKING (PI / 2).

Definition colony (p : ColonyPenguin.t) : ColonyManager.t :=
  ColonyManager.mk [p] origin.

End Sample.

(* ================================================================= *)
(** ** Notions used in the proofs *)

(** The stamps of the footprints of the trail. *)
Definition ids (p : Penguin.t) : list nat :=
  map Penguin.fp_id (Penguin.footprints p).

(** From [p] to [q] the trail has only gained footprints created in
    between. *)
Definition grows (p q : Penguin.t) : Prop :=
  (Penguin.allocated p <= Penguin.allocated q)%nat /\
  forall i, In i (ids q) ->
            In i (ids p) \/ (Penguin.allocated p <= i < Penguin.allocated q)%nat.

(** What the behaviour of a frame leaves alone. *)
Definition same_plan (p q : ColonyPenguin.t) : Prop :=
  ColonyPenguin.state q = ColonyPenguin.state p /\
  ColonyPenguin.timer q = ColonyPenguin.timer p /\
  ColonyPenguin.stateDuration q = ColonyPenguin.stateDuration p /\
  ColonyPenguin.targetRotation q = ColonyPenguin.targetRotation p /\
  ColonyPenguin.headTiltTarget q = ColonyPenguin.headTiltTarget p /\
  ColonyPenguin.moveSpeed q = ColonyPenguin.moveSpeed p /\
  ColonyPenguin.waddleSpeed q = ColonyPenguin.waddleSpeed p.

(** The agent that [ColonyPenguin.update] hands to the [switch]. *)
Definition due (dt : R) (p : ColonyPenguin.t) (h : Host.t) : ColonyPenguin.t :=
  let p1 := ColonyPenguin.set_timer p (ColonyPenguin.timer p + dt) in
  fst (if ColonyPenguin.expired p1 then ColonyPenguin.pickNewState p1 h
       else (p1, h)).

(** What two replays of a session have in common. *)
Definition replayed (c1 c2 : ColonyManager.t) : Prop :=
  ColonyManager.colonyCenter c1 = ColonyManager.colonyCenter c2 /\
  map Spec.unrolled (ColonyManager.penguins c1)
  = map Spec.unrolled (ColonyManager.penguins c2).

(** A vertex of a mountain after the deformation. *)
Definition deformVertex (scale heightScale seed : R) (v : Vector3.t)
  : Vector3.t :=
  Environment.setZ v
    (Environment.deformed scale heightScale seed (Vector3.x v) (Vector3.y v)).


(** The time steps of an event satisfy [D]. *)
Definition timed (D : R -> Prop) (e : Penguin.event) : Prop :=
  match e with
  | Penguin.Decay dt => D dt
  | Penguin.Frame dt _ _ => D dt
  | _ => True
  end.

(** Time does not run backwards in this event. *)
Definition forward_time : Penguin.event -> Prop := timed (fun dt => 0 <= dt).

(** The speed multiplier of a frame, with its default. *)
Definition multiplier (speedMultiplier : option R) : R :=
  match speedMultiplier with Some s => s | None => 1.0 end.



(** Oldest first, every stamp below the count of the footprints created. *)
Definition ordered (fps : list Penguin.Footprint) (n : nat) : Prop :=
  StronglySorted lt (map Penguin.fp_id fps) /\
  Forall (fun i => (i < n)%nat) (map Penguin.fp_id fps).

(** The opacities of a trail are in the range of a footprint. *)
Definition lit (fps : list Penguin.Footprint) (n : nat) : Prop :=
  Forall (fun fp => 0 < Penguin.fp_opacity fp <= 1) fps.

(** The opacities of a trail are positive. *)
Definition lit_up (fps : list Penguin.Footprint) (n : nat) : Prop :=
  Forall (fun fp => 0 < Penguin.fp_opacity fp) fps.

(** The ranges in which the constructor and [pickNewState] draw the
    parameters of an agent, and the range of the ground under it. *)
Definition sane (p : ColonyPenguin.t) : Prop :=
  0.5 <= ColonyPenguin.moveSpeed p < 1 /\
  5 <= ColonyPenguin.waddleSpeed p < 8 /\
  1 <= ColonyPenguin.stateDuration p < 6 /\
  - 0.25 <= ColonyPenguin.headTiltTarget p <= 0.25 /\
  - 0.5 <= Vector3.y (ColonyPenguin.position p) <= 0.5.


(** A snow flake in the box in which [createSnow] draws it. *)
Definition in_snow_box (v : Vector3.t) : Prop :=
  - 50 <= Vector3.x v < 50 /\ 0 <= Vector3.y v <= 40 /\
  - 50 <= Vector3.z v < 50.

(** A particle of the ground snow within its bounds. *)
Definition in_skim_box (v : Vector3.t) : Prop :=
  Rabs (Vector3.x v) <= 100 /\ Rabs (Vector3.y v) <= 100 /\
  - 100 <= Vector3.z v < 100.

(** What a frame does to a snow flake. *)
Definition fallen (dt : R) (v v' : Vector3.t) : Prop :=
  Vector3.x v' = Vector3.x v /\ Vector3.z v' = Vector3.z v /\
  0 <= Vector3.y v' /\
  (0 <= Vector3.y v - dt * 2.0 -> Vector3.y v' = Vector3.y v - dt * 2.0) /\
  (Vector3.y v - dt * 2.0 < 0 -> Vector3.y v' = 40).

(** What a frame does to a particle of the ground snow. *)
Definition skimmed (dt : R) (v v' : Vector3.t) : Prop :=
  Vector3.z v' = Vector3.z v /\
  Rabs (Vector3.x v') <= 100 /\ Rabs (Vector3.y v') <= 100 /\
  (Rabs (Vector3.x v + dt * 5.0) <= 100 ->
     Vector3.x v' = Vector3.x v + dt * 5.0) /\
  (Rabs (Vector3.z v + dt * 2.5) <= 100 ->
     Vector3.y v' = Vector3.z v + dt * 2.5).

(** The time step of a frame of the environment is not negative. *)
Definition forward_frame (f : R * Vector3.t * R) : Prop := 0 <= fst (fst f).

(** What holds of the particles all along. *)
Definition weather (e : Environment.t) : Prop :=
  Forall in_snow_box (Environment.snowSystem e) /\
  Forall in_skim_box (Environment.groundSnow e) /\
  length (Environment.snowSystem e) = 5000%nat /\
  length (Environment.groundSnow e) = 2000%nat.

(** A subtitle is on at the time [t]. *)
Definition on_at (t : R) (sub : SubtitleOverlay.Subtitle) : Prop :=
  SubtitleOverlay.start sub <= t < SubtitleOverlay.end_ sub.

(** A subtitle that starts after [-1], the first value of [maxStart]. *)
Definition started (sub : SubtitleOverlay.Subtitle) : Prop :=
  -1 < SubtitleOverlay.start sub.

(** What the loop of [SubtitleOverlay.update] holds in its two variables
    once it has seen the first [n] entries of [all]: nothing, or the first
    of the entries on at [t] that start last. *)
Definition found_in (all : list SubtitleOverlay.Subtitle) (t : R) (n : nat)
           (f : Z) (m : R) : Prop :=
  (f = (-1)%Z /\ m = -1 /\
   forall j sub, (j < n)%nat -> nth_error all j = Some sub -> on_at t sub ->
                 SubtitleOverlay.start sub <= -1)
  \/
  (exists i sub,
      (i < n)%nat /\ f = Z.of_nat i /\ nth_error all i = Some sub /\
      on_at t sub /\ m = SubtitleOverlay.start sub /\ -1 < m /\
      forall j sub', (j < n)%nat -> nth_error all j = Some sub' ->
                     on_at t sub' ->
                     SubtitleOverlay.start sub' <= m /\
                     ((j < i)%nat -> SubtitleOverlay.start sub' < m)).

(** The overlay shows what its index says. *)
Definition consistent (s : SubtitleOverlay.t) : Prop :=
  (SubtitleOverlay.activeIndex s = (-1)%Z /\
   SubtitleOverlay.opacity s = "0"%string)
  \/
  (exists sub,
      JS.at_index (SubtitleOverlay.subtitles s)
                  (SubtitleOverlay.activeIndex s) = Some sub /\
      SubtitleOverlay.innerText s = SubtitleOverlay.text sub /\
      SubtitleOverlay.opacity s = "1"%string).

(** The base of the joystick has a width when a pointer goes down on it. *)
Definition framed (e : VirtualJoystick.event) : Prop :=
  match e with
  | VirtualJoystick.PointerDown _ _ _ rect => 0 < VirtualJoystick.width rect
  | _ => True
  end.

(** An event of another pointer than [id]. *)
Definition foreign (id : Z) (e : VirtualJoystick.event) : Prop :=
  match e with
  | VirtualJoystick.PointerDown _ _ _ _ => True
  | VirtualJoystick.PointerMove id' _ _ => id' <> id
  | VirtualJoystick.PointerUp id' => id' <> id
  | VirtualJoystick.PointerCancel id' => id' <> id
  end.

(** What holds of the joystick all along. *)
Definition centred (s : VirtualJoystick.t) : Prop :=
  0 < VirtualJoystick.baseRadius s /\
  (VirtualJoystick.active s = true <-> VirtualJoystick.pointerId s <> None) /\
  (VirtualJoystick.active s = false ->
   VirtualJoystick.axisX s = 0 /\ VirtualJoystick.axisY s = 0 /\
   VirtualJoystick.knob s = (0, 0)) /\
  VirtualJoystick.axisX s * VirtualJoystick.axisX s +
  VirtualJoystick.axisY s * VirtualJoystick.axisY s <= 1 /\
  VirtualJoystick.knob s =
  (VirtualJoystick.axisX s * VirtualJoystick.baseRadius s,
   VirtualJoystick.axisY s * VirtualJoystick.baseRadius s).



(** What holds of the flags and the timers of the audio all along. *)
Definition cued (a : AudioManager.t) : Prop :=
  (AudioManager.narrationStarted a = true ->
   AudioManager.musicStarted a = true) /\
  (AudioManager.musicStarted a = true -> AudioManager.isEnabled a = true) /\
  (AudioManager.musicStarted a = true <-> 10 <= AudioManager.walkTimer a) /\
  (AudioManager.narrationStarted a = true <->
   4 <= AudioManager.narrationTimer a) /\
  AudioManager.music a = AudioManager.musicStarted a /\
  AudioManager.narration a = AudioManager.narrationStarted a /\
  AudioManager.windGain a = (if AudioManager.isEnabled a then 0.05 else 0) /\
  AudioManager.musicGain a = (if AudioManager.musicStarted a then 0.4 else 0).

(** No frame of the application runs backwards. *)
Definition forward_app (e : App.event) : Prop :=
  match e with
  | App.Animate dt _ => 0 <= dt
  | _ => True
  end.

(** What holds of the timers of the application all along. *)
Definition directed (a : App.t) : Prop :=
  0 <= App.walkingTimer a <= 25 /\
  (App.isCinematicMode a = true ->
   0 < App.cinematicTimer a <= 10 /\ 0 <= App.cinematicPhaseTimer a <= 2.5) /\
  In (App.currentCinematicOffset a) (App.DEFAULT_OFFSET :: App.presets) /\
  App.hasInteracted a = AudioManager.isEnabled (App.audioManager a).

(** The footprints of a session come from the frames. *)
Definition own_steps (e : Penguin.event) : Prop :=
  match e with
  | Penguin.Spawn _ _ => False
  | _ => True
  end.

(** How far along [z] a footprint lies. *)
Definition fp_z (fp : Penguin.Footprint) : R :=
  Vector3.z (Penguin.fp_position fp).

(** The footprint [b] lies more than a quarter of [PI] beyond [a]. *)
Definition apart (a b : Penguin.Footprint) : Prop := fp_z a + PI / 4 < fp_z b.

(** A footprint to the left or to the right of the line [x = 0]. *)
Definition beside (fp : Penguin.Footprint) : Prop :=
  Vector3.x (Penguin.fp_position fp) = - 0.2 \/
  Vector3.x (Penguin.fp_position fp) = 0.2.

(** What holds of a player that walks by its frames. *)
Definition paced (p : Penguin.t) : Prop :=
  Vector3.x (Penguin.position p) = 0 /\
  Penguin.walkTime p = 4 * Vector3.z (Penguin.position p) /\
  StronglySorted apart (Penguin.footprints p) /\
  Forall (fun fp => 4 * fp_z fp <= Penguin.lastStepTime p /\ beside fp)
         (Penguin.footprints p).

(** A footprint lies 0.03 above the heightfield of the environment, which
    keeps it between -0.72 and 0.78. *)
Definition on_ground (fp : Penguin.Footprint) : Prop :=
  Vector3.y (Penguin.fp_position fp)
  = Environment.getGroundHeight (Vector3.x (Penguin.fp_position fp))
                                (Vector3.z (Penguin.fp_position fp)) + 0.03 /\
  - 0.72 <= Vector3.y (Penguin.fp_position fp) <= 0.78.

(* ================================================================= *)
(** ** Heightfield *)

Lemma wind_length : Vector2.length (Vector2.mk 1.0 0.5) = sqrt (1.0 * 1.0 + 0.5 * 0.5).
Proof. reflexivity. Qed.

Lemma wind_length_pos : 0 < sqrt (1.0 * 1.0 + 0.5 * 0.5).
Proof. apply sqrt_lt_R0. lra. Qed.

Lemma windDir_x :
  Vector2.x (Vector2.normalize (Vector2.mk 1.0 0.5)) = Spec.unit_x 1.0 0.5.
Proof.
  unfold Vector2.normalize, Vector2.divideScalar, Vector2.multiplyScalar,
    JS.or_else, Spec.unit_x.
  rewrite wind_length. pose proof wind_length_pos as Hpos.
  destruct (Req_dec_T _ 0) as [E | _]; [lra |].
  cbn [Vector2.x]. field. lra.
Qed.

Lemma windDir_y :
  Vector2.y (Vector2.normalize (Vector2.mk 1.0 0.5)) = Spec.unit_y 1.0 0.5.
Proof.
  unfold Vector2.normalize, Vector2.divideScalar, Vector2.multiplyScalar,
    JS.or_else, Spec.unit_y.
  rewrite wind_length. pose proof wind_length_pos as Hpos.
  destruct (Req_dec_T _ 0) as [E | _]; [lra |].
  cbn [Vector2.y]. field. lra.
Qed.

Lemma windDir_unit :
  Spec.unit_x 1.0 0.5 * Spec.unit_x 1.0 0.5
  + Spec.unit_y 1.0 0.5 * Spec.unit_y 1.0 0.5 = 1.
Proof.
  unfold Spec.unit_x, Spec.unit_y. pose proof wind_length_pos as Hpos.
  set (n := sqrt (1.0 * 1.0 + 0.5 * 0.5)) in *.
  assert (Hn : n * n = 1.0 * 1.0 + 0.5 * 0.5)
    by (apply sqrt_sqrt; lra).
  apply Rmult_eq_reg_r with (r := n * n); [| nra].
  field_simplify; [| lra]. nra.
Qed.

(** C1.  The runtime query of the player ([Penguin.getGroundHeight]) and the
    one of the environment ([Environment.getGroundHeight]) return the same
    elevation for every [(x, z)], and this elevation is the heightfield of
    the specification, with the wind direction the unit vector along
    [(1.0, 0.5)]. *)
Theorem getGroundHeight_consistent :
  forall x z : R,
    Environment.getGroundHeight x z = Penguin.getGroundHeight x z /\
    Penguin.getGroundHeight x z = Spec.elevation x z /\
    Spec.unit_x 1.0 0.5 * Spec.unit_x 1.0 0.5
    + Spec.unit_y 1.0 0.5 * Spec.unit_y 1.0 0.5 = 1.
Proof.
  intros x z. split; [reflexivity |]. split; [| exact windDir_unit].
  unfold Penguin.getGroundHeight, Spec.elevation.
  cbv zeta. rewrite windDir_x, windDir_y. ring.
Qed.

(* ================================================================= *)
(** ** Footprint trail *)

Section Trail.
Import Penguin.

Lemma survives_fade dt fp :
  Spec.survives dt fp = if Rle_dec (fp_opacity (fade dt fp)) 0 then false else true.
Proof. reflexivity. Qed.

(** The loop has visited the slots from [length pre] on: what is left of
    them is [post]; it goes on through [pre]. *)
Lemma updateFootprints_from_app dt :
  forall pre post,
    updateFootprints_from dt (length pre) (pre ++ post)
    = Some (Spec.decay dt pre ++ post).
Proof.
  induction pre as [| fp pre IH] using rev_ind; intros post.
  - reflexivity.
  - rewrite length_app, Nat.add_comm. cbn [length Nat.add updateFootprints_from].
    rewrite <- app_assoc. cbn [app].
    rewrite nth_error_app2 by lia. rewrite Nat.sub_diag. cbn [nth_error].
    unfold Spec.decay. rewrite filter_app, map_app. cbn [filter].
    rewrite survives_fade.
    unfold splice1, store.
    rewrite firstn_app, Nat.sub_diag, firstn_all, firstn_O, app_nil_r.
    replace (skipn (S (length pre)) (pre ++ fp :: post)) with post.
    2:{ rewrite skipn_app, skipn_all2 by lia.
        replace (S (length pre) - length pre)%nat with 1%nat by lia.
        reflexivity. }
    destruct (Rle_dec (fp_opacity (fade dt fp)) 0).
    + rewrite IH. cbn [map]. rewrite app_nil_r. reflexivity.
    + rewrite IH. cbn [map]. rewrite <- app_assoc. reflexivity.
Qed.

Lemma updateFootprints_decay dt fps :
  updateFootprints dt fps = Some (Spec.decay dt fps).
Proof.
  unfold updateFootprints.
  rewrite <- (app_nil_r fps) at 2.
  rewrite updateFootprints_from_app. rewrite app_nil_r. reflexivity.
Qed.

Lemma decay_length dt fps : (length (Spec.decay dt fps) <= length fps)%nat.
Proof. unfold Spec.decay. rewrite length_map. apply filter_length_le. Qed.

Lemma spawnFootprint_length position isLeft p :
  (length (footprints p) <= 200)%nat ->
  (length (footprints (spawnFootprint position isLeft p)) <= 200)%nat.
Proof.
  intros H. unfold spawnFootprint.
  destruct (negb (footprintTexture p) || negb (footprintNormal p)); [exact H |].
  cbn [footprints].
  destruct (Nat.ltb_spec 200 (length (footprints p ++ [newFootprint (allocated p) position isLeft]))) as [L | L].
  - rewrite length_app in L. cbn [length] in L.
    destruct (footprints p) as [| fp fps]; cbn [app tl length] in *; [lia |].
    rewrite length_app. cbn [length]. lia.
  - exact L.
Qed.

Lemma update_total dt moving speedMultiplier p :
  exists q, update dt moving speedMultiplier p = Some q.
Proof.
  unfold update. rewrite updateFootprints_decay.
  repeat match goal with
         | |- context [if ?c then _ else _] => destruct c
         end; eexists; reflexivity.
Qed.

Lemma update_length dt moving speedMultiplier p q :
  update dt moving speedMultiplier p = Some q ->
  (length (footprints p) <= 200)%nat ->
  (length (footprints q) <= 200)%nat.
Proof.
  unfold update. rewrite updateFootprints_decay. intros E H.
  pose proof (decay_length dt (footprints p)) as D.
  destruct (negb (body _)); [injection E as <-; cbn; lia |].
  destruct (negb moving); [injection E as <-; cbn; lia |].
  destruct (Rgt_dec _ _); injection E as <-; cbn [footprints].
  - apply spawnFootprint_length. cbn. lia.
  - cbn. lia.
Qed.

Lemma step_total e p : exists q, step e p = Some q.
Proof.
  destruct e; cbn [step]; try (eexists; reflexivity).
  - rewrite updateFootprints_decay. eexists; reflexivity.
  - apply update_total.
Qed.

Lemma step_length e p q :
  step e p = Some q ->
  (length (footprints p) <= 200)%nat ->
  (length (footprints q) <= 200)%nat.
Proof.
  destruct e; cbn [step]; intros E H.
  - injection E as <-. exact H.
  - injection E as <-. exact H.
  - injection E as <-. apply spawnFootprint_length, H.
  - rewrite updateFootprints_decay in E. injection E as <-. cbn.
    pose proof (decay_length dt (footprints p)). lia.
  - eapply update_length; eassumption.
Qed.

Lemma run_capacity es :
  forall p, (length (footprints p) <= 200)%nat ->
    exists q, run es p = Some q /\ (length (footprints q) <= 200)%nat.
Proof.
  induction es as [| e es IH]; intros p H; cbn [run].
  - exists p. split; [reflexivity | exact H].
  - destruct (step_total e p) as [q E]. rewrite E.
    apply IH. eapply step_length; eassumption.
Qed.

End Trail.

(** C2.  Whatever happens to the player from its construction on (footprints
    spawned, decay passes, whole frames, loader callbacks), every call
    returns and the trail holds at most 200 footprints.  A spawn that brings
    the trail above 200 removes, in the same call, the footprint at index 0:
    the trail is then the old one without its head, followed by the new
    footprint. *)
Theorem footprint_capacity :
  (forall es : list Penguin.event,
      exists q, Penguin.run es Penguin.init = Some q /\
                (length (Penguin.footprints q) <= 200)%nat) /\
  (forall (p : Penguin.t) (position : Vector3.t) (isLeft : bool),
      Penguin.footprintTexture p = true ->
      Penguin.footprintNormal p = true ->
      (200 < length (Penguin.footprints p) + 1)%nat ->
      Penguin.footprints (Penguin.spawnFootprint position isLeft p)
      = tl (Penguin.footprints p)
        ++ [Penguin.newFootprint (Penguin.allocated p) position isLeft]).
Proof.
  split.
  - intros es. apply run_capacity. cbn. lia.
  - intros p position isLeft Ht Hn Hlen. unfold Penguin.spawnFootprint.
    rewrite Ht, Hn. cbn [negb orb Penguin.footprints].
    rewrite length_app. cbn [length].
    destruct (Nat.ltb_spec 200 (length (Penguin.footprints p) + 1)); [| lia].
    destruct (Penguin.footprints p); [cbn in Hlen; lia | reflexivity].
Qed.

(** A full trail, one more footprint. *)
Lemma footprint_capacity_witness :
  Penguin.footprints
    (Penguin.spawnFootprint Sample.origin false Sample.full_trail)
  = tl (Penguin.footprints Sample.full_trail)
    ++ [Penguin.newFootprint (Penguin.allocated Sample.full_trail)
                             Sample.origin false].
Proof.
  apply (proj2 footprint_capacity Sample.full_trail Sample.origin false).
  - reflexivity.
  - reflexivity.
  - cbn [Sample.full_trail Penguin.footprints]. rewrite repeat_length. lia.
Defined.

Section TrailIdentity.
Import Penguin.

Lemma grows_refl p : grows p p.
Proof. split; [lia | auto]. Qed.

Lemma grows_trans p q r : grows p q -> grows q r -> grows p r.
Proof.
  intros [A1 B1] [A2 B2]. split; [lia |].
  intros i Hi. destruct (B2 i Hi) as [Hq | Hq]; [| right; lia].
  destruct (B1 i Hq) as [Hp | Hp]; [left; exact Hp | right; lia].
Qed.

Lemma decay_ids dt fps i :
  In i (map fp_id (Spec.decay dt fps)) -> In i (map fp_id fps).
Proof.
  unfold Spec.decay. rewrite map_map. cbn [fade fp_id].
  rewrite !in_map_iff. intros [fp [E H]]. apply filter_In in H.
  exists fp. tauto.
Qed.

Lemma grows_decay dt p : grows p (set_footprints p (Spec.decay dt (footprints p))).
Proof.
  split; [cbn; lia |]. unfold ids. cbn [set_footprints footprints].
  intros i Hi. left. eapply decay_ids, Hi.
Qed.

Lemma In_tl {A : Type} (a : A) l : In a (tl l) -> In a l.
Proof. destruct l; cbn; auto. Qed.

Lemma grows_spawn position isLeft p : grows p (spawnFootprint position isLeft p).
Proof.
  unfold spawnFootprint.
  destruct (negb (footprintTexture p) || negb (footprintNormal p));
    [apply grows_refl |].
  split; [cbn; lia |]. unfold ids. cbn [footprints allocated].
  intros i Hi.
  assert (H : In i (map fp_id
                (footprints p ++ [newFootprint (allocated p) position isLeft]))).
  { destruct (_ <? _)%nat; [| exact Hi].
    rewrite in_map_iff in Hi. destruct Hi as [fp [E H]].
    apply in_map_iff. exists fp. split; [exact E | apply In_tl, H]. }
  rewrite map_app, in_app_iff in H. destruct H as [H | H]; [left; exact H |].
  cbn in H. right. lia.
Qed.

Lemma grows_same_trail p q :
  footprints q = footprints p -> allocated q = allocated p -> grows p q.
Proof.
  intros E A. split; [lia |]. unfold ids. rewrite E. auto.
Qed.

Lemma grows_update dt moving speedMultiplier p q :
  update dt moving speedMultiplier p = Some q -> grows p q.
Proof.
  unfold update. rewrite updateFootprints_decay. intros E.
  apply grows_trans with (1 := grows_decay dt p).
  destruct (negb (body _)); [injection E as <-; apply grows_refl |].
  destruct (negb moving);
    [injection E as <-; apply grows_same_trail; reflexivity |].
  destruct (Rgt_dec _ _); injection E as <-.
  - match goal with
    | |- grows ?a (mk _ _ _ _ _ (footprints ?s) _ _ _ _ (allocated ?s)) =>
        apply grows_trans with (q := s)
    end.
    + match goal with
      | |- grows ?a (spawnFootprint ?pos ?l ?b) =>
          apply grows_trans with (q := b);
            [apply grows_same_trail; reflexivity | apply grows_spawn]
      end.
    + apply grows_same_trail; reflexivity.
  - apply grows_same_trail; reflexivity.
Qed.

Lemma grows_step e p q : step e p = Some q -> grows p q.
Proof.
  destruct e; cbn [step]; intros E.
  - injection E as <-. apply grows_same_trail; reflexivity.
  - injection E as <-. apply grows_same_trail; reflexivity.
  - injection E as <-. apply grows_spawn.
  - rewrite updateFootprints_decay in E. injection E as <-. apply grows_decay.
  - eapply grows_update, E.
Qed.

Lemma grows_run es : forall p q, run es p = Some q -> grows p q.
Proof.
  induction es as [| e es IH]; intros p q E; cbn [run] in E.
  - injection E as <-. apply grows_refl.
  - destruct (step e p) as [r |] eqn:S; [| discriminate].
    eapply grows_trans; [eapply grows_step, S | apply IH, E].
Qed.

(** The stamp of a footprint in the trail is below the allocation count. *)
Lemma reachable_stamps es p :
  run es init = Some p ->
  forall fp, In fp (footprints p) -> (fp_id fp < allocated p)%nat.
Proof.
  intros E fp Hfp. destruct (grows_run _ _ _ E) as [_ B].
  destruct (B (fp_id fp)) as [H | H]; [apply in_map, Hfp | destruct H | lia].
Qed.

Lemma decay_members dt fps fp :
  In fp (Spec.decay dt fps) ->
  exists fp0, In fp0 fps /\ fp = fade dt fp0 /\ Spec.survives dt fp0 = true.
Proof.
  unfold Spec.decay. rewrite in_map_iff. intros [fp0 [E H]].
  apply filter_In in H. exists fp0. intuition.
Qed.

End TrailIdentity.

(** C5.  For [dt > 0] a decay pass returns, and what it leaves is the trail
    without the footprints whose opacity, lowered by [0.02 * dt], is at or
    below zero; the others keep their order and have their opacity lowered by
    exactly [0.02 * dt], so it is strictly smaller than before and still
    positive.  A footprint whose opacity has reached zero or less is not in
    the trail that the pass leaves.  A footprint of the trail of a player
    that is gone after a decay pass, or after a whole frame, is in none of
    the later trails of that player. *)
Theorem footprint_decay :
  forall dt : R, 0 < dt ->
    (forall fps, Penguin.updateFootprints dt fps = Some (Spec.decay dt fps)) /\
    (forall fps fp, In fp (Spec.decay dt fps) ->
       exists fp0, In fp0 fps /\ fp = Penguin.fade dt fp0 /\
         Penguin.fp_opacity fp = Penguin.fp_opacity fp0 - 0.02 * dt /\
         0 < Penguin.fp_opacity fp < Penguin.fp_opacity fp0) /\
    (forall fps fp0,
       Penguin.fp_opacity fp0 - 0.02 * dt <= 0 ->
       ~ In (Penguin.fade dt fp0) (Spec.decay dt fps)) /\
    (forall es0 p fp moving speedMultiplier p' es q,
       Penguin.run es0 Penguin.init = Some p ->
       In fp (Penguin.footprints p) ->
       Penguin.step (Penguin.Decay dt) p = Some p' \/
       Penguin.step (Penguin.Frame dt moving speedMultiplier) p = Some p' ->
       ~ In (Penguin.fp_id fp) (map Penguin.fp_id (Penguin.footprints p')) ->
       Penguin.run es p' = Some q ->
       ~ In (Penguin.fp_id fp) (map Penguin.fp_id (Penguin.footprints q))).
Proof.
  intros dt Hdt. split; [| split; [| split]].
  - intros fps. apply updateFootprints_decay.
  - intros fps fp H. destruct (decay_members _ _ _ H) as [fp0 [H0 [E S]]].
    exists fp0. split; [exact H0 |]. split; [exact E |].
    subst fp. cbn [Penguin.fade Penguin.fp_opacity].
    unfold Spec.survives in S.
    destruct (Rle_dec _ 0) in S; [discriminate |]. lra.
  - intros fps fp0 Hle H. destruct (decay_members _ _ _ H) as [fp1 [_ [E S]]].
    unfold Spec.survives in S.
    destruct (Rle_dec _ 0) in S; [discriminate |].
    assert (O : Penguin.fp_opacity (Penguin.fade dt fp0)
                = Penguin.fp_opacity (Penguin.fade dt fp1)) by (rewrite E; reflexivity).
    cbn [Penguin.fade Penguin.fp_opacity] in O. lra.
  - intros es0 p fp moving speedMultiplier p' es q R0 Hfp St Hgone Rq Hin.
    pose proof (reachable_stamps _ _ R0 _ Hfp) as Hlt.
    assert (G : grows p p') by (destruct St as [St | St]; eapply grows_step, St).
    destruct G as [A _].
    destruct (grows_run _ _ _ Rq) as [_ B].
    destruct (B _ Hin) as [H | H].
    + apply Hgone. exact H.
    + lia.
Qed.

(** A pass of one second over a trail of one footprint half faded. *)
Lemma footprint_decay_witness :
  Penguin.updateFootprints 1 [Sample.footprint]
  = Some (Spec.decay 1 [Sample.footprint]).
Proof.
  apply (proj1 (footprint_decay 1 ltac:(lra))).
Defined.

(* ================================================================= *)
(** ** Colony agents: the behaviour machine *)

Section Machine.
Import ColonyPenguin.

(** [update], statement by statement. *)
Lemma update_unfold dt center self others p h :
  update dt center self others p h
  = let p1 := set_timer p (timer p + dt) in
    let ph2 := if expired p1 then pickNewState p1 h else (p1, h) in
    let ph3 := behave dt center self others (fst ph2) (snd ph2) in
    (place (fst ph3), snd ph3).
Proof.
  unfold update, Host.bind, Host.ret. cbv zeta.
  destruct (expired _).
  - destruct (pickNewState _ h) as [p2 h2]. cbn [fst snd].
    destruct (behave _ _ _ _ p2 h2). reflexivity.
  - cbn [fst snd]. destruct (behave _ _ _ _ _ h). reflexivity.
Qed.

Lemma expired_true p : expired p = true <-> timer p >= stateDuration p.
Proof. unfold expired. destruct (Rge_dec _ _); split; intros; auto; discriminate. Qed.

Lemma expired_false p : expired p = false <-> timer p < stateDuration p.
Proof.
  unfold expired. destruct (Rge_dec _ _); split; intros; auto; try discriminate; lra.
Qed.

Lemma behave_plan dt center self others p h :
  same_plan p (fst (behave dt center self others p h)) /\
  Host.rand (snd (behave dt center self others p h)) = Host.rand h /\
  Host.rand_pos (snd (behave dt center self others p h)) = Host.rand_pos h.
Proof.
  unfold behave, same_plan.
  destruct (state p) eqn:E; cbn; rewrite ?E; repeat split; reflexivity.
Qed.

Lemma place_plan p : same_plan p (place p).
Proof. unfold same_plan. cbn. repeat split; reflexivity. Qed.

(** The table of [pickNewState]: [r], [d] and [a] are the next three
    draws. *)
Lemma pickNewState_table p h :
  Host.fair h ->
  let r := Host.rand h (Host.rand_pos h) in
  let q := fst (pickNewState p h) in
  let h' := snd (pickNewState p h) in
  timer q = 0 /\
  (Host.rand_pos h < Host.rand_pos h')%nat /\
  Host.rand h' = Host.rand h /\
  moveSpeed q = moveSpeed p /\
  (r < 0.6 ->
     state q = IDLE /\ 2 <= stateDuration q < 6 /\
     targetRotation q = targetRotation p /\
     headTiltTarget q = headTiltTarget p) /\
  (0.6 <= r < 0.85 ->
     state q = WALKING /\ 1.5 <= stateDuration q < 4.5 /\
     - 0.75 <= targetRotation q - currentRotation p <= 0.75 /\
     headTiltTarget q = headTiltTarget p) /\
  (0.85 <= r < 0.95 ->
     state q = TURNING /\ 1 <= stateDuration q < 3 /\
     0 <= targetRotation q < 2 * PI /\
     headTiltTarget q = headTiltTarget p) /\
  (0.95 <= r ->
     state q = LOOKING /\ 2 <= stateDuration q < 4 /\
     targetRotation q = targetRotation p /\
     - 0.25 <= headTiltTarget q <= 0.25).
Proof.
  intros F r q h'. subst r q h'.
  pose proof (F (Host.rand_pos h)) as Fr.
  pose proof (F (S (Host.rand_pos h))) as Fd.
  pose proof (F (S (S (Host.rand_pos h)))) as Fa.
  pose proof PI_RGT_0 as Hpi.
  unfold pickNewState, Host.bind, Host.ret, Host.Math_random.
  cbn [Host.rand Host.rand_pos].
  destruct (Rlt_dec _ 0.6); [| destruct (Rlt_dec _ 0.85); [| destruct (Rlt_dec _ 0.95)]];
    cbn [fst snd set_timer enter timer state stateDuration targetRotation
         headTiltTarget moveSpeed Host.rand Host.rand_pos];
    repeat split; try reflexivity; try lia; intros; try lra; try nra.
Qed.

End Machine.

(** C3.  In one [update(dt)] of an agent, with draws in [[0, 1)], a new
    state is picked (random numbers are drawn) exactly when the elapsed time
    of the state, advanced by [dt], has reached the duration of the state.
    Otherwise state, duration and targets are kept and the time advances.
    When it is picked, the time restarts at zero and the first draw [r]
    decides: [r < 0.60] Idle for 2 to 6 s; [0.60 <= r < 0.85] Walking for
    1.5 to 4.5 s with a target facing within 0.75 rad of the facing;
    [0.85 <= r < 0.95] Turning for 1 to 3 s with a target facing in
    [[0, 2 pi)]; [0.95 <= r] Looking for 2 to 4 s with a head tilt target
    within 0.25 rad.  The state is one of the four. *)
Theorem state_machine :
  forall (h : Host.t), Host.fair h ->
  forall (dt : R) (center : Vector3.t) (self : nat)
         (others : list ColonyPenguin.t) (p : ColonyPenguin.t),
    let r := Host.rand h (Host.rand_pos h) in
    let q := fst (ColonyPenguin.update dt center self others p h) in
    let h' := snd (ColonyPenguin.update dt center self others p h) in
    (Host.rand_pos h' <> Host.rand_pos h
     <-> ColonyPenguin.timer p + dt >= ColonyPenguin.stateDuration p) /\
    (ColonyPenguin.timer p + dt < ColonyPenguin.stateDuration p ->
       ColonyPenguin.state q = ColonyPenguin.state p /\
       ColonyPenguin.stateDuration q = ColonyPenguin.stateDuration p /\
       ColonyPenguin.timer q = ColonyPenguin.timer p + dt /\
       ColonyPenguin.targetRotation q = ColonyPenguin.targetRotation p /\
       ColonyPenguin.headTiltTarget q = ColonyPenguin.headTiltTarget p) /\
    (ColonyPenguin.timer p + dt >= ColonyPenguin.stateDuration p ->
       ColonyPenguin.timer q = 0 /\
       (r < 0.6 ->
          ColonyPenguin.state q = ColonyPenguin.IDLE /\
          2 <= ColonyPenguin.stateDuration q < 6) /\
       (0.6 <= r < 0.85 ->
          ColonyPenguin.state q = ColonyPenguin.WALKING /\
          1.5 <= ColonyPenguin.stateDuration q < 4.5 /\
          - 0.75 <= ColonyPenguin.targetRotation q
                    - ColonyPenguin.currentRotation p <= 0.75) /\
       (0.85 <= r < 0.95 ->
          ColonyPenguin.state q = ColonyPenguin.TURNING /\
          1 <= ColonyPenguin.stateDuration q < 3 /\
          0 <= ColonyPenguin.targetRotation q < 2 * PI) /\
       (0.95 <= r ->
          ColonyPenguin.state q = ColonyPenguin.LOOKING /\
          2 <= ColonyPenguin.stateDuration q < 4 /\
          - 0.25 <= ColonyPenguin.headTiltTarget q <= 0.25)) /\
    (ColonyPenguin.state q = ColonyPenguin.IDLE \/
     ColonyPenguin.state q = ColonyPenguin.WALKING \/
     ColonyPenguin.state q = ColonyPenguin.TURNING \/
     ColonyPenguin.state q = ColonyPenguin.LOOKING).
Proof.
  intros h F dt center self others p r q h'. subst r q h'.
  rewrite update_unfold. cbv zeta.
  set (p1 := ColonyPenguin.set_timer p (ColonyPenguin.timer p + dt)).
  assert (T1 : ColonyPenguin.timer p1 = ColonyPenguin.timer p + dt) by reflexivity.
  assert (D1 : ColonyPenguin.stateDuration p1 = ColonyPenguin.stateDuration p)
    by reflexivity.
  destruct (ColonyPenguin.expired p1) eqn:X.
  - apply expired_true in X. rewrite T1, D1 in X.
    destruct (pickNewState_table p1 h F)
      as (Tq & Pq & Rq & _ & Ti & Tw & Tt & Tl).
    set (p2 := fst (ColonyPenguin.pickNewState p1 h)) in *.
    set (h2 := snd (ColonyPenguin.pickNewState p1 h)) in *.
    destruct (behave_plan dt center self others p2 h2)
      as ((S3 & T3 & D3 & R3 & L3 & _) & _ & P3).
    set (ph3 := ColonyPenguin.behave dt center self others p2 h2) in *.
    cbn [fst snd].
    destruct (place_plan (fst ph3)) as (S4 & T4 & D4 & R4 & L4 & _).
    rewrite S4, T4, D4, R4, L4, S3, T3, D3, R3, L3, P3.
    split; [split; [intros _; exact X | intros _; lia] |].
    split; [intros C; lra |].
    split.
    + intros _. split; [exact Tq |].
      split; [intros C; destruct (Ti C); tauto |].
      split; [intros C; destruct (Tw C); tauto |].
      split; [intros C; destruct (Tt C); tauto |].
      intros C; destruct (Tl C); tauto.
    + destruct (ColonyPenguin.state p2); tauto.
  - apply expired_false in X. rewrite T1, D1 in X.
    cbn [fst snd].
    destruct (behave_plan dt center self others p1 h)
      as ((S3 & T3 & D3 & R3 & L3 & _) & _ & P3).
    set (ph3 := ColonyPenguin.behave dt center self others p1 h) in *.
    destruct (place_plan (fst ph3)) as (S4 & T4 & D4 & R4 & L4 & _).
    rewrite S4, T4, D4, R4, L4, S3, T3, D3, R3, L3, P3.
    split; [split; [intros C; congruence | intros C; lra] |].
    split; [intros _; repeat split; reflexivity |].
    split; [intros C; lra |].
    destruct (ColonyPenguin.state p1); tauto.
Qed.

(** An idle agent one second into a stay of five, a frame of a tenth of a
    second: no draw. *)
Lemma state_machine_witness :
  Host.rand_pos
    (snd (ColonyPenguin.update 0.1 Sample.origin 0 [Sample.idler] Sample.idler
            (Sample.host 0)))
  <> Host.rand_pos (Sample.host 0)
  <-> ColonyPenguin.timer Sample.idler + 0.1
      >= ColonyPenguin.stateDuration Sample.idler.
Proof.
  apply (state_machine (Sample.host 0)).
  intros n. cbn. lra.
Defined.


(* ================================================================= *)
(** ** Colony agents: walking *)

Section Walking.
Import ColonyPenguin.

Lemma vector3_eq (a b : Vector3.t) :
  Vector3.x a = Vector3.x b -> Vector3.y a = Vector3.y b ->
  Vector3.z a = Vector3.z b -> a = b.
Proof. destruct a, b. cbn. intros -> -> ->. reflexivity. Qed.

Lemma add_assoc a b c :
  Vector3.add (Vector3.add a b) c = Vector3.add a (Vector3.add b c).
Proof. apply vector3_eq; cbn; ring. Qed.

Lemma add_zero_r a : Vector3.add a Vector3.zero = a.
Proof. apply vector3_eq; cbn; ring. Qed.

Lemma add_zero_l a : Vector3.add Vector3.zero a = a.
Proof. apply vector3_eq; cbn; ring. Qed.

(** The axis-angle rotation of [(0, 0, 1)] about the vertical. *)
Lemma forward_axis facing :
  Vector3.applyAxisAngle (Vector3.mk 0 0 1) (Vector3.mk 0 1 0) facing
  = Spec.forward facing.
Proof.
  assert (S : sin facing = 2 * sin (facing / 2) * cos (facing / 2))
    by (rewrite <- sin_2a; f_equal; field).
  assert (C : cos facing = 1 - 2 * sin (facing / 2) * sin (facing / 2))
    by (rewrite <- cos_2a_sin; f_equal; field).
  unfold Vector3.applyAxisAngle, Spec.forward.
  apply vector3_eq; cbn [Vector3.x Vector3.y Vector3.z]; rewrite ?S, ?C; ring.
Qed.

Lemma forward_unit facing : Vector3.length (Spec.forward facing) = 1.
Proof.
  unfold Vector3.length, Spec.forward. cbn [Vector3.x Vector3.y Vector3.z].
  replace (sin facing * sin facing + 0 * 0 + cos facing * cos facing)
    with ((sin facing)² + (cos facing)²) by (unfold Rsqr; ring).
  rewrite sin2_cos2. apply sqrt_1.
Qed.

(** The loop over the other penguins adds up the repulsions of the ones
    that are too close. *)
Lemma avoid_separation self here :
  forall l acc,
    fold_left (avoid self here) l acc
    = Vector3.add acc
        (Spec.vsum (map (Spec.repulsion here)
                        (filter (Spec.too_close self here) l))).
Proof.
  induction l as [| [j other] l IH]; intros acc.
  - cbn. symmetry. apply add_zero_r.
  - cbn [fold_left filter]. rewrite IH.
    unfold avoid at 1, Spec.too_close at 2. cbn [fst snd].
    destruct (j =? self)%nat; cbn [negb andb]; [reflexivity |].
    destruct (Rlt_dec _ 1.0); [| reflexivity].
    cbn [map Spec.vsum fold_right]. rewrite add_assoc. reflexivity.
Qed.

Lemma length_sub a b : Vector3.length (Vector3.sub b a) = Vector3.distanceTo a b.
Proof.
  unfold Vector3.length, Vector3.distanceTo, Vector3.sub.
  cbn [Vector3.x Vector3.y Vector3.z]. f_equal. ring.
Qed.

Lemma heading_steering center self others here facing :
  heading center self others here facing
  = Spec.steering center self others here facing.
Proof.
  unfold heading, Spec.steering, Spec.cohesion, Spec.separation, Spec.towards.
  cbv zeta. rewrite forward_axis, avoid_separation, add_zero_l, length_sub.
  destruct (Rgt_dec _ 5).
  - rewrite add_assoc. reflexivity.
  - rewrite add_zero_r. reflexivity.
Qed.

(** The steering vector has length one, or is null. *)
Lemma normalize_unit v :
  Vector3.length v <> 0 -> Vector3.length (Vector3.normalize v) = 1.
Proof.
  intros H. unfold Vector3.normalize, JS.or_else.
  destruct (Req_dec_T _ 0) as [E | _]; [contradiction |].
  unfold Vector3.divideScalar, Vector3.multiplyScalar, Vector3.length in *.
  cbn [Vector3.x Vector3.y Vector3.z].
  set (n2 := Vector3.x v * Vector3.x v + Vector3.y v * Vector3.y v
             + Vector3.z v * Vector3.z v) in *.
  assert (P : 0 <= n2) by (unfold n2; nra).
  assert (Q : 0 < sqrt n2).
  { destruct (sqrt_pos n2) as [L | L]; [exact L | congruence]. }
  replace (_ + _ + _) with (n2 * (1 / sqrt n2) * (1 / sqrt n2))
    by (unfold n2; ring).
  replace (n2 * (1 / sqrt n2) * (1 / sqrt n2)) with 1.
  - apply sqrt_1.
  - rewrite <- (sqrt_sqrt n2 P) at 1. field. lra.
Qed.

Lemma pickNewState_body p h :
  mesh (fst (pickNewState p h)) = mesh p /\
  moveSpeed (fst (pickNewState p h)) = moveSpeed p /\
  waddleSpeed (fst (pickNewState p h)) = waddleSpeed p /\
  walkTime (fst (pickNewState p h)) = walkTime p /\
  currentRotation (fst (pickNewState p h)) = currentRotation p /\
  headTilt (fst (pickNewState p h)) = headTilt p.
Proof.
  unfold pickNewState, Host.bind, Host.ret, Host.Math_random.
  destruct (Rlt_dec _ 0.6); [| destruct (Rlt_dec _ 0.85); [| destruct (Rlt_dec _ 0.95)]];
    cbn; repeat split; reflexivity.
Qed.

Lemma due_body dt p h :
  mesh (due dt p h) = mesh p /\ moveSpeed (due dt p h) = moveSpeed p /\
  waddleSpeed (due dt p h) = waddleSpeed p /\
  walkTime (due dt p h) = walkTime p /\
  currentRotation (due dt p h) = currentRotation p.
Proof.
  unfold due. cbv zeta. destruct (expired _).
  - destruct (pickNewState_body (set_timer p (timer p + dt)) h)
      as (A & B & C & D & E & _).
    rewrite A, B, C, D, E. repeat split; reflexivity.
  - cbn. repeat split; reflexivity.
Qed.

Lemma update_state dt center self others p h :
  state (fst (update dt center self others p h)) = state (due dt p h).
Proof.
  rewrite update_unfold. cbv zeta. cbn [fst].
  destruct (place_plan (fst (behave dt center self others
     (fst (if expired (set_timer p (timer p + dt))
           then pickNewState (set_timer p (timer p + dt)) h
           else (set_timer p (timer p + dt), h)))
     (snd (if expired (set_timer p (timer p + dt))
           then pickNewState (set_timer p (timer p + dt)) h
           else (set_timer p (timer p + dt), h)))))) as (S4 & _).
  rewrite S4.
  match goal with
  | |- state (fst (behave _ _ _ _ ?a ?b)) = _ =>
      destruct (behave_plan dt center self others a b) as ((S3 & _) & _)
  end.
  rewrite S3. reflexivity.
Qed.

(** A frame of a walking agent. *)
Lemma update_walking dt center self others p h :
  state (due dt p h) = WALKING ->
  fst (update dt center self others p h)
  = place (updateWalking dt center self others (due dt p h)).
Proof.
  intros W. rewrite update_unfold. cbv zeta. cbn [fst]. f_equal.
  fold (due dt p h). unfold behave. rewrite W. reflexivity.
Qed.

Lemma updateWalking_position dt center self others p :
  let facing :=
    MathUtils.lerp (currentRotation p) (targetRotation p) (dt * 2) in
  let dir := Spec.steering center self others (position p) facing in
  currentRotation (updateWalking dt center self others p) = facing /\
  Object3D.rotation_y (mesh (updateWalking dt center self others p)) = facing /\
  Vector3.x (position (updateWalking dt center self others p))
  = Vector3.x (position p) + moveSpeed p * dt * Vector3.x dir /\
  Vector3.z (position (updateWalking dt center self others p))
  = Vector3.z (position p) + moveSpeed p * dt * Vector3.z dir /\
  Vector3.y (position (updateWalking dt center self others p))
  = Vector3.y (position p) + moveSpeed p * dt * Vector3.y dir
    + Rabs (cos (walkTime p + dt * waddleSpeed p)) * 0.03.
Proof.
  cbv zeta. rewrite <- heading_steering.
  unfold updateWalking, position. cbn -[heading].
  repeat split; try reflexivity; ring.
Qed.

Lemma walking_frame dt center self others p h :
  let q := fst (update dt center self others p h) in
  state q = WALKING ->
  let dir := Spec.steering center self others (position p) (currentRotation q) in
  Vector3.x (position q)
  = Vector3.x (position p) + moveSpeed p * dt * Vector3.x dir /\
  Vector3.z (position q)
  = Vector3.z (position p) + moveSpeed p * dt * Vector3.z dir /\
  Vector3.y (position q) = ground (position q).
Proof.
  intros q W. subst q. rewrite update_state in W.
  rewrite (update_walking _ _ _ _ _ _ W). cbv zeta.
  destruct (due_body dt p h) as (M & V & _).
  destruct (updateWalking_position dt center self others (due dt p h))
    as (F & _ & X & Z & _).
  cbv zeta in F, X, Z.
  assert (P : position (due dt p h) = position p)
    by (unfold position; rewrite M; reflexivity).
  rewrite P, V in *.
  replace (currentRotation (place (updateWalking dt center self others (due dt p h))))
    with (currentRotation (updateWalking dt center self others (due dt p h)))
    by reflexivity.
  rewrite F. split; [| split].
  - rewrite <- X. reflexivity.
  - rewrite <- Z. reflexivity.
  - reflexivity.
Qed.

End Walking.

Section WalkingSample.
Import ColonyPenguin.

Lemma update_ground dt center self others p h :
  Vector3.y (position (fst (update dt center self others p h)))
  = sin (Vector3.x (position (fst (update dt center self others p h))) * 0.1)
    * cos (Vector3.z (position (fst (update dt center self others p h))) * 0.1)
    * 0.5.
Proof. rewrite update_unfold. reflexivity. Qed.

Lemma sample_distance : Vector3.distanceTo Sample.origin Sample.origin = 0.
Proof.
  unfold Vector3.distanceTo, Sample.origin. cbn [Vector3.x Vector3.y Vector3.z].
  replace ((0 - 0) * (0 - 0) + (0 - 0) * (0 - 0) + (0 - 0) * (0 - 0)) with 0 by ring.
  apply sqrt_0.
Qed.

Lemma normalize_x_axis : Vector3.normalize (Vector3.mk 1 0 0) = Vector3.mk 1 0 0.
Proof.
  unfold Vector3.normalize, Vector3.length, JS.or_else.
  cbn [Vector3.x Vector3.y Vector3.z].
  replace (1 * 1 + 0 * 0 + 0 * 0) with 1 by ring. rewrite sqrt_1.
  destruct (Req_dec_T 1 0); apply vector3_eq; cbn; field.
Qed.

(** Alone at the origin and facing a quarter turn, the way is [(1, 0, 0)]. *)
Lemma sample_steering :
  Spec.steering Sample.origin 0 [Sample.walker] Sample.origin (PI / 2)
  = Vector3.mk 1 0 0.
Proof.
  unfold Spec.steering, Spec.separation, Spec.cohesion.
  rewrite sample_distance.
  destruct (Rgt_dec 0 5); [lra |].
  cbn [indexed length seq combine filter Spec.too_close fst snd Nat.eqb negb
       andb map Spec.vsum fold_right].
  rewrite !add_zero_r. unfold Spec.forward. rewrite sin_PI2, cos_PI2.
  apply normalize_x_axis.
Qed.

Lemma sample_due :
  due 1 Sample.walker (Sample.host 0) = set_timer Sample.walker (1 + 1).
Proof.
  unfold due. cbv zeta.
  replace (expired (set_timer Sample.walker (timer Sample.walker + 1))) with false.
  - reflexivity.
  - symmetry. apply expired_false. cbn. lra.
Qed.

Lemma sample_facing :
  MathUtils.lerp (PI / 2) (PI / 2) (1 * 2) = PI / 2.
Proof. unfold MathUtils.lerp. field. Qed.

Lemma sample_walk :
  let q := fst (update 1 Sample.origin 0 [Sample.walker] Sample.walker
                       (Sample.host 0)) in
  state q = WALKING /\ currentRotation q = PI / 2 /\
  Vector3.x (position q) = 1 /\ Vector3.z (position q) = 0.
Proof.
  cbv zeta.
  assert (W : state (due 1 Sample.walker (Sample.host 0)) = WALKING)
    by (rewrite sample_due; reflexivity).
  split; [rewrite update_state; exact W |].
  rewrite (update_walking _ _ _ _ _ _ W), sample_due.
  destruct (updateWalking_position 1 Sample.origin 0 [Sample.walker]
              (set_timer Sample.walker (1 + 1))) as (F & _ & X & Z & _).
  cbv zeta in F, X, Z.
  change (currentRotation (set_timer Sample.walker (1 + 1))) with (PI / 2) in *.
  change (targetRotation (set_timer Sample.walker (1 + 1))) with (PI / 2) in *.
  change (position (set_timer Sample.walker (1 + 1))) with Sample.origin in *.
  change (moveSpeed (set_timer Sample.walker (1 + 1))) with 1 in *.
  rewrite sample_facing in *. rewrite sample_steering in X, Z.
  cbn [Vector3.x Vector3.z Sample.origin] in X, Z.
  split; [exact F |]. split.
  - change (Vector3.x (position (place ?a))) with (Vector3.x (position a)).
    rewrite X. ring.
  - change (Vector3.z (position (place ?a))) with (Vector3.z (position a)).
    rewrite Z. ring.
Qed.

Lemma sin_tenth_pos : 0 < sin (1 * 0.1).
Proof.
  pose proof PI2_1. apply sin_gt_0; lra.
Qed.

End WalkingSample.

(** C8.  After [update], whatever the state, the height of the agent is
    [sin(x * 0.1) * cos(z * 0.1) * 0.5] at the place [(x, z)] where the call
    leaves it.  [updateWalking] does add the bob [|cos(walkTime)| * 0.03] to
    the height, and the placement that ends [update] overwrites it: the
    height after the placement is the ground at the [(x, z)] that
    [updateWalking] has reached. *)
Theorem colony_height_pinned :
  (forall (dt : R) (center : Vector3.t) (self : nat)
          (others : list ColonyPenguin.t) (p : ColonyPenguin.t) (h : Host.t),
      let q := fst (ColonyPenguin.update dt center self others p h) in
      Vector3.y (ColonyPenguin.position q)
      = sin (Vector3.x (ColonyPenguin.position q) * 0.1)
        * cos (Vector3.z (ColonyPenguin.position q) * 0.1) * 0.5) /\
  (forall (dt : R) (center : Vector3.t) (self : nat)
          (others : list ColonyPenguin.t) (p : ColonyPenguin.t),
      let w := ColonyPenguin.updateWalking dt center self others p in
      let dir :=
        Spec.steering center self others (ColonyPenguin.position p)
                      (ColonyPenguin.currentRotation w) in
      Vector3.y (ColonyPenguin.position w)
      = Vector3.y (ColonyPenguin.position p)
        + ColonyPenguin.moveSpeed p * dt * Vector3.y dir
        + Rabs (cos (ColonyPenguin.walkTime w)) * 0.03 /\
      Vector3.y (ColonyPenguin.position (ColonyPenguin.place w))
      = sin (Vector3.x (ColonyPenguin.position w) * 0.1)
        * cos (Vector3.z (ColonyPenguin.position w) * 0.1) * 0.5).
Proof.
  split.
  - intros. subst q. apply update_ground.
  - intros dt center self others p w dir. subst w dir.
    destruct (updateWalking_position dt center self others p)
      as (F & _ & _ & _ & Y).
    cbv zeta in F, Y. rewrite F. split; [| reflexivity].
    rewrite Y. reflexivity.
Qed.

(** C4, as the code has it.  In one [update(dt)] of an agent that walks in
    this frame, the [x] and the [z] of the position change by [moveSpeed * dt]
    times the [x] and the [z] of the normalization (in space) of [forward +
    separation + cohesion]: [forward] is [(sin f, 0, cos f)] for the facing [f]
    that the frame ends with; [separation] adds, for every other agent at a
    distance [dist < 1.0], the normalized vector away from it times
    [0.5 / (dist + 0.1)]; [cohesion] is the normalized vector to the colony
    center times [0.1] when the center is further than [5], and null
    otherwise.  The height is not integrated: it is the ground at the new
    [(x, z)]. *)
Theorem walking_step :
  forall (dt : R) (center : Vector3.t) (self : nat)
         (others : list ColonyPenguin.t) (p : ColonyPenguin.t) (h : Host.t),
    let q := fst (ColonyPenguin.update dt center self others p h) in
    ColonyPenguin.state q = ColonyPenguin.WALKING ->
    let dir :=
      Vector3.normalize
        (Vector3.add
           (Vector3.add (Spec.forward (ColonyPenguin.currentRotation q))
                        (Spec.separation self (ColonyPenguin.position p) others))
           (Spec.cohesion center (ColonyPenguin.position p))) in
    Vector3.x (ColonyPenguin.position q)
    = Vector3.x (ColonyPenguin.position p)
      + ColonyPenguin.moveSpeed p * dt * Vector3.x dir /\
    Vector3.z (ColonyPenguin.position q)
    = Vector3.z (ColonyPenguin.position p)
      + ColonyPenguin.moveSpeed p * dt * Vector3.z dir /\
    Vector3.y (ColonyPenguin.position q)
    = ColonyPenguin.ground (ColonyPenguin.position q) /\
    Vector3.length (Spec.forward (ColonyPenguin.currentRotation q)) = 1.
Proof.
  intros dt center self others p h q W dir.
  destruct (walking_frame dt center self others p h W) as (X & Z & Y).
  repeat split; try assumption. apply forward_unit.
Qed.

(** The walker of the samples, for one second. *)
Lemma walking_step_witness :
  Vector3.y (ColonyPenguin.position
     (fst (ColonyPenguin.update 1 Sample.origin 0 [Sample.walker] Sample.walker
             (Sample.host 0))))
  = ColonyPenguin.ground (ColonyPenguin.position
     (fst (ColonyPenguin.update 1 Sample.origin 0 [Sample.walker] Sample.walker
             (Sample.host 0)))).
Proof.
  apply (walking_step 1 Sample.origin 0 [Sample.walker] Sample.walker
                      (Sample.host 0) (proj1 sample_walk)).
Defined.

(** C4, as the specification has it, fails on the height: the walker of the
    samples steps along [(1, 0, 0)], and its height changes although the
    steering vector is level. *)
Lemma walking_step_height_differs :
  let q := fst (ColonyPenguin.update 1 Sample.origin 0 [Sample.walker]
                  Sample.walker (Sample.host 0)) in
  let dir :=
    Vector3.normalize
      (Vector3.add
         (Vector3.add (Spec.forward (ColonyPenguin.currentRotation q))
            (Spec.separation 0 (ColonyPenguin.position Sample.walker)
                             [Sample.walker]))
         (Spec.cohesion Sample.origin (ColonyPenguin.position Sample.walker))) in
  ColonyPenguin.state q = ColonyPenguin.WALKING /\
  Vector3.y (ColonyPenguin.position q)
  <> Vector3.y (ColonyPenguin.position Sample.walker)
     + ColonyPenguin.moveSpeed Sample.walker * 1 * Vector3.y dir.
Proof.
  cbv zeta. destruct sample_walk as (W & F & X & Z). cbv zeta in W, F, X, Z.
  split; [exact W |].
  rewrite F.
  change (ColonyPenguin.position Sample.walker) with Sample.origin.
  fold (Spec.steering Sample.origin 0 [Sample.walker] Sample.origin (PI / 2)).
  rewrite sample_steering.
  rewrite update_ground.
  rewrite X, Z. cbn [Vector3.y Sample.origin].
  change (ColonyPenguin.moveSpeed Sample.walker) with 1.
  replace (0 * 0.1) with 0 by ring. rewrite cos_0.
  pose proof sin_tenth_pos. lra.
Qed.

(* ================================================================= *)
(** ** Visibility fader *)

Section Fader.

(** three.js's [smoothstep] is the clamped cubic. *)
Lemma smoothstep_cubic x lo hi :
  lo < hi -> MathUtils.smoothstep x lo hi = Spec.smoothstep x lo hi.
Proof.
  intros H. unfold MathUtils.smoothstep, Spec.smoothstep. cbv zeta.
  assert (D : 0 < / (hi - lo)) by (apply Rinv_0_lt_compat; lra).
  assert (I : (hi - lo) * / (hi - lo) = 1) by (apply Rinv_r; lra).
  unfold Rdiv. set (k := / (hi - lo)) in *.
  destruct (Rle_dec x lo) as [L | L]; [| destruct (Rge_dec x hi) as [G | G]].
  - assert (T : (x - lo) * k <= 0) by nra.
    rewrite Rmin_right by lra. rewrite Rmax_left by lra. ring.
  - assert (T : 1 <= (x - lo) * k) by nra.
    rewrite Rmin_left by lra. rewrite Rmax_right by lra. ring.
  - assert (T : 0 <= (x - lo) * k <= 1) by nra.
    rewrite Rmin_right by lra. rewrite Rmax_right by lra. ring.
Qed.

Lemma updateEach_length dt center :
  forall todo done h,
    length (fst (ColonyManager.updateEach dt center done todo h))
    = (length done + length todo)%nat.
Proof.
  induction todo as [| p rest IH]; intros done h; cbn [ColonyManager.updateEach].
  - cbn. lia.
  - unfold Host.bind.
    destruct (ColonyPenguin.update _ _ _ _ _ h) as [p' h'].
    rewrite IH, length_app. cbn. lia.
Qed.

Lemma update_penguins dt playerPos c h :
  ColonyManager.penguins (fst (ColonyManager.update dt playerPos c h))
  = map (ColonyPenguin.setOpacity (ColonyManager.fade (Vector3.length playerPos)))
        (fst (ColonyManager.updateEach dt (ColonyManager.colonyCenter c) []
                (ColonyManager.penguins c) h)).
Proof.
  unfold ColonyManager.update, Host.bind, Host.ret.
  destruct (ColonyManager.updateEach _ _ _ _ h). reflexivity.
Qed.

End Fader.

(** C6.  After a frame of the colony every agent carries the same opacity,
    [1 - smoothstep(d, 5, 30)] for [d] the length of the player's position,
    which is its distance to the origin of the colony, and [smoothstep] the
    clamped cubic, and is invisible exactly when that opacity is at or below
    [0.01].  The opacity is [1] at distance [5], [0] at
    distance [30] and [0.5] at distance [17.5]. *)
Theorem colony_fade :
  (forall (dt : R) (playerPos : Vector3.t) (c : ColonyManager.t) (h : Host.t),
      let c' := fst (ColonyManager.update dt playerPos c h) in
      let opacity := 1 - Spec.smoothstep (Vector3.length playerPos) 5 30 in
      Vector3.length playerPos
      = Vector3.distanceTo playerPos (ColonyManager.colonyCenter ColonyManager.init) /\
      length (ColonyManager.penguins c') = length (ColonyManager.penguins c) /\
      Forall (fun p =>
                Object3D.opacity (ColonyPenguin.mesh p) = opacity /\
                (Object3D.visible (ColonyPenguin.mesh p) = false
                 <-> opacity <= 0.01))
             (ColonyManager.penguins c')) /\
  ColonyManager.fade 5 = 1 /\
  ColonyManager.fade 30 = 0 /\
  ColonyManager.fade 17.5 = 0.5.
Proof.
  split; [| split; [| split]].
  - intros dt playerPos c h c' opacity. subst c' opacity.
    rewrite update_penguins. split; [| split].
    + unfold Vector3.length, Vector3.distanceTo.
      cbn [ColonyManager.init ColonyManager.colonyCenter Vector3.x Vector3.y Vector3.z].
      f_equal. ring.
    + rewrite length_map, updateEach_length. reflexivity.
    + apply Forall_forall. intros p Hp. apply in_map_iff in Hp.
      destruct Hp as [p0 [<- _]].
      unfold ColonyManager.fade. cbv zeta.
      rewrite smoothstep_cubic by lra.
      cbn [ColonyPenguin.setOpacity ColonyPenguin.set_mesh ColonyPenguin.mesh
           Object3D.opacity Object3D.visible].
      split; [lra |].
      destruct (Rgt_dec _ 0.01); split; intros; try discriminate; try reflexivity; lra.
  - unfold ColonyManager.fade, MathUtils.smoothstep. cbv zeta.
    destruct (Rle_dec 5 5); lra.
  - unfold ColonyManager.fade, MathUtils.smoothstep. cbv zeta.
    destruct (Rle_dec 30 5); [lra |]. destruct (Rge_dec 30 30); lra.
  - unfold ColonyManager.fade, MathUtils.smoothstep. cbv zeta.
    destruct (Rle_dec 17.5 5); [lra |]. destruct (Rge_dec 17.5 30); [lra |].
    replace ((17.5 - 5) / (30 - 5)) with 0.5 by lra. lra.
Qed.

(* ================================================================= *)
(** ** Negative time steps *)

Section Backward.
Import ColonyPenguin.

Lemma update_timer dt center self others p h :
  timer (fst (update dt center self others p h)) = timer (due dt p h).
Proof.
  rewrite update_unfold. cbv zeta. cbn [fst]. fold (due dt p h).
  match goal with
  | |- timer (place (fst (behave _ _ _ _ ?a ?b))) = _ =>
      destruct (behave_plan dt center self others a b) as ((_ & T3 & _) & _)
  end.
  exact T3.
Qed.

Lemma due_quiet dt p h :
  timer p + dt < stateDuration p -> due dt p h = set_timer p (timer p + dt).
Proof.
  intros Q. unfold due. cbv zeta.
  replace (expired (set_timer p (timer p + dt))) with false; [reflexivity |].
  symmetry. apply expired_false. exact Q.
Qed.

Lemma decay_backward dt fps :
  dt < 0 -> Forall (fun fp => 0 < Penguin.fp_opacity fp) fps ->
  Spec.decay dt fps = map (Penguin.fade dt) fps.
Proof.
  intros N F. unfold Spec.decay. f_equal.
  induction F as [| fp fps P F IH]; [reflexivity |].
  cbn [filter]. unfold Spec.survives at 1.
  destruct (Rle_dec _ 0); [nra |]. rewrite IH. reflexivity.
Qed.

End Backward.

(** C7, as the code has it.  A negative [dt] is neither refused nor clamped.
    The decay pass then removes no footprint of a trail whose opacities are
    positive and raises each opacity by [0.02 * (- dt)]; the update of an
    agent whose state does not end in this frame lowers its elapsed time by
    [- dt] and keeps the state. *)
Theorem negative_dt_runs_backward :
  forall dt : R, dt < 0 ->
    (forall fps,
        Forall (fun fp => 0 < Penguin.fp_opacity fp) fps ->
        Penguin.updateFootprints dt fps = Some (map (Penguin.fade dt) fps)) /\
    (forall fp,
        Penguin.fp_opacity (Penguin.fade dt fp)
        = Penguin.fp_opacity fp + 0.02 * (- dt) /\
        Penguin.fp_opacity fp < Penguin.fp_opacity (Penguin.fade dt fp)) /\
    (forall center self others p h,
        ColonyPenguin.timer p + dt < ColonyPenguin.stateDuration p ->
        let q := fst (ColonyPenguin.update dt center self others p h) in
        ColonyPenguin.timer q = ColonyPenguin.timer p + dt /\
        ColonyPenguin.timer q < ColonyPenguin.timer p /\
        ColonyPenguin.state q = ColonyPenguin.state p).
Proof.
  intros dt N. split; [| split].
  - intros fps F. rewrite updateFootprints_decay, decay_backward by assumption.
    reflexivity.
  - intros fp. cbn [Penguin.fade Penguin.fp_opacity]. lra.
  - intros center self others p h Q q. subst q.
    rewrite update_timer, update_state, (due_quiet _ _ _ Q).
    cbn [ColonyPenguin.set_timer ColonyPenguin.timer ColonyPenguin.state].
    repeat split; try reflexivity. lra.
Qed.

(** A step of minus one second on a footprint half faded. *)
Lemma negative_dt_runs_backward_witness :
  Penguin.fp_opacity Sample.footprint
  < Penguin.fp_opacity (Penguin.fade (- 1) Sample.footprint).
Proof.
  apply (proj2 (proj1 (proj2 (negative_dt_runs_backward (- 1) ltac:(lra)))
                      Sample.footprint)).
Defined.

(** C7, as the specification has it, fails: a step of minus one second is
    not a step of zero seconds for the trail (the footprint comes out more
    opaque than it went in), and a step of minus half a second takes half a
    second off the elapsed time of an idle agent. *)
Lemma negative_dt_not_clamped :
  Penguin.updateFootprints (- 1) [Sample.footprint]
  <> Penguin.updateFootprints 0 [Sample.footprint] /\
  (exists fp,
      Penguin.updateFootprints (- 1) [Sample.footprint] = Some [fp] /\
      Penguin.fp_opacity Sample.footprint < Penguin.fp_opacity fp) /\
  ColonyPenguin.timer
    (fst (ColonyPenguin.update (- 0.5) Sample.origin 0 [Sample.idler]
            Sample.idler (Sample.host 0)))
  < ColonyPenguin.timer Sample.idler.
Proof.
  assert (E : forall dt, - 1 <= dt <= 0 ->
            Penguin.updateFootprints dt [Sample.footprint]
            = Some [Penguin.fade dt Sample.footprint]).
  { intros dt B. rewrite updateFootprints_decay. unfold Spec.decay.
    cbn [filter]. unfold Spec.survives.
    change (Penguin.fp_opacity Sample.footprint) with 0.5.
    destruct (Rle_dec _ 0); [nra | reflexivity]. }
  split; [| split].
  - rewrite !E by lra. intros C. injection C as C. lra.
  - exists (Penguin.fade (- 1) Sample.footprint). split; [apply E; lra |].
    cbn. lra.
  - rewrite update_timer, due_quiet by (cbn; lra). cbn. lra.
Qed.

(* ================================================================= *)
(** ** Replaying a session of the colony *)

Section Replay.
Import ColonyPenguin.

(** Two agents equal up to the roll: name their fields and identify them. *)
Ltac agents H :=
  match type of H with
  | Spec.unrolled ?p = Spec.unrolled ?q =>
      destruct p as [[? ? ? ? ? ?] ? ? ? ? ? ? ? ? ? ?];
      destruct q as [[? ? ? ? ? ?] ? ? ? ? ? ? ? ? ? ?];
      unfold Spec.unrolled in H; cbn in H; injection H; intros; subst
  end.

Ltac hosts H :=
  match type of H with
  | Spec.same_draws ?h1 ?h2 =>
      destruct h1, h2; unfold Spec.same_draws in H; cbn in H;
      destruct H; subst
  end.

Lemma cons_eq_inv {A : Type} (a b : A) (l l' : list A) :
  a :: l = b :: l' -> a = b /\ l = l'.
Proof. intros H. injection H. auto. Qed.

Lemma unrolled_advance dt p q :
  Spec.unrolled p = Spec.unrolled q ->
  Spec.unrolled (set_timer p (timer p + dt))
  = Spec.unrolled (set_timer q (timer q + dt)).
Proof. intros H. agents H. reflexivity. Qed.

Lemma unrolled_expired p q :
  Spec.unrolled p = Spec.unrolled q -> expired p = expired q.
Proof. intros H. agents H. reflexivity. Qed.

Lemma unrolled_pick p q h1 h2 :
  Spec.unrolled p = Spec.unrolled q -> Spec.same_draws h1 h2 ->
  Spec.unrolled (fst (pickNewState p h1)) = Spec.unrolled (fst (pickNewState q h2)) /\
  Spec.same_draws (snd (pickNewState p h1)) (snd (pickNewState q h2)).
Proof.
  intros H D. agents H. hosts D.
  unfold pickNewState, Host.bind, Host.ret, Host.Math_random.
  cbn [Host.rand Host.rand_pos Host.clock Host.clock_pos].
  destruct (Rlt_dec _ 0.6); [| destruct (Rlt_dec _ 0.85); [| destruct (Rlt_dec _ 0.95)]];
    (split; [reflexivity | split; reflexivity]).
Qed.

Lemma unrolled_behave dt center self o1 o2 p q h1 h2 :
  (forall here facing,
      heading center self o1 here facing = heading center self o2 here facing) ->
  Spec.unrolled p = Spec.unrolled q -> Spec.same_draws h1 h2 ->
  Spec.unrolled (fst (behave dt center self o1 p h1))
  = Spec.unrolled (fst (behave dt center self o2 q h2)) /\
  Spec.same_draws (snd (behave dt center self o1 p h1))
                  (snd (behave dt center self o2 q h2)).
Proof.
  intros Hh H D. agents H. hosts D.
  unfold behave. cbn [state].
  match goal with |- context [match ?s with IDLE => _ | _ => _ end] => destruct s end.
  - split; [reflexivity | split; reflexivity].
  - unfold Host.ret, updateWalking, position. cbn -[heading].
    rewrite Hh. split; [reflexivity | split; reflexivity].
  - split; [reflexivity | split; reflexivity].
  - split; [reflexivity | split; reflexivity].
Qed.

Lemma unrolled_place p q :
  Spec.unrolled p = Spec.unrolled q ->
  Spec.unrolled (place p) = Spec.unrolled (place q).
Proof. intros H. agents H. reflexivity. Qed.

Lemma unrolled_setOpacity opacity p q :
  Spec.unrolled p = Spec.unrolled q ->
  Spec.unrolled (setOpacity opacity p) = Spec.unrolled (setOpacity opacity q).
Proof. intros H. agents H. reflexivity. Qed.

Lemma unrolled_update dt center self o1 o2 p q h1 h2 :
  (forall here facing,
      heading center self o1 here facing = heading center self o2 here facing) ->
  Spec.unrolled p = Spec.unrolled q -> Spec.same_draws h1 h2 ->
  Spec.unrolled (fst (update dt center self o1 p h1))
  = Spec.unrolled (fst (update dt center self o2 q h2)) /\
  Spec.same_draws (snd (update dt center self o1 p h1))
                  (snd (update dt center self o2 q h2)).
Proof.
  intros Hh H D. rewrite !update_unfold. cbv zeta. cbn [fst snd].
  pose proof (unrolled_advance dt _ _ H) as H1.
  rewrite (unrolled_expired _ _ H1).
  assert (S2 :
    Spec.unrolled
      (fst (if expired (set_timer q (timer q + dt))
            then pickNewState (set_timer p (timer p + dt)) h1
            else (set_timer p (timer p + dt), h1)))
    = Spec.unrolled
      (fst (if expired (set_timer q (timer q + dt))
            then pickNewState (set_timer q (timer q + dt)) h2
            else (set_timer q (timer q + dt), h2))) /\
    Spec.same_draws
      (snd (if expired (set_timer q (timer q + dt))
            then pickNewState (set_timer p (timer p + dt)) h1
            else (set_timer p (timer p + dt), h1)))
      (snd (if expired (set_timer q (timer q + dt))
            then pickNewState (set_timer q (timer q + dt)) h2
            else (set_timer q (timer q + dt), h2)))).
  { destruct (expired _); [apply unrolled_pick; assumption |].
    cbn [fst snd]. split; assumption. }
  destruct S2 as [H2 D2].
  destruct (unrolled_behave dt center self o1 o2 _ _ _ _ Hh H2 D2) as [H3 D3].
  split; [apply unrolled_place, H3 | exact D3].
Qed.

(** The steering reads the positions of the other penguins, nothing else
    of them. *)
Lemma avoid_positions self here :
  forall o1 o2 k acc,
    map position o1 = map position o2 ->
    fold_left (avoid self here) (combine (seq k (length o1)) o1) acc
    = fold_left (avoid self here) (combine (seq k (length o2)) o2) acc.
Proof.
  induction o1 as [| a o1 IH]; intros [| b o2] k acc E; try discriminate.
  - reflexivity.
  - cbn [map] in E. apply cons_eq_inv in E. destruct E as [Eab E].
    cbn [length seq combine fold_left].
    rewrite (IH o2 (S k) _ E). f_equal.
    unfold avoid, position in *. rewrite Eab. reflexivity.
Qed.

Lemma heading_positions center self o1 o2 :
  map position o1 = map position o2 ->
  forall here facing,
    heading center self o1 here facing = heading center self o2 here facing.
Proof.
  intros E here facing. unfold heading, indexed. cbv zeta.
  rewrite (avoid_positions self here o1 o2 0%nat Vector3.zero E). reflexivity.
Qed.

Lemma unrolled_positions l1 l2 :
  map Spec.unrolled l1 = map Spec.unrolled l2 ->
  map position l1 = map position l2.
Proof.
  intros E.
  assert (P : forall l, map position l = map position (map Spec.unrolled l)).
  { intros l. rewrite map_map. apply map_ext. intros a. reflexivity. }
  rewrite (P l1), (P l2), E. reflexivity.
Qed.

Lemma unrolled_updateEach dt center :
  forall todo1 todo2 done1 done2 h1 h2,
    map Spec.unrolled done1 = map Spec.unrolled done2 ->
    map Spec.unrolled todo1 = map Spec.unrolled todo2 ->
    Spec.same_draws h1 h2 ->
    map Spec.unrolled (fst (ColonyManager.updateEach dt center done1 todo1 h1))
    = map Spec.unrolled (fst (ColonyManager.updateEach dt center done2 todo2 h2)) /\
    Spec.same_draws (snd (ColonyManager.updateEach dt center done1 todo1 h1))
                    (snd (ColonyManager.updateEach dt center done2 todo2 h2)).
Proof.
  induction todo1 as [| p rest1 IH]; intros [| q rest2] done1 done2 h1 h2 Ed Et D;
    try discriminate.
  - cbn. split; assumption.
  - cbn [map] in Et. apply cons_eq_inv in Et. destruct Et as [Epq Et].
    cbn [ColonyManager.updateEach]. unfold Host.bind.
    assert (L : length done1 = length done2).
    { rewrite <- (length_map Spec.unrolled done1), Ed. apply length_map. }
    assert (Eo : map position (done1 ++ p :: rest1)
                 = map position (done2 ++ q :: rest2)).
    { apply unrolled_positions. rewrite !map_app. cbn [map].
      rewrite Ed, Epq, Et. reflexivity. }
    rewrite L.
    destruct (unrolled_update dt center (length done2) _ _ p q h1 h2
                (heading_positions center (length done2) _ _ Eo) Epq D)
      as [Hu Du].
    destruct (update dt center (length done2) (done1 ++ p :: rest1) p h1)
      as [p' h1'].
    destruct (update dt center (length done2) (done2 ++ q :: rest2) q h2)
      as [q' h2'].
    cbn [fst snd] in Hu, Du.
    apply IH; [| exact Et | exact Du].
    rewrite !map_app. cbn [map]. rewrite Ed, Hu. reflexivity.
Qed.

Lemma unrolled_map_setOpacity opacity ps :
  map Spec.unrolled (map (setOpacity opacity) ps)
  = map (fun p => Spec.unrolled (setOpacity opacity p)) (map Spec.unrolled ps).
Proof.
  rewrite !map_map. apply map_ext. intros p.
  apply unrolled_setOpacity. destruct p as [[? ? ? ? ? ?] ? ? ? ? ? ? ? ? ? ?].
  reflexivity.
Qed.

Lemma unrolled_manager_update dt playerPos c1 c2 h1 h2 :
  ColonyManager.colonyCenter c1 = ColonyManager.colonyCenter c2 ->
  map Spec.unrolled (ColonyManager.penguins c1)
  = map Spec.unrolled (ColonyManager.penguins c2) ->
  Spec.same_draws h1 h2 ->
  let r1 := ColonyManager.update dt playerPos c1 h1 in
  let r2 := ColonyManager.update dt playerPos c2 h2 in
  ColonyManager.colonyCenter (fst r1) = ColonyManager.colonyCenter (fst r2) /\
  map Spec.unrolled (ColonyManager.penguins (fst r1))
  = map Spec.unrolled (ColonyManager.penguins (fst r2)) /\
  Spec.same_draws (snd r1) (snd r2).
Proof.
  intros Ec Ep D. cbv zeta.
  destruct (unrolled_updateEach dt (ColonyManager.colonyCenter c2)
              (ColonyManager.penguins c1) (ColonyManager.penguins c2)
              [] [] h1 h2 eq_refl Ep D) as [Hu Du].
  unfold ColonyManager.update, Host.bind, Host.ret. rewrite Ec.
  destruct (ColonyManager.updateEach _ _ _ (ColonyManager.penguins c1) h1) as [ps1 h1'].
  destruct (ColonyManager.updateEach _ _ _ (ColonyManager.penguins c2) h2) as [ps2 h2'].
  cbn [fst snd ColonyManager.penguins ColonyManager.colonyCenter] in *.
  split; [reflexivity |]. split; [| exact Du].
  rewrite !unrolled_map_setOpacity.
  rewrite Hu. reflexivity.
Qed.

End Replay.

Section Sessions.
Import ColonyPenguin.

Lemma unrolled_make model startPos h1 h2 :
  Spec.same_draws h1 h2 ->
  Spec.unrolled (fst (make model startPos h1))
  = Spec.unrolled (fst (make model startPos h2)) /\
  Spec.same_draws (snd (make model startPos h1)) (snd (make model startPos h2)).
Proof.
  intros D. destruct h1, h2. destruct D as [D1 D2]. cbn in D1, D2. subst.
  unfold make, Host.bind, Host.Math_random.
  cbn [Host.rand Host.rand_pos Host.clock Host.clock_pos].
  apply unrolled_pick; [reflexivity | split; reflexivity].
Qed.

Lemma spawn_S model n ps h :
  ColonyManager.spawn model (S n) ps h
  = let a := Host.rand h (Host.rand_pos h) in
    let b := Host.rand h (S (Host.rand_pos h)) in
    let angle := a * PI * 2 in
    let radius := 2 + b * 4 in
    let pos := Vector3.mk (cos angle * radius) 0 (sin angle * radius) in
    let ph := make model pos
                (Host.mk (Host.rand h) (S (S (Host.rand_pos h)))
                         (Host.clock h) (Host.clock_pos h)) in
    ColonyManager.spawn model n (ps ++ [fst ph]) (snd ph).
Proof.
  cbn [ColonyManager.spawn]. unfold Host.bind, Host.Math_random.
  cbn [Host.rand Host.rand_pos Host.clock Host.clock_pos]. cbv zeta.
  destruct (make _ _ _). reflexivity.
Qed.

Lemma loaded_unfold model c h :
  ColonyManager.loaded model c h
  = let r := Host.rand h (Host.rand_pos h) in
    let count := Z.to_nat (15 + JS.Math_floor (r * 10)) in
    let ph := ColonyManager.spawn model count (ColonyManager.penguins c)
                (Host.mk (Host.rand h) (S (Host.rand_pos h))
                         (Host.clock h) (Host.clock_pos h)) in
    (ColonyManager.mk (fst ph) (ColonyManager.colonyCenter c), snd ph).
Proof.
  unfold ColonyManager.loaded, Host.bind, Host.Math_random, Host.ret.
  cbv zeta. destruct (ColonyManager.spawn _ _ _ _). reflexivity.
Qed.

Lemma unrolled_spawn model :
  forall n ps1 ps2 h1 h2,
    map Spec.unrolled ps1 = map Spec.unrolled ps2 ->
    Spec.same_draws h1 h2 ->
    map Spec.unrolled (fst (ColonyManager.spawn model n ps1 h1))
    = map Spec.unrolled (fst (ColonyManager.spawn model n ps2 h2)) /\
    Spec.same_draws (snd (ColonyManager.spawn model n ps1 h1))
                    (snd (ColonyManager.spawn model n ps2 h2)).
Proof.
  induction n as [| n IH]; intros ps1 ps2 h1 h2 E D.
  - cbn. split; assumption.
  - rewrite !spawn_S. cbv zeta. destruct D as [D1 D2]. rewrite D1, D2.
    match goal with
    | |- context [make model ?pos (Host.mk ?r ?m (Host.clock h1) ?k)] =>
        destruct (unrolled_make model pos (Host.mk r m (Host.clock h1) k)
                    (Host.mk r m (Host.clock h2) (Host.clock_pos h2)))
          as [Hm Dm]; [split; reflexivity |]
    end.
    apply IH; [| exact Dm].
    rewrite !map_app. cbn [map]. rewrite E, Hm. reflexivity.
Qed.

Lemma replayed_step e c1 c2 h1 h2 :
  replayed c1 c2 -> Spec.same_draws h1 h2 ->
  replayed (fst (ColonyManager.step e c1 h1)) (fst (ColonyManager.step e c2 h2)) /\
  Spec.same_draws (snd (ColonyManager.step e c1 h1))
                  (snd (ColonyManager.step e c2 h2)).
Proof.
  intros [Ec Ep] D. destruct e as [model | dt playerPos]; cbn [ColonyManager.step].
  - rewrite !loaded_unfold. cbv zeta. cbn [fst snd].
    destruct D as [D1 D2]. rewrite D1, D2.
    match goal with
    | |- context [ColonyManager.spawn model ?n _ (Host.mk ?r ?m (Host.clock h1) ?k)] =>
        destruct (unrolled_spawn model n (ColonyManager.penguins c1)
                    (ColonyManager.penguins c2)
                    (Host.mk r m (Host.clock h1) k)
                    (Host.mk r m (Host.clock h2) (Host.clock_pos h2)) Ep)
          as [Hs Ds]; [split; reflexivity |]
    end.
    split; [split; assumption | exact Ds].
  - destruct (unrolled_manager_update dt playerPos c1 c2 h1 h2 Ec Ep D)
      as (A & B & C).
    split; [split; assumption | exact C].
Qed.

Lemma replayed_run :
  forall es c1 c2 h1 h2,
    replayed c1 c2 -> Spec.same_draws h1 h2 ->
    replayed (fst (ColonyManager.run es c1 h1)) (fst (ColonyManager.run es c2 h2)).
Proof.
  induction es as [| e es IH]; intros c1 c2 h1 h2 R D; cbn [ColonyManager.run].
  - exact R.
  - unfold Host.bind.
    destruct (replayed_step e c1 c2 h1 h2 R D) as [R' D'].
    destruct (ColonyManager.step e c1 h1) as [c1' h1'].
    destruct (ColonyManager.step e c2 h2) as [c2' h2'].
    apply IH; assumption.
Qed.

Lemma unrolled_map {A : Type} (f : t -> A) l1 l2 :
  (forall p, f (Spec.unrolled p) = f p) ->
  map Spec.unrolled l1 = map Spec.unrolled l2 -> map f l1 = map f l2.
Proof.
  intros F E.
  assert (P : forall l, map f l = map f (map Spec.unrolled l)).
  { intros l. rewrite map_map. apply map_ext. intros a. symmetry. apply F. }
  rewrite (P l1), (P l2), E. reflexivity.
Qed.

(** The idler of the samples, after a frame of half a second read at
    [now]. *)
Lemma sample_idle_roll now :
  Object3D.rotation_z
    (mesh (fst (update 0.5 Sample.origin 0 [Sample.idler] Sample.idler
                       (Sample.host now))))
  = sin (now * 0.001) * 0.02.
Proof.
  rewrite update_unfold. cbv zeta.
  replace (expired (set_timer Sample.idler (timer Sample.idler + 0.5))) with false
    by (symmetry; apply expired_false; cbn; lra).
  cbn [fst snd]. unfold behave. cbn [state set_timer Sample.idler Sample.agent].
  unfold updateIdle, Host.bind, Host.Date_now, Host.ret, MathUtils.lerp.
  cbn. lra.
Qed.

Lemma run_one e c h :
  fst (ColonyManager.run [e] c h) = fst (ColonyManager.step e c h).
Proof.
  cbn [ColonyManager.run]. unfold Host.bind, Host.ret.
  destruct (ColonyManager.step e c h). reflexivity.
Qed.

Lemma updateEach_one dt center p h :
  fst (ColonyManager.updateEach dt center [] [p] h)
  = [fst (update dt center 0 [p] p h)].
Proof.
  cbn [ColonyManager.updateEach app length]. unfold Host.bind, Host.ret.
  destruct (update dt center 0 [p] p h). reflexivity.
Qed.

End Sessions.

(** C9, as the code has it.  Two runs of the same session of the colony
    (the arrival of the model, then frames with their [dt] and player
    positions), from the same colony and with the same random draws, end with
    agents that are equal in everything but the roll of the body
    ([mesh.rotation.z]), whatever the two clocks read: same positions, same
    facing, same pitch, same states and timers. *)
Theorem colony_replay :
  forall (es : list ColonyManager.event) (c : ColonyManager.t)
         (rand : nat -> R) (pos : nat)
         (clock1 clock2 : nat -> R) (k1 k2 : nat),
    let c1 := fst (ColonyManager.run es c (Host.mk rand pos clock1 k1)) in
    let c2 := fst (ColonyManager.run es c (Host.mk rand pos clock2 k2)) in
    map Spec.unrolled (ColonyManager.penguins c1)
    = map Spec.unrolled (ColonyManager.penguins c2) /\
    map ColonyPenguin.position (ColonyManager.penguins c1)
    = map ColonyPenguin.position (ColonyManager.penguins c2) /\
    map (fun p => Object3D.rotation_y (ColonyPenguin.mesh p))
        (ColonyManager.penguins c1)
    = map (fun p => Object3D.rotation_y (ColonyPenguin.mesh p))
          (ColonyManager.penguins c2) /\
    map (fun p => Object3D.rotation_x (ColonyPenguin.mesh p))
        (ColonyManager.penguins c1)
    = map (fun p => Object3D.rotation_x (ColonyPenguin.mesh p))
          (ColonyManager.penguins c2) /\
    map ColonyPenguin.state (ColonyManager.penguins c1)
    = map ColonyPenguin.state (ColonyManager.penguins c2) /\
    map ColonyPenguin.timer (ColonyManager.penguins c1)
    = map ColonyPenguin.timer (ColonyManager.penguins c2).
Proof.
  intros es c rand pos clock1 clock2 k1 k2 c1 c2. subst c1 c2.
  destruct (replayed_run es c c (Host.mk rand pos clock1 k1)
              (Host.mk rand pos clock2 k2)) as [_ E];
    [split; reflexivity | split; reflexivity |].
  split; [exact E |].
  repeat split; apply unrolled_map; try exact E; intros p; reflexivity.
Qed.

(** C9, as the specification has it, fails on the rotations: the same frame
    of half a second on the same idle agent, with the same draws, leaves a
    different roll when the clock reads 1000 ms than when it reads 0. *)
Lemma colony_roll_reads_clock :
  let session := [ColonyManager.Frame 0.5 Sample.origin] in
  let c1 := fst (ColonyManager.run session (Sample.colony Sample.idler)
                   (Sample.host 0)) in
  let c2 := fst (ColonyManager.run session (Sample.colony Sample.idler)
                   (Sample.host 1000)) in
  Spec.same_draws (Sample.host 0) (Sample.host 1000) /\
  map (fun p => Object3D.rotation_z (ColonyPenguin.mesh p))
      (ColonyManager.penguins c1)
  <> map (fun p => Object3D.rotation_z (ColonyPenguin.mesh p))
         (ColonyManager.penguins c2).
Proof.
  cbv zeta. split; [split; reflexivity |].
  rewrite !run_one. cbn [ColonyManager.step].
  rewrite !update_penguins.
  cbn [Sample.colony ColonyManager.penguins ColonyManager.colonyCenter].
  rewrite !updateEach_one. cbn [map].
  change (Object3D.rotation_z (ColonyPenguin.mesh (ColonyPenguin.setOpacity ?o ?p)))
    with (Object3D.rotation_z (ColonyPenguin.mesh p)).
  rewrite !sample_idle_roll. intros C. injection C as C.
  replace (0 * 0.001) with 0 in C by ring. rewrite sin_0 in C.
  assert (S : 0 < sin (1000 * 0.001)).
  { pose proof PI2_1. apply sin_gt_0; lra. }
  lra.
Qed.

(* ================================================================= *)
(** ** Mountains *)

Section Mountains.
Import Environment.

(** The loop has written the vertices [pre]; it goes on through [post]. *)
Lemma deform_from_map scale heightScale seed :
  forall post pre,
    deform_from scale heightScale seed (length pre) (length post) (pre ++ post)
    = pre ++ map (deformVertex scale heightScale seed) post.
Proof.
  induction post as [| v post IH]; intros pre.
  - reflexivity.
  - cbn [length deform_from].
    rewrite nth_error_app2 by lia. rewrite Nat.sub_diag. cbn [nth_error].
    unfold store.
    rewrite firstn_app, Nat.sub_diag, firstn_all, firstn_O, app_nil_r.
    replace (skipn (S (length pre)) (pre ++ v :: post)) with post.
    2:{ rewrite skipn_app, skipn_all2 by lia.
        replace (S (length pre) - length pre)%nat with 1%nat by lia.
        reflexivity. }
    replace (S (length pre)) with (length (pre ++ [deformVertex scale heightScale seed v]))
      by (rewrite length_app; cbn; lia).
    change (pre ++ setZ v (deformed scale heightScale seed (Vector3.x v) (Vector3.y v)) :: post)
      with (pre ++ [deformVertex scale heightScale seed v] ++ post).
    rewrite app_assoc, IH, <- app_assoc. reflexivity.
Qed.

Lemma createPeaks_pure :
  forall l h1 h2,
    fst (createPeaks l h1) = fst (createPeaks l h2) /\ snd (createPeaks l h1) = h1.
Proof.
  induction l as [| [[[[offsetX offsetZ] scale] heightScale] seed] l IH];
    intros h1 h2.
  - split; reflexivity.
  - cbn [createPeaks]. unfold Host.bind, createMountainMesh, Host.ret.
    destruct (IH h1 h2) as [E1 E2].
    destruct (createPeaks l h1) as [ms1 h1'], (createPeaks l h2) as [ms2 h2'].
    cbn [fst snd] in *. subst. split; reflexivity.
Qed.

End Mountains.

(** C10.  [createMountainMesh] draws no random number and reads no clock:
    it leaves the host as it is, and two generations with the same
    parameters give the same mesh, in particular the same elevations,
    whatever the hosts.  The elevation of a vertex is a function of [scale],
    [heightScale], [seed] and the coordinates of that vertex in the lattice
    of the plane.  The same holds of the whole range of [createMountain]. *)
Theorem mountain_deterministic :
  forall (offsetX offsetZ scale heightScale seed : R) (h1 h2 : Host.t),
    let m1 := fst (Environment.createMountainMesh offsetX offsetZ scale
                     heightScale seed h1) in
    let m2 := fst (Environment.createMountainMesh offsetX offsetZ scale
                     heightScale seed h2) in
    let segs := Z.to_nat (JS.Math_floor (256 * Rmax 0.75 scale)) in
    Environment.elevations m1 = Environment.elevations m2 /\
    m1 = m2 /\
    snd (Environment.createMountainMesh offsetX offsetZ scale heightScale seed h1)
    = h1 /\
    Environment.elevations m1
    = map (fun v => Environment.deformed scale heightScale seed
                      (Vector3.x v) (Vector3.y v))
          (Environment.PlaneGeometry (10000 * scale) (10000 * scale) segs segs) /\
    fst (Environment.createMountain h1) = fst (Environment.createMountain h2) /\
    snd (Environment.createMountain h1) = h1.
Proof.
  intros. subst m1 m2 segs.
  unfold Environment.createMountainMesh, Host.ret. cbv zeta. cbn [fst snd].
  split; [reflexivity |]. split; [reflexivity |]. split; [reflexivity |].
  split; [| exact (createPeaks_pure Environment.peaks h1 h2)].
  unfold Environment.elevations. cbn [Environment.vertices].
  set (pos := Environment.PlaneGeometry _ _ _ _).
  pose proof (deform_from_map scale heightScale seed pos []) as H.
  cbn [length app] in H. rewrite H.
  rewrite map_map. apply map_ext. intros v. reflexivity.
Qed.

(* ================================================================= *)
(** ** The player: more on the trail and on the frames *)

Section TrailInvariant.
Import Penguin.

(** What a frame does to the trail: a decay pass, then at most one spawn. *)
Lemma update_trail dt moving speedMultiplier p q :
  update dt moving speedMultiplier p = Some q ->
  (footprints q = Spec.decay dt (footprints p) /\ allocated q = allocated p) \/
  (exists pos p',
      footprints p' = Spec.decay dt (footprints p) /\
      allocated p' = allocated p /\
      footprints q = footprints (spawnFootprint pos (isLeftStep p) p') /\
      allocated q = allocated (spawnFootprint pos (isLeftStep p) p')).
Proof.
  unfold update. rewrite updateFootprints_decay. intros E.
  destruct (negb (body _)); [injection E as <-; left; split; reflexivity |].
  destruct (negb moving); [injection E as <-; left; split; reflexivity |].
  destruct (Rgt_dec _ _); injection E as <-.
  - right. eexists. eexists. cbn [footprints allocated isLeftStep set_footprints].
    split; [| split; [| split]]; [| | reflexivity | reflexivity]; reflexivity.
  - left. split; reflexivity.
Qed.

Variable D : R -> Prop.
Variable P : list Footprint -> nat -> Prop.
Hypothesis P_decay :
  forall dt fps n, D dt -> P fps n -> P (Spec.decay dt fps) n.
Hypothesis P_spawn :
  forall pos l p,
    P (footprints p) (allocated p) ->
    P (footprints (spawnFootprint pos l p)) (allocated (spawnFootprint pos l p)).

Lemma step_invariant e p q :
  timed D e -> step e p = Some q ->
  P (footprints p) (allocated p) -> P (footprints q) (allocated q).
Proof.
  destruct e; cbn [step timed]; intros T E H.
  - injection E as <-. exact H.
  - injection E as <-. exact H.
  - injection E as <-. apply P_spawn, H.
  - rewrite updateFootprints_decay in E. injection E as <-.
    cbn [set_footprints footprints allocated]. apply P_decay; assumption.
  - destruct (update_trail _ _ _ _ _ E) as [[Ef Ea] | (pos & p' & Ef & Ea & Eq & En)].
    + rewrite Ef, Ea. apply P_decay; assumption.
    + rewrite Eq, En. apply P_spawn. rewrite Ef, Ea. apply P_decay; assumption.
Qed.

Lemma run_invariant es :
  forall p, Forall (timed D) es -> P (footprints p) (allocated p) ->
    exists q, run es p = Some q /\ P (footprints q) (allocated q).
Proof.
  induction es as [| e es IH]; intros p T H; cbn [run].
  - exists p. split; [reflexivity | exact H].
  - inversion T as [| ? ? Te Ts]; subst.
    destruct (step_total e p) as [q E]. rewrite E.
    apply IH; [exact Ts |]. eapply step_invariant; eassumption.
Qed.

End TrailInvariant.

Section TrailOrder.
Import Penguin.

Lemma sorted_snoc l n :
  StronglySorted lt l -> Forall (fun i => (i < n)%nat) l ->
  StronglySorted lt (l ++ [n]).
Proof.
  induction l as [| a l IH]; intros S F; cbn [app].
  - constructor; constructor.
  - inversion S as [| ? ? S' Fa]; subst. inversion F as [| ? ? Ha F']; subst.
    constructor; [apply IH; assumption |].
    apply Forall_app. split; [exact Fa | constructor; [exact Ha | constructor]].
Qed.

Lemma sorted_tl l : StronglySorted lt l -> StronglySorted lt (tl l).
Proof.
  intros S. destruct l; [exact S |]. inversion S; assumption.
Qed.

Lemma Forall_tl {A : Type} (Q : A -> Prop) l : Forall Q l -> Forall Q (tl l).
Proof. intros F. destruct l; [exact F |]. inversion F; assumption. Qed.

Lemma sorted_NoDup l : StronglySorted lt l -> NoDup l.
Proof.
  induction 1 as [| a l S IH F]; constructor; [| exact IH].
  intros I. rewrite Forall_forall in F. specialize (F a I). lia.
Qed.

Lemma sorted_decay dt fps :
  StronglySorted lt (map fp_id fps) ->
  StronglySorted lt (map fp_id (Spec.decay dt fps)).
Proof.
  induction fps as [| fp fps IH]; intros S.
  - exact S.
  - cbn [map] in S. inversion S as [| ? ? S' F]; subst.
    unfold Spec.decay in *. cbn [filter].
    destruct (Spec.survives dt fp); [| apply IH, S'].
    cbn [map fade fp_id]. constructor; [apply IH, S' |].
    apply Forall_forall. intros i Hi.
    rewrite Forall_forall in F. apply F.
    apply (decay_ids dt). exact Hi.
Qed.

Lemma ordered_decay dt fps n : True -> ordered fps n -> ordered (Spec.decay dt fps) n.
Proof.
  intros _ [S F]. split; [apply sorted_decay, S |].
  apply Forall_forall. intros i Hi. rewrite Forall_forall in F.
  apply F, (decay_ids dt), Hi.
Qed.

Lemma ordered_spawn pos l p :
  ordered (footprints p) (allocated p) ->
  ordered (footprints (spawnFootprint pos l p)) (allocated (spawnFootprint pos l p)).
Proof.
  intros [Hs F]. unfold spawnFootprint.
  destruct (negb (footprintTexture p) || negb (footprintNormal p));
    [split; assumption |].
  cbn [footprints allocated].
  assert (S1 : StronglySorted lt
                 (map fp_id (footprints p ++ [newFootprint (allocated p) pos l]))).
  { rewrite map_app. cbn [map newFootprint fp_id]. apply sorted_snoc; assumption. }
  assert (F1 : Forall (fun i => (i < S (allocated p))%nat)
                 (map fp_id (footprints p ++ [newFootprint (allocated p) pos l]))).
  { rewrite map_app. cbn [map newFootprint fp_id]. apply Forall_app. split.
    - eapply Forall_impl; [| exact F]. cbn. intros; lia.
    - constructor; [lia | constructor]. }
  destruct (_ <? _)%nat; [| split; assumption].
  assert (T : forall fps, map fp_id (tl fps) = tl (map fp_id fps))
    by (intros [| ? ?]; reflexivity).
  unfold ordered. rewrite T. split; [apply sorted_tl, S1 | apply Forall_tl, F1].
Qed.

Lemma timed_always es : Forall (timed (fun _ => True)) es.
Proof.
  apply Forall_forall. intros e _. destruct e; exact I.
Qed.

End TrailOrder.

(** X1.  In every state that the player reaches from its construction, the
    footprints of the trail are in the order in which they were created:
    their stamps increase strictly along the trail and are below the count of
    the footprints created so far.  No footprint is twice in the trail, and
    the one at index 0, which a full trail gives up, is the oldest. *)
Theorem trail_in_spawn_order :
  forall es : list Penguin.event,
    exists p,
      Penguin.run es Penguin.init = Some p /\
      StronglySorted lt (ids p) /\
      Forall (fun i => (i < Penguin.allocated p)%nat) (ids p) /\
      NoDup (ids p).
Proof.
  intros es.
  destruct (run_invariant (fun _ => True) ordered ordered_decay ordered_spawn es
              Penguin.init (timed_always es)) as (p & E & S & F).
  - split; cbn; constructor.
  - exists p. split; [exact E |]. split; [exact S |]. split; [exact F |].
    apply sorted_NoDup, S.
Qed.

Section TrailOpacity.
Import Penguin.

Lemma lit_decay dt fps n : 0 <= dt -> lit fps n -> lit (Spec.decay dt fps) n.
Proof.
  intros N F. apply Forall_forall. intros fp H.
  destruct (decay_members _ _ _ H) as (fp0 & H0 & E & S).
  unfold lit in F. rewrite Forall_forall in F. specialize (F fp0 H0).
  subst fp. cbn [fade fp_opacity]. unfold Spec.survives in S.
  destruct (Rle_dec _ 0) in S; [discriminate |]. lra.
Qed.

Lemma lit_up_decay dt fps n : True -> lit_up fps n -> lit_up (Spec.decay dt fps) n.
Proof.
  intros _ F. apply Forall_forall. intros fp H.
  destruct (decay_members _ _ _ H) as (fp0 & H0 & E & S).
  subst fp. cbn [fade fp_opacity]. unfold Spec.survives in S.
  destruct (Rle_dec _ 0) in S; [discriminate |]. lra.
Qed.

Lemma spawn_members pos l p fp :
  In fp (footprints (spawnFootprint pos l p)) ->
  In fp (footprints p) \/ fp = newFootprint (allocated p) pos l.
Proof.
  unfold spawnFootprint.
  destruct (negb (footprintTexture p) || negb (footprintNormal p)); [auto |].
  cbn [footprints]. intros H.
  assert (H' : In fp (footprints p ++ [newFootprint (allocated p) pos l])).
  { destruct (_ <? _)%nat; [apply In_tl, H | exact H]. }
  apply in_app_iff in H'. destruct H' as [H' | [H' | []]]; auto.
Qed.

Lemma lit_spawn pos l p :
  lit (footprints p) (allocated p) ->
  lit (footprints (spawnFootprint pos l p)) (allocated (spawnFootprint pos l p)).
Proof.
  intros F. apply Forall_forall. intros fp H.
  destruct (spawn_members _ _ _ _ H) as [H0 | ->].
  - unfold lit in F. rewrite Forall_forall in F. apply F, H0.
  - cbn. lra.
Qed.

Lemma lit_up_spawn pos l p :
  lit_up (footprints p) (allocated p) ->
  lit_up (footprints (spawnFootprint pos l p)) (allocated (spawnFootprint pos l p)).
Proof.
  intros F. apply Forall_forall. intros fp H.
  destruct (spawn_members _ _ _ _ H) as [H0 | ->].
  - unfold lit_up in F. rewrite Forall_forall in F. apply F, H0.
  - cbn. lra.
Qed.

End TrailOpacity.

(** X2.  The opacity of every footprint of the trail is positive, whatever
    the time steps; when no time step is negative it is at most [1], the
    opacity a footprint is created with. *)
Theorem trail_opacity_range :
  (forall es : list Penguin.event,
      exists p,
        Penguin.run es Penguin.init = Some p /\
        Forall (fun fp => 0 < Penguin.fp_opacity fp) (Penguin.footprints p)) /\
  (forall es : list Penguin.event,
      Forall forward_time es ->
      exists p,
        Penguin.run es Penguin.init = Some p /\
        Forall (fun fp => 0 < Penguin.fp_opacity fp <= 1) (Penguin.footprints p)).
Proof.
  split.
  - intros es.
    apply (run_invariant (fun _ => True) lit_up lit_up_decay lit_up_spawn es
             Penguin.init (timed_always es)).
    constructor.
  - intros es T.
    apply (run_invariant (fun dt => 0 <= dt) lit lit_decay lit_spawn es
             Penguin.init T).
    constructor.
Qed.

(** The image arrives, a left foot comes down, a second goes by. *)
Lemma trail_opacity_range_witness :
  exists p,
    Penguin.run [Penguin.ImageLoaded; Penguin.Spawn Sample.origin true;
                 Penguin.Decay 1] Penguin.init = Some p /\
    Forall (fun fp => 0 < Penguin.fp_opacity fp <= 1) (Penguin.footprints p).
Proof.
  apply (proj2 trail_opacity_range).
  repeat constructor. cbn. lra.
Defined.

Section TrailTime.
Import Penguin.








End TrailTime.





Section Stride.
Import Penguin.



Lemma spawn_fields pos l p :
  position (spawnFootprint pos l p) = position p /\
  rotation_y (spawnFootprint pos l p) = rotation_y p /\
  rotation_z (spawnFootprint pos l p) = rotation_z p /\
  walkTime (spawnFootprint pos l p) = walkTime p /\
  lastStepTime (spawnFootprint pos l p) = lastStepTime p /\
  isLeftStep (spawnFootprint pos l p) = isLeftStep p.
Proof.
  unfold spawnFootprint.
  destruct (negb (footprintTexture p) || negb (footprintNormal p));
    repeat split; reflexivity.
Qed.


End Stride.


Section Motion.
Import Penguin.

Lemma abs_cos_bound a : 0 <= Rabs (cos a) <= 1.
Proof.
  split; [apply Rabs_pos |]. apply Rabs_le. pose proof (COS_bound a). lra.
Qed.

End Motion.

(** X6.  A frame of a player whose model is loaded and that is moving
    returns; it advances the player along [z] by [moveSpeed] times the
    multiplier times [dt] and leaves [x] alone; the height is a bob between
    [0] and [0.05], the roll stays within [0.1] and the yaw within [0.05]; the
    waddle time advances by [dt * waddleSpeed] times the multiplier.  A frame
    of a player that is not moving returns and leaves the position, the
    waddle time and the foot as they are. *)
Theorem player_motion :
  (forall (dt : R) (speedMultiplier : option R) (p : Penguin.t),
      Penguin.body p = true ->
      exists q,
        Penguin.update dt true speedMultiplier p = Some q /\
        Vector3.x (Penguin.position q) = Vector3.x (Penguin.position p) /\
        Vector3.z (Penguin.position q)
        = Vector3.z (Penguin.position p)
          + Penguin.moveSpeed * multiplier speedMultiplier * dt /\
        0 <= Vector3.y (Penguin.position q) <= 0.05 /\
        - 0.1 <= Penguin.rotation_z q <= 0.1 /\
        - 0.05 <= Penguin.rotation_y q <= 0.05 /\
        Penguin.walkTime q
        = Penguin.walkTime p
          + dt * (Penguin.waddleSpeed * multiplier speedMultiplier)) /\
  (forall (dt : R) (speedMultiplier : option R) (p : Penguin.t),
      exists q,
        Penguin.update dt false speedMultiplier p = Some q /\
        Penguin.position q = Penguin.position p /\
        Penguin.walkTime q = Penguin.walkTime p /\
        Penguin.isLeftStep q = Penguin.isLeftStep p /\
        Penguin.allocated q = Penguin.allocated p).
Proof.
  split.
  - intros dt speedMultiplier p B.
    unfold Penguin.update. rewrite updateFootprints_decay.
    cbn [Penguin.set_footprints Penguin.body]. rewrite B. cbn [negb]. cbv zeta.
    fold (multiplier speedMultiplier).
    set (w := Penguin.walkTime _ + dt * _).
    pose proof (abs_cos_bound w) as Hc. pose proof (SIN_bound w) as Hs.
    destruct (Rgt_dec _ PI) as [G | G].
    + match goal with
      | |- context [Penguin.spawnFootprint ?pos ?l ?p'] =>
          set (pos0 := pos) in *; set (p0 := p') in *
      end.
      eexists. split; [reflexivity |].
      destruct (spawn_fields pos0 (Penguin.isLeftStep p0) p0)
        as (P & Ry & Rz & W & _).
      cbn [Penguin.position Penguin.rotation_y Penguin.rotation_z Penguin.walkTime].
      rewrite P, Ry, Rz, W. subst p0.
      cbn [Penguin.position Penguin.rotation_y Penguin.rotation_z Penguin.walkTime
           Vector3.x Vector3.y Vector3.z].
      repeat split; try reflexivity; lra.
    + eexists. split; [reflexivity |].
      cbn [Penguin.position Penguin.rotation_y Penguin.rotation_z Penguin.walkTime
           Vector3.x Vector3.y Vector3.z].
      repeat split; try reflexivity; lra.
  - intros dt speedMultiplier p.
    unfold Penguin.update. rewrite updateFootprints_decay.
    cbn [Penguin.set_footprints Penguin.body].
    destruct (Penguin.body p); cbn [negb]; eexists;
      (split; [reflexivity | repeat split; reflexivity]).
Qed.

(** The player of the samples has its model. *)
Lemma player_motion_witness :
  exists q,
    Penguin.update 0.1 true None Sample.full_trail = Some q /\
    Vector3.x (Penguin.position q)
    = Vector3.x (Penguin.position Sample.full_trail) /\
    Vector3.z (Penguin.position q)
    = Vector3.z (Penguin.position Sample.full_trail)
      + Penguin.moveSpeed * multiplier None * 0.1 /\
    0 <= Vector3.y (Penguin.position q) <= 0.05 /\
    - 0.1 <= Penguin.rotation_z q <= 0.1 /\
    - 0.05 <= Penguin.rotation_y q <= 0.05 /\
    Penguin.walkTime q
    = Penguin.walkTime Sample.full_trail
      + 0.1 * (Penguin.waddleSpeed * multiplier None).
Proof.
  apply (proj1 player_motion 0.1 None Sample.full_trail). reflexivity.
Defined.

(** X7.  The footprint texture, pixel by pixel, for a red channel [r]
    between 0 and 255.  The alpha assigned is between 0 and 255: it is 255 up
    to [r = 200], then falls in a straight line, without a jump, to reach 0
    at [r = 255] and only there.  The colour assigned is between 100 and
    255: it rises in a straight line from 100 at [r = 0] to 255 at
    [r = 200] and stays there. *)
Theorem footprint_pixel :
  forall r : R, 0 <= r <= 255 ->
    let col := fst (Penguin.footprintPixel r) in
    let alpha := snd (Penguin.footprintPixel r) in
    0 <= alpha <= 255 /\
    (r <= 200 -> alpha = 255) /\
    (200 <= r -> alpha = 255 - (r - 200) * (255 / 55)) /\
    (alpha = 0 <-> r = 255) /\
    100 <= col <= 255 /\
    (r <= 200 -> col = 100 + r * (155 / 200)) /\
    (200 <= r -> col = 255).
Proof.
  intros r [L U] col alpha. subst col alpha.
  unfold Penguin.footprintPixel. cbv zeta. cbn [fst snd].
  assert (A : Rmax 0 ((255 - r) * (255 / 55)) = (255 - r) * (255 / 55))
    by (apply Rmax_right; nra).
  rewrite A.
  assert (C : 200 <= r -> Rmin 255 (100 + r / 200 * 155) = 255)
    by (intros; apply Rmin_left; lra).
  assert (C' : r <= 200 -> Rmin 255 (100 + r / 200 * 155) = 100 + r / 200 * 155)
    by (intros; apply Rmin_right; lra).
  destruct (Rle_dec r 200) as [Le | Gt].
  - rewrite (C' Le).
    destruct (Rgt_dec r 200) as [G | G]; [lra |].
    repeat split; intros; try lra.
  - rewrite C by lra.
    destruct (Rgt_dec r 200) as [G | G]; [| lra].
    repeat split; intros; try lra.
Qed.

(** A mid-grey pixel. *)
Lemma footprint_pixel_witness :
  0 <= snd (Penguin.footprintPixel 128) <= 255.
Proof.
  apply (footprint_pixel 128). lra.
Defined.

(* ================================================================= *)
(** ** The colony: more on the agents *)

Section Agents.
Import ColonyPenguin.

Lemma square_sum_of_length v :
  Vector3.length v <> 0 ->
  Vector3.x (Vector3.normalize v) * Vector3.x (Vector3.normalize v)
  + Vector3.y (Vector3.normalize v) * Vector3.y (Vector3.normalize v)
  + Vector3.z (Vector3.normalize v) * Vector3.z (Vector3.normalize v) = 1.
Proof.
  intros H. pose proof (normalize_unit v H) as U.
  unfold Vector3.length in U.
  set (s := _ + _ + _) in *.
  assert (P : 0 <= s) by (unfold s; nra).
  rewrite <- (sqrt_sqrt s P), U. ring.
Qed.

(** A normalized vector has length one or is null. *)
Lemma normalize_le v :
  Vector3.x (Vector3.normalize v) * Vector3.x (Vector3.normalize v)
  + Vector3.y (Vector3.normalize v) * Vector3.y (Vector3.normalize v)
  + Vector3.z (Vector3.normalize v) * Vector3.z (Vector3.normalize v) <= 1.
Proof.
  destruct (Req_dec_T (Vector3.length v) 0) as [E | N].
  - unfold Vector3.normalize, JS.or_else. rewrite E.
    destruct (Req_dec_T 0 0) as [_ | C]; [| contradiction].
    unfold Vector3.length in E. apply sqrt_eq_0 in E; [| nra].
    unfold Vector3.divideScalar, Vector3.multiplyScalar.
    cbn [Vector3.x Vector3.y Vector3.z].
    replace (1 / 1) with 1 by field. nra.
  - rewrite (square_sum_of_length v N). lra.
Qed.

Lemma ground_bound v : - 0.5 <= ground v <= 0.5.
Proof.
  unfold ground.
  pose proof (SIN_bound (Vector3.x v * 0.1)).
  pose proof (COS_bound (Vector3.z v * 0.1)). nra.
Qed.

Lemma update_due dt center self others p h :
  fst (update dt center self others p h)
  = place (fst (behave dt center self others (due dt p h)
                  (snd (if expired (set_timer p (timer p + dt))
                        then pickNewState (set_timer p (timer p + dt)) h
                        else (set_timer p (timer p + dt), h))))).
Proof. rewrite update_unfold. reflexivity. Qed.

(** An agent that does not walk stays where it is, up to the height. *)
Lemma update_stays dt center self others p h :
  state (due dt p h) <> WALKING ->
  Vector3.x (position (fst (update dt center self others p h)))
  = Vector3.x (position p) /\
  Vector3.z (position (fst (update dt center self others p h)))
  = Vector3.z (position p).
Proof.
  intros W. rewrite update_due.
  destruct (due_body dt p h) as (M & _).
  unfold behave.
  destruct (state (due dt p h)) eqn:E; try contradiction;
    unfold updateIdle, updateTurning, updateLooking, Host.bind, Host.Date_now,
      Host.ret, position;
    cbn [fst place set_mesh mesh Object3D.set_position Object3D.set_rotation_z
         Object3D.set_rotation_y Object3D.set_rotation_x Object3D.position
         set_currentRotation set_headTilt position Vector3.x Vector3.z];
    rewrite M; split; reflexivity.
Qed.

End Agents.

(** X8.  In one [update(dt)] an agent moves on the ground by at most
    [moveSpeed * |dt|]: the squares of its steps along [x] and [z] add up to
    at most [(moveSpeed * dt)^2]; an agent that is not walking in this frame
    does not move along [x] or [z] at all.  Its height after the call is
    between [-0.5] and [0.5]. *)
Theorem agent_speed_limit :
  forall (dt : R) (center : Vector3.t) (self : nat)
         (others : list ColonyPenguin.t) (p : ColonyPenguin.t) (h : Host.t),
    let q := fst (ColonyPenguin.update dt center self others p h) in
    let dx := Vector3.x (ColonyPenguin.position q)
              - Vector3.x (ColonyPenguin.position p) in
    let dz := Vector3.z (ColonyPenguin.position q)
              - Vector3.z (ColonyPenguin.position p) in
    dx * dx + dz * dz
    <= (ColonyPenguin.moveSpeed p * dt) * (ColonyPenguin.moveSpeed p * dt) /\
    (ColonyPenguin.state q <> ColonyPenguin.WALKING -> dx = 0 /\ dz = 0) /\
    - 0.5 <= Vector3.y (ColonyPenguin.position q) <= 0.5.
Proof.
  intros dt center self others p h q dx dz.
  assert (Y : - 0.5 <= Vector3.y (ColonyPenguin.position q) <= 0.5).
  { subst q. rewrite update_due. apply ground_bound. }
  assert (S : ColonyPenguin.state q <> ColonyPenguin.WALKING -> dx = 0 /\ dz = 0).
  { subst q dx dz. rewrite update_state. intros W.
    destruct (update_stays dt center self others p h W) as [X Z].
    rewrite X, Z. split; ring. }
  split; [| split; assumption].
  destruct (ColonyPenguin.state q) eqn:E;
    try (destruct S as [-> ->]; [discriminate | nra]).
  destruct (walking_frame dt center self others p h E) as (X & Z & _).
  fold q in X, Z. subst dx dz. rewrite X, Z.
  set (dir := Spec.steering _ _ _ _ _).
  pose proof (normalize_le
    (Vector3.add
       (Vector3.add (Spec.forward (ColonyPenguin.currentRotation q))
          (Spec.separation self (ColonyPenguin.position p) others))
       (Spec.cohesion center (ColonyPenguin.position p)))) as N.
  fold (Spec.steering center self others (ColonyPenguin.position p)
          (ColonyPenguin.currentRotation q)) in N.
  fold dir in N.
  set (m := ColonyPenguin.moveSpeed p * dt).
  replace (Vector3.x (ColonyPenguin.position p) + ColonyPenguin.moveSpeed p * dt * Vector3.x dir
           - Vector3.x (ColonyPenguin.position p)) with (m * Vector3.x dir)
    by (unfold m; ring).
  replace (Vector3.z (ColonyPenguin.position p) + ColonyPenguin.moveSpeed p * dt * Vector3.z dir
           - Vector3.z (ColonyPenguin.position p)) with (m * Vector3.z dir)
    by (unfold m; ring).
  assert (M : 0 <= m * m) by nra.
  assert (Q : 0 <= Vector3.y dir * Vector3.y dir) by nra.
  nra.
Qed.

Section FadeShape.

Lemma cubic_mono a b :
  0 <= a -> a <= b -> b <= 1 -> a * a * (3 - 2 * a) <= b * b * (3 - 2 * b).
Proof.
  intros A AB B.
  assert (E : b * b * (3 - 2 * b) - a * a * (3 - 2 * a)
              = (b - a) * (a * (3 - 2 * a - b) + b * (3 - 2 * b - a)))
    by ring.
  assert (P1 : 0 <= a * (3 - 2 * a - b)) by (apply Rmult_le_pos; lra).
  assert (P2 : 0 <= b * (3 - 2 * b - a)) by (apply Rmult_le_pos; lra).
  assert (P : 0 <= (b - a) * (a * (3 - 2 * a - b) + b * (3 - 2 * b - a)))
    by (apply Rmult_le_pos; lra).
  lra.
Qed.

Lemma cubic_range a : 0 <= a <= 1 -> 0 <= a * a * (3 - 2 * a) <= 1.
Proof.
  intros [A B]. split.
  - pose proof (cubic_mono 0 a). lra.
  - pose proof (cubic_mono a 1). lra.
Qed.

(** The fade between its ends. *)
Lemma fade_middle d :
  5 < d -> d < 30 ->
  ColonyManager.fade d
  = 1 - ((d - 5) / 25) * ((d - 5) / 25) * (3 - 2 * ((d - 5) / 25)).
Proof.
  intros L U. unfold ColonyManager.fade, MathUtils.smoothstep. cbv zeta.
  destruct (Rle_dec d 5); [lra |]. destruct (Rge_dec d 30); [lra |].
  replace (30 - 5) with 25 by ring. lra.
Qed.

Lemma fade_near d : d <= 5 -> ColonyManager.fade d = 1.
Proof.
  intros L. unfold ColonyManager.fade, MathUtils.smoothstep. cbv zeta.
  destruct (Rle_dec d 5); lra.
Qed.

Lemma fade_far d : 30 <= d -> ColonyManager.fade d = 0.
Proof.
  intros L. unfold ColonyManager.fade, MathUtils.smoothstep. cbv zeta.
  destruct (Rle_dec d 5); [lra |]. destruct (Rge_dec d 30); lra.
Qed.

Lemma fade_range d : 0 <= ColonyManager.fade d <= 1.
Proof.
  destruct (Rle_dec d 5) as [L | L]; [rewrite fade_near; lra |].
  destruct (Rle_dec 30 d) as [U | U]; [rewrite fade_far; lra |].
  rewrite fade_middle by lra.
  pose proof (cubic_range ((d - 5) / 25)). lra.
Qed.

End FadeShape.

(** X9.  The opacity of the colony is a number between 0 and 1 that never
    grows with the distance of the player: it is 1 up to distance 5, 0 from
    distance 30 on, and in between it is strictly between the two. *)
Theorem fade_falls_with_distance :
  (forall d : R, 0 <= ColonyManager.fade d <= 1) /\
  (forall d : R, d <= 5 -> ColonyManager.fade d = 1) /\
  (forall d : R, 30 <= d -> ColonyManager.fade d = 0) /\
  (forall d : R, 5 < d < 30 -> 0 < ColonyManager.fade d < 1) /\
  (forall d1 d2 : R, d1 <= d2 -> ColonyManager.fade d2 <= ColonyManager.fade d1).
Proof.
  split; [exact fade_range |]. split; [exact fade_near |].
  split; [exact fade_far |]. split.
  - intros d [L U]. rewrite fade_middle by lra.
    set (t := (d - 5) / 25).
    assert (T : 0 < t < 1) by (unfold t; lra).
    assert (P : 0 < t * t) by nra.
    assert (Q : 0 < (1 - t) * (1 - t)) by nra.
    split; nra.
  - intros d1 d2 L.
    destruct (Rle_dec d1 5) as [L1 | L1].
    { rewrite (fade_near d1 L1). apply fade_range. }
    destruct (Rle_dec 30 d2) as [U2 | U2].
    { rewrite (fade_far d2 U2). apply fade_range. }
    rewrite !fade_middle by lra.
    pose proof (cubic_mono ((d1 - 5) / 25) ((d2 - 5) / 25)). lra.
Qed.

(** From ten to twenty. *)
Lemma fade_falls_with_distance_witness :
  ColonyManager.fade 20 <= ColonyManager.fade 10.
Proof.
  apply (proj2 (proj2 (proj2 (proj2 fade_falls_with_distance)))). lra.
Defined.

Section Colony.
Import ColonyPenguin.

Lemma fair_rand h h' : Host.rand h' = Host.rand h -> Host.fair h -> Host.fair h'.
Proof. unfold Host.fair. intros E F n. rewrite E. apply F. Qed.

Lemma pick_rand p h : Host.rand (snd (pickNewState p h)) = Host.rand h.
Proof.
  unfold pickNewState, Host.bind, Host.ret, Host.Math_random.
  destruct (Rlt_dec _ 0.6); [| destruct (Rlt_dec _ 0.85); [| destruct (Rlt_dec _ 0.95)]];
    reflexivity.
Qed.

Lemma update_rand dt center self others p h :
  Host.rand (snd (update dt center self others p h)) = Host.rand h.
Proof.
  rewrite update_unfold. cbv zeta. cbn [snd].
  match goal with
  | |- Host.rand (snd (behave _ _ _ _ ?a ?b)) = _ =>
      destruct (behave_plan dt center self others a b) as (_ & R & _); rewrite R
  end.
  destruct (expired _); [apply pick_rand | reflexivity].
Qed.

(** What [pickNewState] needs to find, and what it keeps. *)
Lemma pick_ranges p h :
  Host.fair h ->
  0.5 <= moveSpeed p < 1 -> 5 <= waddleSpeed p < 8 ->
  - 0.25 <= headTiltTarget p <= 0.25 ->
  0.5 <= moveSpeed (fst (pickNewState p h)) < 1 /\
  5 <= waddleSpeed (fst (pickNewState p h)) < 8 /\
  1 <= stateDuration (fst (pickNewState p h)) < 6 /\
  - 0.25 <= headTiltTarget (fst (pickNewState p h)) <= 0.25.
Proof.
  intros F M W T.
  destruct (pickNewState_table p h F) as (_ & _ & _ & _ & Ti & Tw & Tt & Tl).
  destruct (pickNewState_body p h) as (_ & Es & Ew & _).
  rewrite Es, Ew.
  pose proof (F (Host.rand_pos h)) as Fr.
  set (r := Host.rand h (Host.rand_pos h)) in *.
  split; [exact M |]. split; [exact W |].
  destruct (Rlt_dec r 0.6) as [A | A].
  { destruct (Ti A) as (_ & D & _ & E). rewrite E. repeat split; lra. }
  destruct (Rlt_dec r 0.85) as [B | B].
  { destruct (Tw (conj (Rnot_lt_le _ _ A) B)) as (_ & D & _ & E). rewrite E.
    repeat split; lra. }
  destruct (Rlt_dec r 0.95) as [C | C].
  { destruct (Tt (conj (Rnot_lt_le _ _ B) C)) as (_ & D & _ & E). rewrite E.
    repeat split; lra. }
  destruct (Tl (Rnot_lt_le _ _ C)) as (_ & D & _ & E). repeat split; lra.
Qed.

Lemma pick_sane p h :
  Host.fair h ->
  0.5 <= moveSpeed p < 1 -> 5 <= waddleSpeed p < 8 ->
  - 0.25 <= headTiltTarget p <= 0.25 ->
  - 0.5 <= Vector3.y (position p) <= 0.5 ->
  sane (fst (pickNewState p h)).
Proof.
  intros F M W T Y.
  destruct (pick_ranges p h F M W T) as (A & B & C & D).
  destruct (pickNewState_body p h) as (Em & _).
  unfold sane, position in *. rewrite Em.
  split; [exact A |]. split; [exact B |]. split; [exact C |].
  split; [exact D | exact Y].
Qed.

Lemma update_sane dt center self others p h :
  Host.fair h -> sane p -> sane (fst (update dt center self others p h)).
Proof.
  intros F (M & W & D & T & Y).
  assert (Sd : sane (due dt p h)).
  { unfold due. cbv zeta. destruct (expired _).
    - apply pick_sane; assumption.
    - cbn [fst]. repeat split; assumption || apply M || apply W || apply D
                                 || apply T || apply Y. }
  destruct Sd as (M' & W' & D' & T' & _).
  rewrite update_due.
  match goal with
  | |- sane (place (fst (behave _ _ _ _ ?a ?b))) =>
      destruct (behave_plan dt center self others a b)
        as ((_ & _ & E3 & _ & E5 & E6 & E7) & _);
      set (ph := behave dt center self others a b) in *
  end.
  unfold sane.
  change (moveSpeed (place (fst ph))) with (moveSpeed (fst ph)).
  change (waddleSpeed (place (fst ph))) with (waddleSpeed (fst ph)).
  change (stateDuration (place (fst ph))) with (stateDuration (fst ph)).
  change (headTiltTarget (place (fst ph))) with (headTiltTarget (fst ph)).
  change (Vector3.y (position (place (fst ph)))) with (ground (position (fst ph))).
  rewrite E3, E5, E6, E7.
  repeat split; try apply M'; try apply W'; try apply D'; try apply T';
    apply ground_bound.
Qed.

Lemma updateEach_sane dt center :
  forall todo done h,
    Host.fair h -> Forall sane done -> Forall sane todo ->
    Forall sane (fst (ColonyManager.updateEach dt center done todo h)) /\
    Host.rand (snd (ColonyManager.updateEach dt center done todo h)) = Host.rand h.
Proof.
  induction todo as [| p rest IH]; intros done h F Sd St;
    cbn [ColonyManager.updateEach].
  - split; [exact Sd | reflexivity].
  - inversion St as [| ? ? Sp Sr]; subst.
    unfold Host.bind.
    pose proof (update_sane dt center (length done) (done ++ p :: rest) p h F Sp) as Su.
    pose proof (update_rand dt center (length done) (done ++ p :: rest) p h) as Ru.
    destruct (update dt center (length done) (done ++ p :: rest) p h) as [p' h'].
    cbn [fst snd] in Su, Ru.
    destruct (IH (done ++ [p']) h') as [A B].
    + eapply fair_rand; eassumption.
    + apply Forall_app. split; [exact Sd | constructor; [exact Su | constructor]].
    + exact Sr.
    + split; [exact A | rewrite B; exact Ru].
Qed.

Lemma setOpacity_sane opacity p : sane p -> sane (setOpacity opacity p).
Proof. intros H. exact H. Qed.

Lemma manager_update_sane dt playerPos c h :
  Host.fair h -> Forall sane (ColonyManager.penguins c) ->
  Forall sane (ColonyManager.penguins (fst (ColonyManager.update dt playerPos c h))) /\
  ColonyManager.colonyCenter (fst (ColonyManager.update dt playerPos c h))
  = ColonyManager.colonyCenter c /\
  Host.rand (snd (ColonyManager.update dt playerPos c h)) = Host.rand h.
Proof.
  intros F S0.
  destruct (updateEach_sane dt (ColonyManager.colonyCenter c)
              (ColonyManager.penguins c) [] h F (Forall_nil _) S0) as [A B].
  unfold ColonyManager.update, Host.bind, Host.ret.
  destruct (ColonyManager.updateEach _ _ _ _ h) as [ps h'].
  cbn [fst snd ColonyManager.penguins ColonyManager.colonyCenter] in *.
  split; [| split; [reflexivity | exact B]].
  apply Forall_forall. intros q Hq. apply in_map_iff in Hq.
  destruct Hq as (q0 & <- & H0). apply setOpacity_sane.
  rewrite Forall_forall in A. apply A, H0.
Qed.

(** A new agent. *)
Lemma make_new model startPos h :
  Host.fair h ->
  let p := fst (make model startPos h) in
  position p = startPos /\
  0.5 <= moveSpeed p < 1 /\ 5 <= waddleSpeed p < 8 /\
  1 <= stateDuration p < 6 /\ - 0.25 <= headTiltTarget p <= 0.25 /\
  0 <= currentRotation p < 2 * PI /\
  Object3D.rotation_y (mesh p) = currentRotation p /\
  timer p = 0 /\
  Host.rand (snd (make model startPos h)) = Host.rand h.
Proof.
  intros F. cbv zeta.
  unfold make, Host.bind, Host.Math_random.
  pose proof (F (Host.rand_pos h)) as Fw.
  pose proof (F (S (Host.rand_pos h))) as Fm.
  pose proof (F (S (S (Host.rand_pos h)))) as Fa.
  pose proof PI_RGT_0 as Hpi.
  match goal with
  | |- context [pickNewState ?p0 ?h0] =>
      set (p1 := p0); set (h1 := h0)
  end.
  assert (F1 : Host.fair h1) by (apply (fair_rand h); [reflexivity | exact F]).
  destruct (pickNewState_body p1 h1) as (Em & Es & Ew & _ & Ec & _).
  destruct (pickNewState_table p1 h1 F1) as (Tq & _ & _).
  assert (Sn : 0.5 <= moveSpeed (fst (pickNewState p1 h1)) < 1 /\
               5 <= waddleSpeed (fst (pickNewState p1 h1)) < 8 /\
               1 <= stateDuration (fst (pickNewState p1 h1)) < 6 /\
               - 0.25 <= headTiltTarget (fst (pickNewState p1 h1)) <= 0.25).
  { apply pick_ranges; [exact F1 | | |]; subst p1; cbn; lra. }
  destruct Sn as (M & W & D & T).
  unfold position. rewrite Em, Ec.
  split; [reflexivity |].
  split; [exact M |]. split; [exact W |]. split; [exact D |]. split; [exact T |].
  subst p1.
  cbn [currentRotation mesh Object3D.rotation_y Object3D.set_rotation_y
       Host.rand Host.rand_pos].
  split; [nra |]. split; [reflexivity |]. split; [exact Tq |].
  rewrite pick_rand. reflexivity.
Qed.




End Colony.



Section ColonySession.
Import ColonyPenguin.

Lemma spawn_sane model n ps h :
  Host.fair h -> Forall sane ps ->
  Forall sane (fst (ColonyManager.spawn model n ps h)) /\
  Host.rand (snd (ColonyManager.spawn model n ps h)) = Host.rand h.
Proof.
  revert ps h. induction n as [| n IH]; intros ps h F S0.
  - cbn. split; [exact S0 | reflexivity].
  - rewrite spawn_S. cbv zeta.
    pose proof (F (Host.rand_pos h)) as Fa.
    pose proof (F (S (Host.rand_pos h))) as Fb.
    set (h2 := Host.mk _ _ _ _).
    assert (F2 : Host.fair h2) by (apply (fair_rand h); [reflexivity | exact F]).
    set (pos := Vector3.mk (cos _ * _) _ _).
    destruct (make_new model pos h2 F2)
      as (P & M & W & D & T & C & Ry & Tm & Rm).
    cbv zeta in *.
    destruct (IH (ps ++ [fst (make model pos h2)]) (snd (make model pos h2)))
      as (A & R).
    + eapply fair_rand; [exact Rm | exact F2].
    + apply Forall_app. split; [exact S0 |].
      constructor; [| constructor].
      unfold sane. rewrite P. subst pos. cbn [Vector3.y].
      repeat split; try apply M; try apply W; try apply D; try apply T; lra.
    + split; [exact A | rewrite R, Rm; reflexivity].
Qed.

Lemma step_sane e c h :
  Host.fair h -> Forall sane (ColonyManager.penguins c) ->
  Forall sane (ColonyManager.penguins (fst (ColonyManager.step e c h))) /\
  ColonyManager.colonyCenter (fst (ColonyManager.step e c h))
  = ColonyManager.colonyCenter c /\
  Host.rand (snd (ColonyManager.step e c h)) = Host.rand h.
Proof.
  intros F S0. destruct e as [model | dt playerPos]; cbn [ColonyManager.step].
  - rewrite loaded_unfold. cbv zeta.
    cbn [fst snd ColonyManager.penguins ColonyManager.colonyCenter].
    set (h1 := Host.mk _ _ _ _).
    assert (F1 : Host.fair h1) by (apply (fair_rand h); [reflexivity | exact F]).
    destruct (spawn_sane model
                (Z.to_nat (15 + JS.Math_floor (Host.rand h (Host.rand_pos h) * 10)))
                (ColonyManager.penguins c) h1 F1 S0) as [A B].
    split; [exact A |]. split; [reflexivity | rewrite B; reflexivity].
  - apply manager_update_sane; assumption.
Qed.

Lemma run_sane :
  forall es c h,
    Host.fair h -> Forall sane (ColonyManager.penguins c) ->
    Forall sane (ColonyManager.penguins (fst (ColonyManager.run es c h))) /\
    ColonyManager.colonyCenter (fst (ColonyManager.run es c h))
    = ColonyManager.colonyCenter c.
Proof.
  induction es as [| e es IH]; intros c h F S0; cbn [ColonyManager.run].
  - split; [exact S0 | reflexivity].
  - unfold Host.bind.
    destruct (step_sane e c h F S0) as (A & B & R).
    destruct (ColonyManager.step e c h) as [c' h'].
    cbn [fst snd] in A, B, R.
    destruct (IH c' h') as [A' B'].
    + eapply fair_rand; eassumption.
    + exact A.
    + split; [exact A' | rewrite B'; exact B].
Qed.

End ColonySession.

(** X11.  Through a whole session of the colony (the model arrives, frames
    follow), with draws in [[0, 1)] and whatever the time steps and the
    positions of the player, every agent keeps a move speed in [[0.5, 1)] and
    a waddle speed in [[5, 8)], is in a state that lasts at least 1 and less
    than 6 seconds, has a head tilt target within [0.25] and stands at a
    height within [0.5]; the center of the colony stays at the origin. *)
Theorem colony_session_ranges :
  forall (es : list ColonyManager.event) (h : Host.t),
    Host.fair h ->
    let c := fst (ColonyManager.run es ColonyManager.init h) in
    Forall sane (ColonyManager.penguins c) /\
    ColonyManager.colonyCenter c = Vector3.mk 0 0 0.
Proof.
  intros es h F c. subst c.
  apply (run_sane es ColonyManager.init h F). constructor.
Qed.

(** The model arrives, then a frame of a tenth of a second. *)
Lemma colony_session_ranges_witness :
  Forall sane
    (ColonyManager.penguins
       (fst (ColonyManager.run
               [ColonyManager.ModelLoaded Sample.mesh;
                ColonyManager.Frame 0.1 Sample.origin]
               ColonyManager.init (Sample.host 0)))).
Proof.
  apply (colony_session_ranges
           [ColonyManager.ModelLoaded Sample.mesh;
            ColonyManager.Frame 0.1 Sample.origin] (Sample.host 0)).
  intros n. cbn. lra.
Defined.

(* ================================================================= *)
(** ** The environment: noise, mountains, particles *)

Section Noise.
Import Environment.

Lemma random_range seed x z : 0 <= random seed x z < 1.
Proof.
  unfold random, JS.Math_floor. cbv zeta.
  match goal with |- context [Int_part ?s] => destruct (base_Int_part s) end.
  lra.
Qed.

Lemma mix_range a b t :
  0 <= a < 1 -> 0 <= b < 1 -> 0 <= t <= 1 -> 0 <= a * (1 - t) + b * t < 1.
Proof.
  intros A B T. split; [nra |].
  destruct (Rle_dec a b) as [L | L].
  - assert (H : 0 <= (b - a) * (1 - t)) by (apply Rmult_le_pos; lra). lra.
  - assert (H : 0 <= (a - b) * t) by (apply Rmult_le_pos; lra). lra.
Qed.

Lemma fraction_range x : 0 <= x - IZR (JS.Math_floor x) < 1.
Proof. unfold JS.Math_floor. destruct (base_Int_part x). lra. Qed.

Lemma noise_range seed x z : 0 <= noise seed x z < 1.
Proof.
  unfold noise. cbv zeta.
  pose proof (fraction_range x) as U. pose proof (fraction_range z) as V.
  apply mix_range; [apply mix_range | apply mix_range |];
    try apply random_range; lra.
Qed.

Lemma fbm_from_range seed x z :
  forall octaves total amp freq,
    0 < amp ->
    total <= fbm_from seed x z octaves total amp freq < total + 2 * amp.
Proof.
  induction octaves as [| o IH]; intros total amp freq A; cbn [fbm_from].
  - lra.
  - pose proof (noise_range seed (x * freq) (z * freq)) as N.
    assert (A' : 0 < amp * 0.5) by lra.
    specialize (IH (total + noise seed (x * freq) (z * freq) * amp)
                   (amp * 0.5) (freq * 2) A').
    split; nra.
Qed.

Lemma fbm_range seed x z octaves : 0 <= fbm seed x z octaves < 2.
Proof.
  unfold fbm. pose proof (fbm_from_range seed x z octaves 0 1 1). lra.
Qed.

Lemma pow_unit a b : 0 <= a <= 1 -> 0 < b -> 0 <= JS.Math_pow a b <= 1.
Proof.
  intros [L U] B. unfold JS.Math_pow.
  destruct (Rlt_dec 0 a) as [P | P]; [| lra].
  unfold Rpower. split; [left; apply exp_pos |].
  rewrite <- exp_0. destruct U as [U | ->].
  - left. apply exp_increasing.
    assert (Ln : ln a < 0) by (rewrite <- ln_1; apply ln_increasing; lra).
    nra.
  - rewrite ln_1, Rmult_0_r. lra.
Qed.

Lemma pow_above a b : 1 <= a -> 0 < b -> 1 <= JS.Math_pow a b.
Proof.
  intros L B. unfold JS.Math_pow.
  destruct (Rlt_dec 0 a) as [P | P]; [| lra].
  unfold Rpower. rewrite <- exp_0. destruct L as [L | <-].
  - left. apply exp_increasing.
    assert (Ln : 0 < ln a) by (rewrite <- ln_1; apply ln_increasing; lra).
    nra.
  - rewrite ln_1, Rmult_0_r. lra.
Qed.

Lemma pow_below a b : 0 <= a < 1 -> 0 < b -> 0 <= JS.Math_pow a b < 1.
Proof.
  intros [L U] B. unfold JS.Math_pow.
  destruct (Rlt_dec 0 a) as [P | P]; [| lra].
  unfold Rpower. split; [left; apply exp_pos |].
  rewrite <- exp_0. apply exp_increasing.
  assert (Ln : ln a < 0) by (rewrite <- ln_1; apply ln_increasing; lra).
  nra.
Qed.

Lemma pow_one a : 0 <= a -> JS.Math_pow a 1.0 = a.
Proof.
  intros L. unfold JS.Math_pow.
  destruct (Rlt_dec 0 a) as [P | P]; [| lra].
  replace 1.0 with 1 by lra. apply Rpower_1, P.
Qed.

End Noise.

(** X12.  The noise of the mountains.  The lattice value [random] and its
    bilinear interpolation [noise] are at least 0 and below 1 everywhere, for
    every seed; the sum [fbm] of any number of octaves is at least 0 and
    below 2. *)
Theorem mountain_noise_ranges :
  forall (seed x z : R) (octaves : nat),
    0 <= Environment.random seed x z < 1 /\
    0 <= Environment.noise seed x z < 1 /\
    0 <= Environment.fbm seed x z octaves < 2.
Proof.
  intros. split; [apply random_range |].
  split; [apply noise_range | apply fbm_range].
Qed.

Section Relief.
Import Environment.

Lemma mask_outside scale d :
  0 < scale -> radius scale <= d ->
  Rmax 0 (1 - JS.Math_pow (d / radius scale) 1.5) = 0.
Proof.
  intros S0 D. unfold radius in *.
  assert (Q : 1 <= d / (4500 * scale)).
  { apply Rmult_le_reg_r with (r := 4500 * scale); [lra |].
    unfold Rdiv. rewrite Rmult_assoc, Rinv_l by lra. lra. }
  pose proof (pow_above _ 1.5 Q ltac:(lra)).
  apply Rmax_left. lra.
Qed.

Lemma mask_inside scale d :
  0 < scale -> 0 <= d < radius scale ->
  0 < Rmax 0 (1 - JS.Math_pow (d / radius scale) 1.5) <= 1.
Proof.
  intros S0 [L U]. unfold radius in *.
  assert (Q : 0 <= d / (4500 * scale) < 1).
  { split.
    - apply Rmult_le_pos; [exact L |]. left. apply Rinv_0_lt_compat. lra.
    - apply Rmult_lt_reg_r with (r := 4500 * scale); [lra |].
      unfold Rdiv. rewrite Rmult_assoc, Rinv_l by lra. lra. }
  pose proof (pow_below _ 1.5 Q ltac:(lra)).
  rewrite Rmax_right by lra. lra.
Qed.

Lemma deformed_outside scale heightScale seed x y :
  0 < scale -> radius scale <= sqrt (x * x + y * y) ->
  deformed scale heightScale seed x y = - 10.
Proof.
  intros S0 D. unfold deformed. cbv zeta.
  rewrite (mask_outside scale _ S0 D).
  rewrite pow_one by lra.
  destruct (Rle_dec 0 0); [reflexivity | lra].
Qed.

Lemma deformed_inside scale heightScale seed x y :
  0 < scale -> 0 <= heightScale -> sqrt (x * x + y * y) < radius scale ->
  0 <= deformed scale heightScale seed x y <= 3200 * heightScale.
Proof.
  intros S0 H0 D. unfold deformed. cbv zeta.
  pose proof (mask_inside scale (sqrt (x * x + y * y)) S0
                (conj (sqrt_pos _) D)) as M.
  set (mask0 := Rmax 0 _) in *.
  rewrite (pow_one mask0) by lra.
  destruct (Rle_dec mask0 0); [lra |].
  pose proof (fbm_range seed (x * 0.001) (y * 0.001) 4) as N1.
  pose proof (fbm_range seed (x * 0.005) (y * 0.005) 6) as N2.
  set (n1 := fbm _ _ _ 4) in *. set (n2 := fbm _ _ _ 6) in *.
  set (ridge := Rmax 0 _).
  assert (Rg : 0 <= ridge <= 1).
  { unfold ridge. split; [apply Rmax_l |].
    apply Rmax_lub; [lra |].
    match goal with |- context [Rabs ?a] => pose proof (Rabs_pos a) end. lra. }
  pose proof (pow_unit ridge 1.8 Rg ltac:(lra)) as P.
  set (pr := JS.Math_pow ridge 1.8) in *.
  assert (A : 0 <= mask0 * heightScale <= heightScale) by nra.
  set (k := mask0 * heightScale) in *.
  replace (0 + n1 * 1200 * mask0 * heightScale + n2 * 150 * mask0 * heightScale
           + pr * 500 * mask0 * heightScale)
    with ((n1 * 1200 + n2 * 150 + pr * 500) * k) by (unfold k; ring).
  assert (B : 0 <= n1 * 1200 + n2 * 150 + pr * 500 <= 3200) by lra.
  split; nra.
Qed.

Lemma flat_map_length_const {A B : Type} (f : A -> list B) (k : nat) l :
  (forall a, length (f a) = k) -> length (flat_map f l) = (length l * k)%nat.
Proof.
  intros H. induction l as [| a l IH]; [reflexivity |].
  cbn [flat_map length]. rewrite length_app, H, IH. lia.
Qed.

Lemma PlaneGeometry_length width height gridX gridY :
  length (PlaneGeometry width height gridX gridY)
  = ((gridY + 1) * (gridX + 1))%nat.
Proof.
  unfold PlaneGeometry. cbv zeta.
  rewrite (flat_map_length_const _ (gridX + 1)).
  - rewrite length_seq. reflexivity.
  - intros a. rewrite length_map, length_seq. reflexivity.
Qed.

Lemma segments_minimum scale :
  (192 <= Z.to_nat (JS.Math_floor (256 * Rmax 0.75 scale)))%nat.
Proof.
  unfold JS.Math_floor.
  pose proof (Rmax_l 0.75 scale) as M.
  destruct (base_Int_part (256 * Rmax 0.75 scale)) as [A B].
  assert (L : IZR 191 < IZR (Int_part (256 * Rmax 0.75 scale))) by lra.
  apply lt_IZR in L. lia.
Qed.

Lemma createMountainMesh_vertices offsetX offsetZ scale heightScale seed h :
  vertices (fst (createMountainMesh offsetX offsetZ scale heightScale seed h))
  = map (deformVertex scale heightScale seed)
        (PlaneGeometry (10000 * scale) (10000 * scale)
           (Z.to_nat (JS.Math_floor (256 * Rmax 0.75 scale)))
           (Z.to_nat (JS.Math_floor (256 * Rmax 0.75 scale)))).
Proof.
  unfold createMountainMesh, Host.ret. cbv zeta. cbn [fst vertices].
  set (pos := PlaneGeometry _ _ _ _).
  pose proof (deform_from_map scale heightScale seed pos []) as H.
  cbn [length app] in H. exact H.
Qed.

End Relief.

(** X13.  The relief of a peak of positive [scale].  A vertex at
    [4500 * scale] or more from the center of the plane is put at the floor
    [-10]; a vertex nearer than that, for a [heightScale] that is not
    negative, gets an elevation between [0] and [3200 * heightScale]. *)
Theorem mountain_relief :
  forall (scale heightScale seed x y : R),
    0 < scale ->
    (4500 * scale <= sqrt (x * x + y * y) ->
       Environment.deformed scale heightScale seed x y = - 10) /\
    (0 <= heightScale -> sqrt (x * x + y * y) < 4500 * scale ->
       0 <= Environment.deformed scale heightScale seed x y
       <= 3200 * heightScale).
Proof.
  intros scale heightScale seed x y S0. split.
  - intros D. apply deformed_outside; assumption.
  - intros H0 D. apply deformed_inside; assumption.
Qed.

(** The central peak, at its center. *)
Lemma mountain_relief_witness :
  0 <= Environment.deformed 1 1 0 0 0 <= 3200 * 1.
Proof.
  apply (proj2 (mountain_relief 1 1 0 0 0 ltac:(lra))); [lra |].
  replace (0 * 0 + 0 * 0) with 0 by ring. rewrite sqrt_0. lra.
Defined.

(** X14.  The mesh of a peak is a square lattice of [segs + 1] by
    [segs + 1] vertices, with [segs] the floor of [256 * max(0.75, scale)],
    which is 192 at least; it has one elevation per vertex, and for a
    positive [scale] and a [heightScale] that is not negative every
    elevation is the floor [-10] or lies between [0] and
    [3200 * heightScale]. *)
Theorem mountain_mesh_shape :
  forall (offsetX offsetZ scale heightScale seed : R) (h : Host.t),
    let m := fst (Environment.createMountainMesh offsetX offsetZ scale
                    heightScale seed h) in
    let segs := Z.to_nat (JS.Math_floor (256 * Rmax 0.75 scale)) in
    (192 <= segs)%nat /\
    length (Environment.vertices m) = ((segs + 1) * (segs + 1))%nat /\
    length (Environment.elevations m) = ((segs + 1) * (segs + 1))%nat /\
    (0 < scale -> 0 <= heightScale ->
       Forall (fun e => e = - 10 \/ 0 <= e <= 3200 * heightScale)
              (Environment.elevations m)).
Proof.
  intros offsetX offsetZ scale heightScale seed h m segs. subst m segs.
  split; [apply segments_minimum |].
  unfold Environment.elevations.
  rewrite createMountainMesh_vertices.
  rewrite !length_map, PlaneGeometry_length.
  split; [reflexivity |]. split; [reflexivity |].
  intros S0 H0. apply Forall_forall. intros e He.
  rewrite map_map in He. apply in_map_iff in He. destruct He as (v & <- & _).
  cbn [deformVertex Environment.setZ Vector3.z].
  destruct (Rle_dec (4500 * scale)
              (sqrt (Vector3.x v * Vector3.x v + Vector3.y v * Vector3.y v)))
    as [D | D].
  - left. apply deformed_outside; assumption.
  - right. apply deformed_inside; [assumption | assumption |].
    unfold Environment.radius. lra.
Qed.

Section Colours.
Import Environment.

Lemma smoothstep_range lo hi v : 0 <= smoothstep lo hi v <= 1.
Proof.
  unfold smoothstep. cbv zeta.
  set (x := Rmax 0 (Rmin 1 _)).
  assert (X : 0 <= x <= 1).
  { unfold x. split; [apply Rmax_l |]. apply Rmax_lub; [lra | apply Rmin_l]. }
  apply cubic_range, X.
Qed.

Lemma smoothstep_low lo hi v : lo < hi -> v <= lo -> smoothstep lo hi v = 0.
Proof.
  intros H L. unfold smoothstep. cbv zeta.
  assert (D : 0 < / (hi - lo)) by (apply Rinv_0_lt_compat; lra).
  assert (T : (v - lo) / (hi - lo) <= 0) by (unfold Rdiv; nra).
  rewrite Rmin_right by lra. rewrite Rmax_left by lra. ring.
Qed.

Lemma smoothstep_high lo hi v : lo < hi -> hi <= v -> smoothstep lo hi v = 1.
Proof.
  intros H L. unfold smoothstep. cbv zeta.
  assert (D : 0 < / (hi - lo)) by (apply Rinv_0_lt_compat; lra).
  assert (I : (hi - lo) * / (hi - lo) = 1) by (apply Rinv_r; lra).
  assert (T : 1 <= (v - lo) / (hi - lo)) by (unfold Rdiv; nra).
  rewrite Rmin_left by lra. rewrite Rmax_right by lra. ring.
Qed.

Lemma noiseVal_range a b : 0 <= (sin a * cos b + 1) * 0.5 <= 1.
Proof. pose proof (SIN_bound a). pose proof (COS_bound b). nra. Qed.

Lemma lerp_between a b t : a <= b -> 0 <= t <= 1 -> a <= a + (b - a) * t <= b.
Proof. intros. nra. Qed.

End Colours.

(** X15.  The colour of a vertex of a peak, for a positive [heightScale].
    It mixes the rock colour and the snow colour with a weight between 0 and
    1, so that each channel lies between the two (where rock is the darker).
    The weight is read from the coordinate [y] of the vertex in the plane of
    the geometry, shifted by a noise between 0 and [250 * heightScale]: the
    vertex has the colour of rock when [y <= -200 * heightScale] and the
    colour of snow when [y >= 500 * heightScale]. *)
Theorem mountain_vertex_colour :
  forall (rockColor snowColor : Environment.Color) (heightScale seed : R)
         (v : Vector3.t),
    0 < heightScale ->
    let c := Environment.vertexColor rockColor snowColor heightScale seed v in
    (Environment.red rockColor <= Environment.red snowColor ->
       Environment.red rockColor <= Environment.red c
       <= Environment.red snowColor) /\
    (Environment.green rockColor <= Environment.green snowColor ->
       Environment.green rockColor <= Environment.green c
       <= Environment.green snowColor) /\
    (Environment.blue rockColor <= Environment.blue snowColor ->
       Environment.blue rockColor <= Environment.blue c
       <= Environment.blue snowColor) /\
    (Vector3.y v <= - 200 * heightScale -> c = rockColor) /\
    (500 * heightScale <= Vector3.y v -> c = snowColor).
Proof.
  intros rockColor snowColor heightScale seed v H0 c. subst c.
  unfold Environment.vertexColor. cbv zeta.
  pose proof (noiseVal_range ((Vector3.x v + seed) * 0.1)
                             ((Vector3.z v + seed) * 0.1)) as N.
  set (noiseVal := (sin _ * cos _ + 1) * 0.5) in *.
  pose proof (smoothstep_range (50 * heightScale) (500 * heightScale)
                (Vector3.y v + noiseVal * 250 * heightScale)) as M.
  split; [| split; [| split; [| split]]].
  - intros L. cbn [Environment.Color_lerp Environment.red].
    apply lerp_between; assumption.
  - intros L. cbn [Environment.Color_lerp Environment.green].
    apply lerp_between; assumption.
  - intros L. cbn [Environment.Color_lerp Environment.blue].
    apply lerp_between; assumption.
  - intros Y. rewrite smoothstep_low by nra.
    destruct rockColor. unfold Environment.Color_lerp.
    cbn [Environment.red Environment.green Environment.blue]. f_equal; ring.
  - intros Y. rewrite smoothstep_high by nra.
    destruct rockColor, snowColor. unfold Environment.Color_lerp.
    cbn [Environment.red Environment.green Environment.blue]. f_equal; ring.
Qed.

(** A vertex far down the plane is rock. *)
Lemma mountain_vertex_colour_witness :
  Environment.vertexColor (Environment.mkColor 0 0 0) (Environment.mkColor 1 1 1)
    1 0 (Vector3.mk 0 (- 300) 0)
  = Environment.mkColor 0 0 0.
Proof.
  apply (mountain_vertex_colour (Environment.mkColor 0 0 0)
           (Environment.mkColor 1 1 1) 1 0 (Vector3.mk 0 (- 300) 0)).
  - lra.
  - cbn. lra.
Defined.

Section Particles.
Import Environment.

Section Loop.
Variable body : Vector3.t -> Host.M Vector3.t.
Variable I : Host.t -> Prop.
Variable Q : Vector3.t -> Vector3.t -> Prop.
Hypothesis body_ok :
  forall v h, I h -> Q v (fst (body v h)) /\ I (snd (body v h)).

(** The loop has rewritten the particles [pre]; it goes on through [post]. *)
Lemma each_from_rel :
  forall post pre h,
    I h ->
    exists l,
      fst (each_from body (length pre) (length post) (pre ++ post) h) = pre ++ l /\
      Forall2 Q post l /\
      I (snd (each_from body (length pre) (length post) (pre ++ post) h)).
Proof.
  induction post as [| v post IH]; intros pre h Ih.
  - exists []. cbn. split; [reflexivity |]. split; [constructor | exact Ih].
  - cbn [length each_from].
    rewrite nth_error_app2 by lia. rewrite Nat.sub_diag. cbn [nth_error].
    unfold Host.bind. destruct (body_ok v h Ih) as [Qv Iv].
    destruct (body v h) as [v' h']. cbn [fst snd] in Qv, Iv.
    unfold store.
    rewrite firstn_app, Nat.sub_diag, firstn_all, firstn_O, app_nil_r.
    replace (skipn (S (length pre)) (pre ++ v :: post)) with post.
    2:{ rewrite skipn_app, skipn_all2 by lia.
        replace (S (length pre) - length pre)%nat with 1%nat by lia.
        reflexivity. }
    replace (S (length pre)) with (length (pre ++ [v']))
      by (rewrite length_app; cbn; lia).
    change (pre ++ v' :: post) with (pre ++ [v'] ++ post).
    rewrite app_assoc.
    destruct (IH (pre ++ [v']) h' Iv) as (l & E & F & Il).
    exists (v' :: l). rewrite E, <- app_assoc.
    split; [reflexivity |]. split; [constructor; assumption | exact Il].
Qed.

Lemma each_rel a h :
  I h ->
  Forall2 Q a (fst (each_from body 0 (length a) a h)) /\
  I (snd (each_from body 0 (length a) a h)).
Proof.
  intros Ih. destruct (each_from_rel a [] h Ih) as (l & E & F & Il).
  cbn [length app] in E, Il. rewrite E. split; assumption.
Qed.

End Loop.

Lemma Forall2_transfer {A : Type} (P P' : A -> Prop) (Q : A -> A -> Prop) l l' :
  (forall a a', P a -> Q a a' -> P' a') ->
  Forall P l -> Forall2 Q l l' -> Forall P' l'.
Proof.
  intros H F F2. induction F2 as [| a a' l l' Qa F2 IH]; [constructor |].
  inversion F; subst. constructor; [eapply H; eassumption | apply IH; assumption].
Qed.

Lemma Forall2_same_length {A : Type} (Q : A -> A -> Prop) l l' :
  Forall2 Q l l' -> length l' = length l.
Proof. induction 1; cbn; congruence. Qed.

Lemma fall_fallen dt v : fallen dt v (fall dt v).
Proof.
  unfold fallen, fall. cbv zeta. cbn [Vector3.x Vector3.y Vector3.z].
  destruct (Rlt_dec _ 0); repeat split; intros; try reflexivity; lra.
Qed.

Lemma draw_skim h n : Host.fair h -> Rabs ((Host.rand h n - 0.5) * 200) <= 100.
Proof. intros F. pose proof (F n). apply Rabs_le. lra. Qed.

Lemma skim_skimmed dt v h :
  Host.fair h ->
  skimmed dt v (fst (skim dt v h)) /\ Host.fair (snd (skim dt v h)).
Proof.
  intros F. unfold skim, skimmed, Host.bind, Host.ret, Host.Math_random.
  cbv zeta.
  pose proof (draw_skim h (Host.rand_pos h) F) as D0.
  pose proof (draw_skim h (S (Host.rand_pos h)) F) as D1.
  destruct (Rgt_dec (Rabs (Vector3.x v + dt * 5.0)) 100) as [X | X];
    destruct (Rgt_dec (Rabs (Vector3.z v + dt * 2.5)) 100) as [Z | Z];
    cbn [fst snd Vector3.x Vector3.y Vector3.z Host.rand Host.rand_pos];
    (split; [repeat split; intros; try reflexivity; try lra
            | apply (fair_rand h); [reflexivity | exact F]]).
Qed.

Lemma fall_ok dt :
  forall v h,
    Host.fair h ->
    fallen dt v (fst (Host.ret (fall dt v) h)) /\
    Host.fair (snd (Host.ret (fall dt v) h)).
Proof. intros v h F. split; [apply fall_fallen | exact F]. Qed.

(** [update], loop by loop. *)
Lemma update_unfold_env dt playerPos time e h :
  update dt playerPos time e h
  = let r1 := each_from (fun v => Host.ret (fall dt v)) 0
                        (length (snowSystem e)) (snowSystem e) h in
    let r2 := each_from (skim dt) 0 (length (groundSnow e)) (groundSnow e)
                        (snd r1) in
    (mk (Vector3.mk (Vector3.x playerPos) (Vector3.y (ground e))
                    (Vector3.z playerPos))
        (Vector3.mk (Vector3.x playerPos) (Vector3.y (farGround e))
                    (Vector3.z playerPos))
        (mountain e) (shader e) (if shader e then time else uTime e)
        (fst r1)
        (Vector3.mk (Vector3.x playerPos) 0 (Vector3.z playerPos))
        (sin (time * 0.1) * 0.1) (fst r2)
        (Vector3.mk (Vector3.x playerPos) 0.1 (Vector3.z playerPos)),
     snd r2).
Proof.
  unfold update, Host.bind, Host.ret. cbv zeta.
  destruct (each_from _ 0 (length (snowSystem e)) (snowSystem e) h) as [s h1].
  cbn [fst snd].
  destruct (each_from (skim dt) 0 (length (groundSnow e)) (groundSnow e) h1).
  reflexivity.
Qed.

Lemma update_particles dt playerPos time e h :
  Host.fair h ->
  Forall2 (fallen dt) (snowSystem e)
          (snowSystem (fst (update dt playerPos time e h))) /\
  Forall2 (skimmed dt) (groundSnow e)
          (groundSnow (fst (update dt playerPos time e h))) /\
  Host.fair (snd (update dt playerPos time e h)).
Proof.
  intros F. rewrite update_unfold_env. cbv zeta.
  cbn [fst snd snowSystem groundSnow].
  destruct (each_rel (fun v => Host.ret (fall dt v)) Host.fair (fallen dt)
              (fall_ok dt) (snowSystem e) h F) as [A F1].
  destruct (each_rel (skim dt) Host.fair (skimmed dt) (skim_skimmed dt)
              (groundSnow e) _ F1) as [B F2].
  split; [exact A |]. split; [exact B | exact F2].
Qed.

Lemma createSnow_from_box :
  forall n positions h,
    Host.fair h -> Forall in_snow_box positions ->
    Forall in_snow_box (fst (createSnow_from n positions h)) /\
    length (fst (createSnow_from n positions h)) = (length positions + n)%nat /\
    Host.fair (snd (createSnow_from n positions h)).
Proof.
  induction n as [| n IH]; intros positions h F B.
  - cbn. split; [exact B |]. split; [lia | exact F].
  - cbn [createSnow_from]. unfold Host.bind, Host.Math_random.
    cbn [Host.rand Host.rand_pos Host.clock Host.clock_pos].
    pose proof (F (Host.rand_pos h)) as Fa.
    pose proof (F (S (Host.rand_pos h))) as Fb.
    pose proof (F (S (S (Host.rand_pos h)))) as Fc.
    match goal with
    | |- context [createSnow_from n ?ps ?h'] =>
        destruct (IH ps h') as (A & L & F')
    end.
    + apply (fair_rand h); [reflexivity | exact F].
    + apply Forall_app. split; [exact B |]. constructor; [| constructor].
      unfold in_snow_box. cbn [Vector3.x Vector3.y Vector3.z]. lra.
    + split; [exact A |]. split; [| exact F'].
      rewrite L, length_app. cbn [length]. lia.
Qed.

Lemma createGroundSnow_from_box :
  forall n positions h,
    Host.fair h -> Forall in_skim_box positions ->
    Forall in_skim_box (fst (createGroundSnow_from n positions h)) /\
    length (fst (createGroundSnow_from n positions h)) = (length positions + n)%nat /\
    Host.fair (snd (createGroundSnow_from n positions h)).
Proof.
  induction n as [| n IH]; intros positions h F B.
  - cbn. split; [exact B |]. split; [lia | exact F].
  - cbn [createGroundSnow_from]. unfold Host.bind, Host.Math_random.
    cbn [Host.rand Host.rand_pos Host.clock Host.clock_pos].
    pose proof (F (Host.rand_pos h)) as Fa.
    pose proof (F (S (Host.rand_pos h))) as Fb.
    pose proof (F (S (S (Host.rand_pos h)))) as Fc.
    match goal with
    | |- context [createGroundSnow_from n ?ps ?h'] =>
        destruct (IH ps h') as (A & L & F')
    end.
    + apply (fair_rand h); [reflexivity | exact F].
    + apply Forall_app. split; [exact B |]. constructor; [| constructor].
      unfold in_skim_box. cbn [Vector3.x Vector3.y Vector3.z].
      split; [apply Rabs_le; lra |]. split; [apply Rabs_le; lra | lra].
    + split; [exact A |]. split; [| exact F'].
      rewrite L, length_app. cbn [length]. lia.
Qed.

Lemma make_weather h :
  Host.fair h -> weather (fst (make h)) /\ Host.fair (snd (make h)).
Proof.
  intros F. unfold make, Host.bind, Host.ret.
  destruct (createPeaks_pure peaks h h) as [_ Em].
  unfold createMountain.
  destruct (createPeaks peaks h) as [m h0]. cbn [snd] in Em. subst h0.
  unfold createSnow, createGroundSnow.
  destruct (createSnow_from_box 5000 [] h F (Forall_nil _)) as (A & L & F1).
  destruct (createSnow_from 5000 [] h) as [s h1]. cbn [fst snd] in A, L, F1.
  destruct (createGroundSnow_from_box 2000 [] h1 F1 (Forall_nil _)) as (B & L' & F2).
  destruct (createGroundSnow_from 2000 [] h1) as [g h2]. cbn [fst snd] in B, L', F2.
  cbn [fst snd]. split; [| exact F2].
  unfold weather. cbn [snowSystem groundSnow].
  split; [exact A |]. split; [exact B |]. split; [exact L | exact L'].
Qed.

Lemma update_weather dt playerPos time e h :
  0 <= dt -> Host.fair h -> weather e ->
  weather (fst (update dt playerPos time e h)) /\
  Host.fair (snd (update dt playerPos time e h)).
Proof.
  intros N F (A & B & L & L').
  destruct (update_particles dt playerPos time e h F) as (Fs & Fg & F').
  split; [| exact F'].
  unfold weather.
  rewrite (Forall2_same_length _ _ _ Fs), (Forall2_same_length _ _ _ Fg).
  split; [| split; [| split; assumption]].
  - apply (Forall2_transfer in_snow_box in_snow_box (fallen dt) _ _) with (2 := A) (3 := Fs).
    unfold in_snow_box, fallen. intros a a' (X & Y & Z) (Ex & Ez & P & U & D).
    rewrite Ex, Ez.
    destruct (Rlt_dec (Vector3.y a - dt * 2.0) 0) as [C | C].
    + rewrite (D C). lra.
    + rewrite (U ltac:(lra)). lra.
  - apply (Forall2_transfer in_skim_box in_skim_box (skimmed dt) _ _) with (2 := B) (3 := Fg).
    unfold in_skim_box, skimmed. intros a a' (X & Y & Z) (Ez & Bx & By & _).
    rewrite Ez. split; [exact Bx |]. split; [exact By | exact Z].
Qed.

Lemma frames_weather :
  forall fs e h,
    Forall forward_frame fs -> Host.fair h -> weather e ->
    weather (fst (frames fs e h)).
Proof.
  induction fs as [| [[dt playerPos] time] fs IH]; intros e h T F W;
    cbn [frames].
  - exact W.
  - inversion T as [| ? ? N Ts]; subst. unfold forward_frame in N. cbn in N.
    unfold Host.bind.
    destruct (update_weather dt playerPos time e h N F W) as [W' F'].
    destruct (update dt playerPos time e h) as [e' h'].
    apply IH; assumption.
Qed.

End Particles.

(** X16.  The particles, from the constructor through any number of frames
    whose time steps are not negative, with draws in [[0, 1)].  There are
    always 5000 snow flakes and 2000 particles of ground snow.  A snow flake
    stays in the box in which it was drawn: its height between 0 and 40, its
    [x] and [z] between -50 and 50.  A particle of the ground snow keeps its
    first two coordinates within 100 of zero and its third between -100 and
    100. *)
Theorem particles_stay_in_bounds :
  forall (fs : list (R * Vector3.t * R)) (h : Host.t),
    Host.fair h -> Forall forward_frame fs ->
    let e := fst (Host.bind Environment.make (Environment.frames fs) h) in
    Forall in_snow_box (Environment.snowSystem e) /\
    Forall in_skim_box (Environment.groundSnow e) /\
    length (Environment.snowSystem e) = 5000%nat /\
    length (Environment.groundSnow e) = 2000%nat.
Proof.
  intros fs h F T e. subst e. unfold Host.bind.
  destruct (make_weather h F) as [W F'].
  destruct (Environment.make h) as [e0 h0]. cbn [fst snd] in W, F'.
  exact (frames_weather fs e0 h0 T F' W).
Qed.

(** One frame of a second. *)
Lemma particles_stay_in_bounds_witness :
  length (Environment.snowSystem
            (fst (Host.bind Environment.make
                    (Environment.frames [(1, Sample.origin, 1)])
                    (Sample.host 0))))
  = 5000%nat.
Proof.
  apply (particles_stay_in_bounds [(1, Sample.origin, 1)] (Sample.host 0)).
  - intros n. cbn. lra.
  - repeat constructor. unfold forward_frame. cbn. lra.
Defined.

(** X17.  One frame of the environment, with draws in [[0, 1)].  The two
    ground meshes and the two particle systems are moved under the player
    (its [x] and [z]; the grounds keep their height, the snow is at height 0
    and the ground snow at 0.1); the snow system is turned by at most 0.1;
    the mountains are not touched.  A snow flake keeps its [x] and [z] and
    falls by [2 dt], or goes back to height 40 when that would take it below
    the ground.  A particle of the ground snow keeps its third coordinate
    [z], whatever the frame: its first coordinate drifts by [5 dt], and its
    second coordinate is set to [z + 2.5 dt], each drawn anew when it would
    leave the band of 100 around zero. *)
Theorem environment_frame :
  forall (dt : R) (playerPos : Vector3.t) (time : R) (e : Environment.t)
         (h : Host.t),
    Host.fair h ->
    let e' := fst (Environment.update dt playerPos time e h) in
    Environment.ground e'
    = Vector3.mk (Vector3.x playerPos) (Vector3.y (Environment.ground e))
                 (Vector3.z playerPos) /\
    Environment.farGround e'
    = Vector3.mk (Vector3.x playerPos) (Vector3.y (Environment.farGround e))
                 (Vector3.z playerPos) /\
    Environment.snowSystem_position e'
    = Vector3.mk (Vector3.x playerPos) 0 (Vector3.z playerPos) /\
    Environment.groundSnow_position e'
    = Vector3.mk (Vector3.x playerPos) 0.1 (Vector3.z playerPos) /\
    - 0.1 <= Environment.snowSystem_rotation_y e' <= 0.1 /\
    Environment.mountain e' = Environment.mountain e /\
    Forall2 (fallen dt) (Environment.snowSystem e) (Environment.snowSystem e') /\
    Forall2 (skimmed dt) (Environment.groundSnow e) (Environment.groundSnow e').
Proof.
  intros dt playerPos time e h F e'. subst e'.
  destruct (update_particles dt playerPos time e h F) as (Fs & Fg & _).
  split; [| split; [| split; [| split; [| split; [| split; [| split]]]]]];
    try assumption;
    rewrite update_unfold_env; cbv zeta;
    cbn [fst Environment.ground Environment.farGround
         Environment.snowSystem_position Environment.groundSnow_position
         Environment.snowSystem_rotation_y Environment.mountain];
    try reflexivity.
  pose proof (SIN_bound (time * 0.1)). lra.
Qed.

(** An environment with one flake and one particle of ground snow. *)
Lemma environment_frame_witness :
  Environment.mountain
    (fst (Environment.update 1 Sample.origin 1
            (Environment.mk Sample.origin Sample.origin [] false 0
               [Sample.origin] Sample.origin 0 [Sample.origin] Sample.origin)
            (Sample.host 0)))
  = [].
Proof.
  apply (environment_frame 1 Sample.origin 1
           (Environment.mk Sample.origin Sample.origin [] false 0
              [Sample.origin] Sample.origin 0 [Sample.origin] Sample.origin)
           (Sample.host 0)).
  intros n. cbn. lra.
Defined.

(* ================================================================= *)
(** ** The subtitle overlay *)

Section Subtitles.
Import SubtitleOverlay.

Lemma found_step all t n sub f m :
  nth_error all n = Some sub ->
  found_in all t n f m ->
  found_in all t (S n)
    (fst (search t n [sub] f m)) (snd (search t n [sub] f m)).
Proof.
  intros N I. cbn [search].
  assert (Old : forall j sub', (j < S n)%nat -> nth_error all j = Some sub' ->
                  (j < n)%nat \/ (j = n /\ sub' = sub)).
  { intros j sub' L E. destruct (Nat.eq_dec j n) as [-> | D].
    - right. split; [reflexivity | congruence].
    - left. lia. }
  assert (Keep : (~ on_at t sub \/ SubtitleOverlay.start sub <= m) ->
                 found_in all t (S n) f m).
  { intros K.
    destruct I as [(Ef & Em & P) | (i & s & Li & Ef & Ni & Oi & Em & Mi & P)].
    - left. split; [exact Ef |]. split; [exact Em |]. intros j sub' L E O.
      destruct (Old _ _ L E) as [L' | [-> ->]]; [exact (P _ _ L' E O) |].
      destruct K as [K | K]; [contradiction | lra].
    - right. exists i, s. split; [lia |]. split; [exact Ef |].
      split; [exact Ni |]. split; [exact Oi |]. split; [exact Em |].
      split; [exact Mi |]. intros j sub' L E O.
      destruct (Old _ _ L E) as [L' | [-> ->]]; [exact (P _ _ L' E O) |].
      destruct K as [K | K]; [contradiction |]. split; [exact K | lia]. }
  destruct (Rge_dec t (start sub)) as [G | G];
    [destruct (Rlt_dec t (end_ sub)) as [U | U];
     [destruct (Rgt_dec (start sub) m) as [B | B] |] |]; cbn [fst snd].
  - (* on, and starting later than the one held *)
    right. exists n, sub.
    assert (M : -1 <= m).
    { destruct I as [(_ & -> & _) | (i & s & _ & _ & _ & _ & _ & P & _)]; lra. }
    split; [lia |]. split; [reflexivity |]. split; [exact N |].
    split; [split; [apply Rge_le; exact G | exact U] |].
    split; [reflexivity |]. split; [lra |]. intros j sub' L E O.
    destruct (Old _ _ L E) as [L' | [-> ->]]; [| split; [lra | lia]].
    destruct I as [(_ & Em & P) | (i & s & _ & _ & _ & _ & Em & _ & P)].
    + specialize (P _ _ L' E O). split; [lra | intros _; lra].
    + destruct (P _ _ L' E O) as [P1 _]. split; [lra | intros _; lra].
  - apply Keep. right. lra.
  - apply Keep. left. intros [_ O]. contradiction.
  - apply Keep. left. intros [O _]. apply Rle_ge in O. contradiction.
Qed.

Lemma search_cons t n sub subs f m :
  search t n (sub :: subs) f m =
  search t (S n) subs (fst (search t n [sub] f m)) (snd (search t n [sub] f m)).
Proof.
  cbn [search].
  destruct (Rge_dec t (start sub));
    [destruct (Rlt_dec t (end_ sub));
     [destruct (Rgt_dec (start sub) m) |] |]; reflexivity.
Qed.

Lemma search_found t :
  forall subs pre f m,
    found_in (pre ++ subs) t (length pre) f m ->
    found_in (pre ++ subs) t (length (pre ++ subs))
      (fst (search t (length pre) subs f m))
      (snd (search t (length pre) subs f m)).
Proof.
  induction subs as [| sub subs IH]; intros pre f m I.
  - rewrite app_nil_r in *. exact I.
  - rewrite search_cons.
    assert (E : pre ++ sub :: subs = (pre ++ [sub]) ++ subs)
      by (rewrite <- app_assoc; reflexivity).
    rewrite E.
    replace (S (length pre)) with (length (pre ++ [sub]))
      by (rewrite length_app; cbn; lia).
    apply IH. rewrite <- E.
    replace (length (pre ++ [sub])) with (S (length pre))
      by (rewrite length_app; cbn; lia).
    apply found_step; [| exact I].
    rewrite nth_error_app2 by lia. rewrite Nat.sub_diag. reflexivity.
Qed.

Lemma search_all t subs :
  found_in subs t (length subs)
    (fst (search t 0 subs (-1) (-1))) (snd (search t 0 subs (-1) (-1))).
Proof.
  apply (search_found t subs [] (-1)%Z (-1)).
  left. repeat split. intros j sub L. cbn in L. lia.
Qed.

Lemma at_index_nat {A : Type} (a : list A) (i : nat) :
  JS.at_index a (Z.of_nat i) = nth_error a i.
Proof.
  unfold JS.at_index. destruct (Z.of_nat i <? 0)%Z eqn:E.
  - apply Z.ltb_lt in E. lia.
  - rewrite Nat2Z.id. reflexivity.
Qed.

Lemma at_index_none {A : Type} (a : list A) : JS.at_index a (-1) = None.
Proof. reflexivity. Qed.

(** The index that the loop finds is [-1] or one of the array. *)
Lemma search_index t subs :
  let k := fst (search t 0 subs (-1) (-1)) in
  k = (-1)%Z \/ (k <> (-1)%Z /\ exists sub, JS.at_index subs k = Some sub).
Proof.
  intros k. destruct (search_all t subs) as [(E & _) | (i & sub & _ & E & N & _)].
  - left. exact E.
  - right. fold k in E. rewrite E. split; [lia |].
    exists sub. rewrite at_index_nat. exact N.
Qed.

Lemma update_consistent t s :
  consistent s ->
  exists s',
    update t s = Some s' /\ consistent s' /\ subtitles s' = subtitles s /\
    activeIndex s' = fst (search t 0 (subtitles s) (-1) (-1)).
Proof.
  intros C. unfold update.
  set (k := fst (search t 0 (subtitles s) (-1) (-1))).
  destruct (k =? activeIndex s)%Z eqn:Same; cbn [negb].
  - apply Z.eqb_eq in Same. exists s. repeat split; auto.
  - destruct (search_index t (subtitles s)) as [E | (D & sub & E)]; fold k in E.
    + rewrite E. cbn [Z.eqb negb]. rewrite Pos.eqb_refl. cbn [negb].
      eexists. repeat split. left. split; reflexivity.
    + fold k in D. destruct (k =? -1)%Z eqn:K;
        [apply Z.eqb_eq in K; contradiction |]. cbn [negb].
      rewrite E. eexists. repeat split.
      right. exists sub. cbn. repeat split. exact E.
Qed.

Lemma setVisible_consistent visible s :
  consistent s ->
  consistent (setVisible visible s) /\
  subtitles (setVisible visible s) = subtitles s.
Proof.
  intros C. unfold setVisible. destruct visible; cbn [negb].
  - split; [exact C | reflexivity].
  - split; [| reflexivity]. left. split; reflexivity.
Qed.

Lemma run_consistent :
  forall es s,
    consistent s ->
    exists s', run es s = Some s' /\ consistent s' /\
               subtitles s' = subtitles s.
Proof.
  induction es as [| e es IH]; intros s C.
  - exists s. repeat split; auto.
  - cbn [run]. destruct e as [t | visible]; cbn [step].
    + destruct (update_consistent t s C) as (s1 & -> & C1 & S1 & _).
      destruct (IH s1 C1) as (s' & R & C' & S').
      exists s'. repeat split; auto. congruence.
    + destruct (setVisible_consistent visible s C) as [C1 S1].
      destruct (IH _ C1) as (s' & R & C' & S').
      exists s'. repeat split; auto. congruence.
Qed.

Lemma run_app es es' s :
  run (es ++ es') s =
  match run es s with Some s1 => run es' s1 | None => None end.
Proof.
  revert s. induction es as [| e es IH]; intros s; cbn [run app].
  - reflexivity.
  - destruct (step e s); [apply IH | reflexivity].
Qed.

Lemma init_consistent : consistent init.
Proof. left. split; reflexivity. Qed.

Lemma loaded_consistent subs s :
  consistent s -> subtitles s = [] -> consistent (loaded subs s).
Proof.
  intros [C | (sub & E & _)] N.
  - left. exact C.
  - rewrite N in E. unfold JS.at_index in E.
    destruct (activeIndex s <? 0)%Z; [discriminate |].
    destruct (Z.to_nat (activeIndex s)); discriminate.
Qed.

End Subtitles.

(** X18.  The index that the loop of [SubtitleOverlay.update] finds at the
    time [t]: [-1] when no entry that starts after [-1] is on at [t];
    otherwise the index of an entry that is on at [t], than which no entry
    on at [t] starts later, and the first such in the array. *)
Theorem subtitle_search :
  forall (t : R) (subs : list SubtitleOverlay.Subtitle),
    let k := fst (SubtitleOverlay.search t 0 subs (-1) (-1)) in
    (k = (-1)%Z /\
     forall sub, In sub subs -> on_at t sub -> SubtitleOverlay.start sub <= -1)
    \/
    (exists i sub,
        k = Z.of_nat i /\ nth_error subs i = Some sub /\ on_at t sub /\
        -1 < SubtitleOverlay.start sub /\
        forall j sub', nth_error subs j = Some sub' -> on_at t sub' ->
                       SubtitleOverlay.start sub' <= SubtitleOverlay.start sub /\
                       ((j < i)%nat ->
                        SubtitleOverlay.start sub' < SubtitleOverlay.start sub)).
Proof.
  intros t subs k.
  destruct (search_all t subs) as [(E & _ & P) | (i & sub & _ & E & N & O & M & Mi & P)].
  - left. split; [exact E |]. intros sub I O.
    destruct (In_nth_error _ _ I) as [j Ej].
    apply (P j sub); [| exact Ej | exact O].
    apply nth_error_Some. congruence.
  - right. exists i, sub. rewrite <- M. repeat split; try assumption; try apply O.
    + apply (P j sub'); [| assumption | assumption].
      apply nth_error_Some. congruence.
    + apply (P j sub'); [| assumption | assumption].
      apply nth_error_Some. congruence.
Qed.

(** X19.  After [update(t)] the overlay shows what the loop has found,
    whatever was called before and whenever the file of the subtitles has
    arrived: the call does not throw, the index is the one found, the
    element is transparent when it is [-1], and otherwise opaque with the
    text of the entry found. *)
Theorem subtitle_display :
  forall (before after : list SubtitleOverlay.event)
         (subs : list SubtitleOverlay.Subtitle) (t : R),
    let k := fst (SubtitleOverlay.search t 0 subs (-1) (-1)) in
    exists s,
      SubtitleOverlay.session before subs
        (after ++ [SubtitleOverlay.Update t]) = Some s /\
      SubtitleOverlay.subtitles s = subs /\
      SubtitleOverlay.activeIndex s = k /\
      (k = (-1)%Z -> SubtitleOverlay.opacity s = "0"%string) /\
      (k <> (-1)%Z ->
       exists sub,
         JS.at_index subs k = Some sub /\
         SubtitleOverlay.innerText s = SubtitleOverlay.text sub /\
         SubtitleOverlay.opacity s = "1"%string).
Proof.
  intros before after subs t k. unfold SubtitleOverlay.session.
  destruct (run_consistent before _ init_consistent) as (s0 & -> & C0 & S0).
  pose proof (loaded_consistent subs s0 C0 S0) as C1.
  rewrite run_app.
  destruct (run_consistent after _ C1) as (s1 & -> & C2 & S2).
  cbn [SubtitleOverlay.run SubtitleOverlay.step].
  destruct (update_consistent t s1 C2) as (s & -> & C & S & A).
  cbn [SubtitleOverlay.loaded SubtitleOverlay.subtitles] in S2.
  rewrite S2 in S, A. fold k in A.
  exists s. repeat split; try assumption.
  - intros K. destruct C as [[_ O] | (sub & E & _ & _)]; [exact O |].
    rewrite A, K in E. rewrite S in E. discriminate.
  - intros K. destruct C as [[I _] | (sub & E & T & O)]; [congruence |].
    exists sub. rewrite A, S in E. auto.
Qed.
(** X20.  When every entry starts after [-1], the loop finds [-1] exactly
    when no entry is on at [t]; and when one entry only is on at [t], as in
    a file whose entries do not overlap, it finds that entry. *)
Theorem subtitle_shown :
  forall (t : R) (subs : list SubtitleOverlay.Subtitle),
    Forall started subs ->
    let k := fst (SubtitleOverlay.search t 0 subs (-1) (-1)) in
    (k = (-1)%Z <-> forall sub, In sub subs -> ~ on_at t sub) /\
    (forall i sub,
        nth_error subs i = Some sub -> on_at t sub ->
        (forall j sub', nth_error subs j = Some sub' -> on_at t sub' -> j = i) ->
        k = Z.of_nat i).
Proof.
  intros t subs S k.
  assert (St : forall j sub, nth_error subs j = Some sub ->
                             -1 < SubtitleOverlay.start sub).
  { intros j sub E. apply nth_error_In in E.
    rewrite Forall_forall in S. apply (S _ E). }
  assert (Lt : forall j (sub : SubtitleOverlay.Subtitle),
             nth_error subs j = Some sub -> (j < length subs)%nat).
  { intros j sub E. apply nth_error_Some. congruence. }
  destruct (search_all t subs)
    as [(E & _ & P) | (i0 & sub0 & _ & E & N & O & _ & _ & _)]; fold k in E.
  - split.
    + split; [| intros _; exact E]. intros _ sub I On.
      destruct (In_nth_error _ _ I) as [j Ej].
      pose proof (P j sub (Lt _ _ Ej) Ej On). pose proof (St _ _ Ej). lra.
    + intros i sub Ei On _.
      pose proof (P i sub (Lt _ _ Ei) Ei On). pose proof (St _ _ Ei). lra.
  - split.
    + split; [intros K; lia |]. intros None. exfalso.
      apply (None sub0); [apply (nth_error_In _ _ N) | exact O].
    + intros i sub Ei On U. rewrite E. f_equal. apply (U _ _ N O).
Qed.

Lemma subtitle_shown_witness :
  let subs := [SubtitleOverlay.mkSubtitle 1 4.5 "one"%string;
               SubtitleOverlay.mkSubtitle 4.5 10 "two"%string] in
  Forall started subs /\
  fst (SubtitleOverlay.search 5 0 subs (-1) (-1)) = 1%Z.
Proof.
  assert (S : Forall started
                [SubtitleOverlay.mkSubtitle 1 4.5 "one"%string;
                 SubtitleOverlay.mkSubtitle 4.5 10 "two"%string]).
  { repeat constructor; unfold started; cbn; lra. }
  split; [exact S |].
  apply (proj2 (subtitle_shown 5 _ S) 1%nat
               (SubtitleOverlay.mkSubtitle 4.5 10 "two"%string)).
  - reflexivity.
  - unfold on_at. cbn. lra.
  - intros j sub' E On. destruct j as [| [| j]]; cbn in E.
    + inversion E; subst. unfold on_at in On. cbn in On. lra.
    + reflexivity.
    + destruct j; discriminate.
Defined.

(* ================================================================= *)
(** ** The virtual joystick *)

Section Joystick.
Import VirtualJoystick.

Lemma sqrt_sq_sum dx dy :
  sqrt (dx * dx + dy * dy) * sqrt (dx * dx + dy * dy) = dx * dx + dy * dy.
Proof. apply sqrt_sqrt. nra. Qed.

(** The axis and the knob after [handleMove], in the two cases. *)
Lemma handleMove_axis x y s :
  0 < baseRadius s ->
  let dx := x - centerX s in
  let dy := y - centerY s in
  let dist := sqrt (dx * dx + dy * dy) in
  let s' := handleMove x y s in
  (dist <= baseRadius s ->
   axisX s' = dx / baseRadius s /\ axisY s' = dy / baseRadius s /\
   knob s' = (dx, dy)) /\
  (baseRadius s < dist ->
   axisX s' = dx / dist /\ axisY s' = dy / dist /\
   knob s' = (dx / dist * baseRadius s, dy / dist * baseRadius s)).
Proof.
  intros P dx dy dist s'. unfold s', handleMove.
  fold dx dy. fold dist.
  destruct (Rgt_dec dist (baseRadius s)) as [G | G];
    cbn [fst snd updateKnobPosition axisX axisY knob baseRadius].
  - split; [intros L; lra |]. intros _.
    repeat split; field; lra.
  - split; [| intros L; lra]. intros _. repeat split.
Qed.

Lemma handleMove_disc x y s :
  0 < baseRadius s ->
  let s' := handleMove x y s in
  axisX s' * axisX s' + axisY s' * axisY s' <= 1 /\
  knob s' = (axisX s' * baseRadius s, axisY s' * baseRadius s) /\
  baseRadius s' = baseRadius s /\ pointerId s' = pointerId s /\
  active s' = active s.
Proof.
  intros P s'.
  pose proof (handleMove_axis x y s P) as [In Out].
  cbv zeta in In, Out. fold s' in In, Out.
  set (dx := x - centerX s) in *. set (dy := y - centerY s) in *.
  pose proof (sqrt_sq_sum dx dy) as Q.
  set (dist := sqrt (dx * dx + dy * dy)) in *.
  assert (Rest : baseRadius s' = baseRadius s /\ pointerId s' = pointerId s /\
                 active s' = active s) by (repeat split).
  destruct (Rle_dec dist (baseRadius s)) as [L | L].
  - destruct (In L) as (-> & -> & ->).
    assert (D : 0 <= dist) by apply sqrt_pos.
    split; [| split; [f_equal; field; lra | exact Rest]].
    replace (dx / baseRadius s * (dx / baseRadius s) +
             dy / baseRadius s * (dy / baseRadius s))
      with ((dx * dx + dy * dy) / (baseRadius s * baseRadius s))
      by (field; lra).
    rewrite <- Q.
    assert (Sq : dist * dist <= baseRadius s * baseRadius s) by nra.
    assert (Pos : 0 < baseRadius s * baseRadius s) by nra.
    apply (Rmult_le_reg_r (baseRadius s * baseRadius s)); [exact Pos |].
    unfold Rdiv. rewrite Rmult_assoc, Rinv_l by lra. lra.
  - destruct Out as (-> & -> & ->); [lra |].
    split; [| split; [reflexivity | exact Rest]].
    replace (dx / dist * (dx / dist) + dy / dist * (dy / dist))
      with ((dx * dx + dy * dy) / (dist * dist)) by (field; lra).
    rewrite <- Q. right. field. lra.
Qed.

Lemma init_centred : centred init.
Proof.
  unfold centred, init. cbn. repeat split; try lra; try discriminate.
  - intros N. contradiction.
  - f_equal; lra.
Qed.

Lemma handleMove_centred x y s :
  0 < baseRadius s -> active s = true -> pointerId s <> None ->
  centred (handleMove x y s).
Proof.
  intros P A I.
  destruct (handleMove_disc x y s P) as (D & K & B & Ip & Ap).
  cbv zeta in *. unfold centred. rewrite B, Ip, Ap.
  split; [exact P |]. split; [tauto |]. split; [congruence |].
  split; [exact D | exact K].
Qed.

Lemma other_pointer_held id s :
  other_pointer id s = false -> pointerId s = Some id.
Proof.
  unfold other_pointer. destruct (pointerId s) as [p |]; [| discriminate].
  intros E. apply negb_false_iff in E. apply Z.eqb_eq in E. congruence.
Qed.

Lemma endMove_centred id s : centred s -> centred (endMove id s).
Proof.
  intros C. unfold endMove. destruct (other_pointer id s); [exact C |].
  destruct C as (P & _). unfold centred. cbn.
  split; [exact P |]. split; [split; [discriminate | intros N; contradiction] |].
  split; [intros _; repeat split |]. split; [lra | f_equal; lra].
Qed.

Lemma step_centred e s : framed e -> centred s -> centred (step e s).
Proof.
  intros F C. destruct e as [id x y rect | id x y | id | id]; cbn [step].
  - unfold pointerdown. destruct (pointerId s) eqn:E; [exact C |].
    cbn [framed] in F. apply handleMove_centred; cbn; [lra | reflexivity | discriminate].
  - unfold pointermove. destruct (other_pointer id s) eqn:O; [exact C |].
    apply other_pointer_held in O. destruct C as (P & A & _).
    apply handleMove_centred; [exact P | | congruence].
    apply A. congruence.
  - apply endMove_centred. exact C.
  - apply endMove_centred. exact C.
Qed.

Lemma run_centred :
  forall es s, Forall framed es -> centred s -> centred (run es s).
Proof.
  unfold run. induction es as [| e es IH]; intros s F C; cbn [fold_left].
  - exact C.
  - inversion F; subst. apply IH; [assumption |].
    apply step_centred; assumption.
Qed.

Lemma step_foreign id e s :
  pointerId s = Some id -> foreign id e -> step e s = s.
Proof.
  intros I F.
  assert (O : forall id', id' <> id -> other_pointer id' s = true).
  { intros id' D. unfold other_pointer. rewrite I.
    apply negb_true_iff. apply Z.eqb_neq. congruence. }
  destruct e as [id' x y rect | id' x y | id' | id']; cbn [step foreign] in *.
  - unfold pointerdown. rewrite I. reflexivity.
  - unfold pointermove. rewrite (O _ F). reflexivity.
  - unfold endMove. rewrite (O _ F). reflexivity.
  - unfold endMove. rewrite (O _ F). reflexivity.
Qed.

End Joystick.

(** X21.  [handleMove] for a base of positive radius: within the base the
    axis is the offset of the pointer from the center divided by the
    radius, beyond it the unit vector towards the pointer; in both cases
    the axis lies in the unit disc and the knob sits at the axis times the
    radius. *)
Theorem joystick_axis :
  forall (x y : R) (s : VirtualJoystick.t),
    0 < VirtualJoystick.baseRadius s ->
    let dx := x - VirtualJoystick.centerX s in
    let dy := y - VirtualJoystick.centerY s in
    let dist := sqrt (dx * dx + dy * dy) in
    let s' := VirtualJoystick.handleMove x y s in
    let ax := VirtualJoystick.axisX s' in
    let ay := VirtualJoystick.axisY s' in
    ax * ax + ay * ay <= 1 /\
    VirtualJoystick.knob s' =
    (ax * VirtualJoystick.baseRadius s, ay * VirtualJoystick.baseRadius s) /\
    (dist <= VirtualJoystick.baseRadius s ->
     ax = dx / VirtualJoystick.baseRadius s /\
     ay = dy / VirtualJoystick.baseRadius s) /\
    (VirtualJoystick.baseRadius s < dist ->
     ax = dx / dist /\ ay = dy / dist /\ ax * ax + ay * ay = 1).
Proof.
  intros x y s P dx dy dist s' ax ay.
  destruct (handleMove_disc x y s P) as (D & K & _).
  destruct (handleMove_axis x y s P) as [In Out].
  cbv zeta in *. fold dx dy in In, Out. fold dist in In, Out.
  fold s' in D, K, In, Out. fold ax ay in D, K, In, Out.
  split; [exact D |]. split; [exact K |]. split.
  - intros L. destruct (In L) as (X & Y & _). split; assumption.
  - intros L. destruct (Out L) as (X & Y & _).
    split; [exact X |]. split; [exact Y |].
    rewrite X, Y.
    pose proof (sqrt_sq_sum dx dy) as Q. fold dist in Q.
    assert (0 < dist) by (pose proof (VirtualJoystick.baseRadius s); lra).
    replace (dx / dist * (dx / dist) + dy / dist * (dy / dist))
      with ((dx * dx + dy * dy) / (dist * dist)) by (field; lra).
    rewrite <- Q. field. lra.
Qed.

Lemma joystick_axis_witness :
  let s := VirtualJoystick.pointerdown 1 0 0 (VirtualJoystick.mkRect 0 0 120 120)
             VirtualJoystick.init in
  0 < VirtualJoystick.baseRadius s /\
  VirtualJoystick.axisX (VirtualJoystick.handleMove 90 60 s) = 1 / 2.
Proof.
  assert (P : 0 < VirtualJoystick.baseRadius
                    (VirtualJoystick.pointerdown 1 0 0
                       (VirtualJoystick.mkRect 0 0 120 120)
                       VirtualJoystick.init)).
  { unfold VirtualJoystick.pointerdown. cbn. lra. }
  split; [exact P |].
  destruct (joystick_axis 90 60 _ P) as (_ & _ & In & _).
  cbv zeta in In.
  assert (C : VirtualJoystick.centerX
                (VirtualJoystick.pointerdown 1 0 0
                   (VirtualJoystick.mkRect 0 0 120 120)
                   VirtualJoystick.init) = 60 /\
              VirtualJoystick.centerY
                (VirtualJoystick.pointerdown 1 0 0
                   (VirtualJoystick.mkRect 0 0 120 120)
                   VirtualJoystick.init) = 60 /\
              VirtualJoystick.baseRadius
                (VirtualJoystick.pointerdown 1 0 0
                   (VirtualJoystick.mkRect 0 0 120 120)
                   VirtualJoystick.init) = 60).
  { unfold VirtualJoystick.pointerdown. cbn. repeat split; lra. }
  destruct C as (Cx & Cy & Cr). rewrite Cx, Cy, Cr in In.
  destruct In as [X _].
  - replace ((90 - 60) * (90 - 60) + (60 - 60) * (60 - 60)) with (30 * 30)
      by lra.
    rewrite sqrt_square; lra.
  - rewrite X. lra.
Defined.

(** X22.  The joystick all along, when the base has a width each time a
    pointer goes down on it: it is active exactly while it holds a
    pointer; released, the axis is zero and the knob is in the middle; the
    axis stays in the unit disc, with the knob at the axis times the
    radius; and while a pointer is held, the events of the other pointers
    change nothing. *)
Theorem joystick_session :
  forall (es : list VirtualJoystick.event),
    Forall framed es ->
    let s := VirtualJoystick.run es VirtualJoystick.init in
    (VirtualJoystick.active s = true <-> VirtualJoystick.pointerId s <> None) /\
    (VirtualJoystick.active s = false ->
     VirtualJoystick.axisX s = 0 /\ VirtualJoystick.axisY s = 0 /\
     VirtualJoystick.knob s = (0, 0)) /\
    VirtualJoystick.axisX s * VirtualJoystick.axisX s +
    VirtualJoystick.axisY s * VirtualJoystick.axisY s <= 1 /\
    VirtualJoystick.knob s =
    (VirtualJoystick.axisX s * VirtualJoystick.baseRadius s,
     VirtualJoystick.axisY s * VirtualJoystick.baseRadius s) /\
    (forall id e, VirtualJoystick.pointerId s = Some id -> foreign id e ->
                  VirtualJoystick.step e s = s).
Proof.
  intros es F s.
  destruct (run_centred es _ F init_centred) as (_ & A & Z & D & K).
  fold s in A, Z, D, K.
  split; [exact A |]. split; [exact Z |]. split; [exact D |].
  split; [exact K |]. intros id e I Fe. apply (step_foreign id); assumption.
Qed.

Lemma joystick_session_witness :
  let es := [VirtualJoystick.PointerDown 1 200 60
               (VirtualJoystick.mkRect 0 0 120 120);
             VirtualJoystick.PointerMove 2 0 0;
             VirtualJoystick.PointerUp 1] in
  Forall framed es /\
  VirtualJoystick.active (VirtualJoystick.run es VirtualJoystick.init) = false.
Proof.
  assert (F : Forall framed
                [VirtualJoystick.PointerDown 1 200 60
                   (VirtualJoystick.mkRect 0 0 120 120);
                 VirtualJoystick.PointerMove 2 0 0;
                 VirtualJoystick.PointerUp 1]).
  { repeat constructor. cbn. lra. }
  split; [exact F |].
  destruct (joystick_session _ F) as (A & _).
  cbv zeta in A.
  destruct (VirtualJoystick.active _) eqn:E; [| reflexivity].
  exfalso. apply (proj1 A eq_refl).
  unfold VirtualJoystick.run. cbn [fold_left VirtualJoystick.step].
  unfold VirtualJoystick.endMove, VirtualJoystick.pointermove,
    VirtualJoystick.pointerdown.
  cbn. reflexivity.
Defined.

(* ================================================================= *)
(** ** The audio: when the music and the narration start *)

Section Audio.
Import AudioManager.

Ltac flags :=
  repeat split; intros; try discriminate; try reflexivity; try assumption;
  try lra; try tauto.

Lemma init_cued : cued init.
Proof. unfold cued, init. cbn. flags. Qed.

Lemma resume_cued a : cued a -> cued (resume a).
Proof.
  destruct a as [en ms ns wt nt wg mg mu na]. unfold cued, resume. cbn.
  intros (H1 & H2 & H3 & H4 & H5 & H6 & H7 & H8).
  destruct ms, ns; flags; try (apply H3; assumption); try (apply H4; assumption).
Qed.

Lemma update_cued dt w a : cued a -> cued (update dt w a).
Proof.
  destruct a as [en ms ns wt nt wg mg mu na].
  unfold cued, update, startMusic, startNarration. cbn.
  intros (H1 & H2 & H3 & H4 & H5 & H6 & H7 & H8).
  destruct en, w, ms, ns; cbn;
    repeat match goal with
           | |- context [Rge_dec ?a ?b] => destruct (Rge_dec a b); cbn
           end;
    flags;
    try (apply H3; assumption); try (apply H4; assumption);
    try (exfalso; apply H3 in H; lra); try (exfalso; apply H4 in H; lra);
    try (specialize (H1 eq_refl); discriminate);
    try (specialize (H2 eq_refl); discriminate).
Qed.

Lemma step_cued e a : cued a -> cued (step e a).
Proof.
  destruct e as [| dt w]; cbn [step];
    [apply resume_cued | apply update_cued].
Qed.

Lemma run_cued : forall es a, cued a -> cued (run es a).
Proof.
  unfold run. induction es as [| e es IH]; intros a C; cbn [fold_left].
  - exact C.
  - apply IH. apply step_cued. exact C.
Qed.

(** What has started stays started. *)
Lemma step_keeps e a :
  (isEnabled a = true -> isEnabled (step e a) = true) /\
  (musicStarted a = true -> musicStarted (step e a) = true) /\
  (narrationStarted a = true -> narrationStarted (step e a) = true).
Proof.
  destruct a as [en ms ns wt nt wg mg mu na].
  destruct e as [| dt w]; cbn [step]; unfold resume, update, startMusic,
    startNarration; cbn.
  - flags.
  - destruct en, w, ms, ns; cbn;
      repeat match goal with
             | |- context [Rge_dec ?a ?b] => destruct (Rge_dec a b); cbn
             end;
      flags.
Qed.

Lemma run_keeps :
  forall es a,
    (isEnabled a = true -> isEnabled (run es a) = true) /\
    (musicStarted a = true -> musicStarted (run es a) = true) /\
    (narrationStarted a = true -> narrationStarted (run es a) = true).
Proof.
  unfold run. induction es as [| e es IH]; intros a; cbn [fold_left].
  - tauto.
  - destruct (step_keeps e a) as (K1 & K2 & K3).
    destruct (IH (step e a)) as (I1 & I2 & I3). tauto.
Qed.

Lemma update_enabled dt w a : isEnabled (update dt w a) = isEnabled a.
Proof.
  destruct a as [en ms ns wt nt wg mg mu na].
  unfold update, startMusic, startNarration. cbn.
  destruct en, w, ms, ns; cbn;
    repeat match goal with
           | |- context [Rge_dec ?a ?b] => destruct (Rge_dec a b); cbn
           end;
    reflexivity.
Qed.

Lemma run_enabled :
  forall es a,
    isEnabled (run es a) = true <-> (isEnabled a = true \/ In Resume es).
Proof.
  unfold run. induction es as [| e es IH]; intros a; cbn [fold_left In].
  - tauto.
  - rewrite IH. destruct e as [| dt w]; cbn [step].
    + cbn. split; [intros _; right; left; reflexivity | intros _; left; reflexivity].
    + rewrite update_enabled. split; [tauto |].
      intros [E | [E | E]]; [tauto | discriminate | tauto].
Qed.



End Audio.

(** X23.  The cues of the audio after any session: the narration has
    started only if the music has, and the music only after [resume()]; the
    music has started exactly when its timer has reached 10, the narration
    exactly when its timer has reached 4; [play()] has been called on
    exactly what has started; the manager is enabled exactly when
    [resume()] was called; and what has started stays started. *)
Theorem audio_cues :
  forall (es : list AudioManager.event),
    let a := AudioManager.run es AudioManager.init in
    (AudioManager.narrationStarted a = true ->
     AudioManager.musicStarted a = true) /\
    (AudioManager.musicStarted a = true -> AudioManager.isEnabled a = true) /\
    (AudioManager.musicStarted a = true <-> 10 <= AudioManager.walkTimer a) /\
    (AudioManager.narrationStarted a = true <->
     4 <= AudioManager.narrationTimer a) /\
    AudioManager.music a = AudioManager.musicStarted a /\
    AudioManager.narration a = AudioManager.narrationStarted a /\
    (AudioManager.isEnabled a = true <-> In AudioManager.Resume es) /\
    (forall es',
        let a' := AudioManager.run es' a in
        (AudioManager.isEnabled a = true -> AudioManager.isEnabled a' = true) /\
        (AudioManager.musicStarted a = true ->
         AudioManager.musicStarted a' = true) /\
        (AudioManager.narrationStarted a = true ->
         AudioManager.narrationStarted a' = true)).
Proof.
  intros es a.
  destruct (run_cued es _ init_cued) as (H1 & H2 & H3 & H4 & H5 & H6 & _).
  fold a in H1, H2, H3, H4, H5, H6.
  repeat (split; [assumption |]). split.
  - unfold a. rewrite run_enabled. cbn. split; [| tauto].
    intros [E | E]; [discriminate | exact E].
  - intros es'. apply run_keeps.
Qed.



(* ================================================================= *)
(** ** The application: walking timer and cinematic camera *)

Section Application.
Import App.

Lemma at_index_in {A : Type} (a : list A) (k : Z) :
  (0 <= k < Z.of_nat (length a))%Z ->
  exists v, JS.at_index a k = Some v /\ In v a.
Proof.
  intros [L U]. unfold JS.at_index.
  destruct (k <? 0)%Z eqn:E; [apply Z.ltb_lt in E; lia |].
  destruct (nth_error a (Z.to_nat k)) as [v |] eqn:N.
  - exists v. split; [reflexivity |]. apply (nth_error_In _ _ N).
  - apply nth_error_None in N. lia.
Qed.

Lemma floor_below (n : Z) r :
  (0 < n)%Z -> 0 <= r < 1 -> (0 <= JS.Math_floor (r * IZR n) < n)%Z.
Proof.
  intros P [L U]. unfold JS.Math_floor.
  destruct (base_Int_part (r * IZR n)) as [A B].
  assert (N : 0 < IZR n) by (apply IZR_lt in P; exact P).
  assert (Lo : IZR (-1) < IZR (Int_part (r * IZR n))) by nra.
  assert (Hi : IZR (Int_part (r * IZR n)) < IZR n) by nra.
  apply lt_IZR in Lo. apply lt_IZR in Hi. lia.
Qed.

Lemma pick_unfold a h :
  pickRandomCinematicOffset a h =
  match JS.at_index presets
          (JS.Math_floor (Host.rand h (Host.rand_pos h) * INR (length presets)))
  with
  | Some v =>
      (Some (set_offset v a),
       Host.mk (Host.rand h) (S (Host.rand_pos h)) (Host.clock h)
               (Host.clock_pos h))
  | None =>
      (None,
       Host.mk (Host.rand h) (S (Host.rand_pos h)) (Host.clock h)
               (Host.clock_pos h))
  end.
Proof.
  unfold pickRandomCinematicOffset, Host.bind, Host.Math_random.
  destruct (JS.at_index presets _); reflexivity.
Qed.

(** With a draw in [[0, 1)] the index is one of the array, the call does
    not throw, and the offset is one of the presets. *)
Lemma pick_preset a h :
  Host.fair h ->
  exists v h',
    pickRandomCinematicOffset a h = (Some (set_offset v a), h') /\
    In v presets /\ Host.fair h'.
Proof.
  intros F. rewrite pick_unfold.
  rewrite INR_IZR_INZ.
  destruct (at_index_in presets
              (JS.Math_floor (Host.rand h (Host.rand_pos h) *
                              IZR (Z.of_nat (length presets)))))
    as (v & -> & I).
  { apply floor_below; [cbn; lia | apply F]. }
  eexists _, _. split; [reflexivity |]. split; [exact I |].
  apply (fair_rand h); [reflexivity | exact F].
Qed.

Lemma set_offset_directed v a :
  In v presets -> directed a -> directed (set_offset v a).
Proof.
  intros I (W & C & _ & A). unfold directed. cbn [set_offset walkingTimer
    isCinematicMode cinematicTimer cinematicPhaseTimer currentCinematicOffset
    hasInteracted audioManager].
  split; [exact W |]. split; [exact C |]. split; [right; exact I | exact A].
Qed.

Lemma trigger_directed a h :
  Host.fair h -> directed a ->
  exists a' h',
    triggerCinematic a h = (Some a', h') /\ directed a' /\ Host.fair h'.
Proof.
  intros F D. unfold triggerCinematic.
  destruct (isCinematicMode a) eqn:Mo.
  - exists a, h. split; [reflexivity | split; assumption].
  - destruct (pick_preset (set_cinematic true 10 0 a) h F) as (v & h' & -> & I & F').
    eexists _, _. split; [reflexivity |]. split; [| exact F'].
    apply set_offset_directed; [exact I |].
    destruct D as (W & _ & O & A). unfold directed. cbn.
    split; [exact W |]. split; [intros _; lra |]. split; [exact O | exact A].
Qed.

Lemma handleInteraction_directed a :
  directed a -> directed (handleInteraction a).
Proof.
  intros D. unfold handleInteraction.
  destruct (hasInteracted a) eqn:H; cbn [negb]; [exact D |].
  destruct D as (W & C & O & A). unfold directed. cbn.
  split; [exact W |]. split; [exact C |]. split; [exact O | reflexivity].
Qed.

Lemma set_forward_directed b a : directed a -> directed (set_forward b a).
Proof. intros D. exact D. Qed.

Lemma auto_directed dt a h :
  0 <= dt -> Host.fair h -> directed a ->
  exists a' h',
    autoCinematic dt a h = (Some a', h') /\ directed a' /\ Host.fair h'.
Proof.
  intros P F D. unfold autoCinematic.
  destruct D as (W & C & O & A).
  destruct (input_forward a).
  - cbn [set_walkingTimer walkingTimer].
    destruct (Rgt_dec (walkingTimer a + dt) 25) as [G | G].
    + apply trigger_directed; [exact F |].
      unfold directed. cbn. split; [lra |]. auto.
    + eexists _, _. split; [reflexivity |]. split; [| exact F].
      unfold directed. cbn. split; [lra |]. auto.
  - eexists _, _. split; [reflexivity |]. split; [| exact F].
    unfold directed. cbn. split; [| auto].
    split; [apply Rmax_l |]. apply Rmax_lub; lra.
Qed.

Lemma cinematic_directed dt a h :
  0 <= dt -> Host.fair h -> directed a ->
  exists a' v h',
    cinematic dt a h = (Some (a', v), h') /\ directed a' /\ Host.fair h' /\
    In v (DEFAULT_OFFSET :: presets).
Proof.
  intros P F D. unfold cinematic.
  destruct (isCinematicMode a) eqn:Mo.
  - destruct D as (W & C & O & A). destruct (C Mo) as [Ct Cp].
    unfold and_then, Host.bind.
    cbn [set_cinematic cinematicPhaseTimer cinematicTimer].
    destruct (Rgt_dec (cinematicPhaseTimer a + dt) 2.5) as [G | G].
    + match goal with
      | |- context [pickRandomCinematicOffset ?b h] =>
          destruct (pick_preset b h F) as (v & h' & -> & I & F')
      end.
      cbn [set_offset set_cinematic cinematicTimer cinematicPhaseTimer
           currentCinematicOffset].
      destruct (Rle_dec (cinematicTimer a - dt) 0) as [E | E]; unfold Host.ret.
      * eexists _, _, _. split; [reflexivity |]. split; [| split; [exact F' |]].
        -- unfold directed. cbn. split; [exact W |].
           split; [intros X; discriminate |]. split; [right; exact I | exact A].
        -- left. reflexivity.
      * eexists _, _, _. split; [reflexivity |]. split; [| split; [exact F' |]].
        -- unfold directed. cbn. split; [exact W |].
           split; [intros _; lra |]. split; [right; exact I | exact A].
        -- right. exact I.
    + unfold Host.ret.
      cbn [set_cinematic cinematicTimer cinematicPhaseTimer
           currentCinematicOffset].
      destruct (Rle_dec (cinematicTimer a - dt) 0) as [E | E].
      * eexists _, _, _. split; [reflexivity |]. split; [| split; [exact F |]].
        -- unfold directed. cbn. split; [exact W |].
           split; [intros X; discriminate |]. split; [exact O | exact A].
        -- left. reflexivity.
      * eexists _, _, _. split; [reflexivity |]. split; [| split; [exact F |]].
        -- unfold directed. cbn. split; [exact W |].
           split; [intros _; lra |]. split; [exact O | exact A].
        -- exact O.
  - eexists _, _, _. split; [reflexivity |]. split; [exact D |].
    split; [exact F | left; reflexivity].
Qed.

Lemma animate_directed dt penguin a h :
  0 <= dt -> Host.fair h -> directed a ->
  exists a' h',
    animate dt penguin a h = (Some a', h') /\ directed a' /\ Host.fair h'.
Proof.
  intros P F D. unfold animate.
  set (a0 := set_audio _ a).
  assert (D0 : directed a0).
  { destruct D as (W & C & O & A). unfold directed, a0. cbn.
    rewrite update_enabled. auto. }
  unfold and_then at 1. unfold Host.bind at 1.
  destruct (auto_directed dt a0 h P F D0) as (a1 & h1 & -> & D1 & F1).
  unfold and_then, Host.bind.
  destruct (cinematic_directed dt a1 h1 P F1 D1) as (a2 & v & h2 & -> & D2 & F2 & _).
  eexists _, _. split; [reflexivity |]. split; [| exact F2].
  exact D2.
Qed.

Lemma step_directed e a h :
  forward_app e -> Host.fair h -> directed a ->
  exists a' h', step e a h = (Some a', h') /\ directed a' /\ Host.fair h'.
Proof.
  intros P F D.
  destruct e as [code | code | | | | dt penguin]; cbn [step].
  - unfold onKeyDown.
    assert (D1 : directed (if is_forward code
                           then set_forward true (handleInteraction a)
                           else handleInteraction a)).
    { destruct (is_forward code);
        [apply set_forward_directed |]; apply handleInteraction_directed;
        exact D. }
    destruct (String.eqb code "KeyC").
    + apply trigger_directed; assumption.
    + eexists _, _. split; [reflexivity |]. split; [exact D1 | exact F].
  - eexists _, _. split; [reflexivity |]. split; [| exact F].
    unfold onKeyUp. destruct (is_forward code); exact D.
  - eexists _, _. split; [reflexivity |]. split; [| exact F].
    apply set_forward_directed. apply handleInteraction_directed. exact D.
  - eexists _, _. split; [reflexivity |]. split; [| exact F]. exact D.
  - eexists _, _. split; [reflexivity |]. split; [| exact F].
    apply handleInteraction_directed. exact D.
  - apply animate_directed; assumption.
Qed.

Lemma run_directed :
  forall es a h,
    Forall forward_app es -> Host.fair h -> directed a ->
    exists a' h', run es a h = (Some a', h') /\ directed a' /\ Host.fair h'.
Proof.
  induction es as [| e es IH]; intros a h P F D; cbn [run].
  - exists a, h. split; [reflexivity | split; assumption].
  - inversion P as [| ? ? Pe Ps]; subst.
    unfold and_then, Host.bind.
    destruct (step_directed e a h Pe F D) as (a1 & h1 & -> & D1 & F1).
    apply IH; assumption.
Qed.

Lemma init_directed : directed init.
Proof.
  unfold directed, init. cbn. split; [lra |].
  split; [intros X; discriminate |]. split; [left; reflexivity | reflexivity].
Qed.

End Application.

(** X25.  A session of the application in which no frame runs backwards,
    with draws in [[0, 1)]: no call throws; the walking timer stays within
    [[0, 25]]; in cinematic mode the cinematic timer is in [(0, 10]] and
    the phase timer in [[0, 2.5]]; the cinematic offset is the default one
    or one of the seven presets; and the audio is enabled exactly when the
    user has interacted. *)
Theorem app_timers :
  forall (es : list App.event) (h : Host.t),
    Forall forward_app es -> Host.fair h ->
    exists a h',
      App.run es App.init h = (Some a, h') /\
      0 <= App.walkingTimer a <= 25 /\
      (App.isCinematicMode a = true ->
       0 < App.cinematicTimer a <= 10 /\
       0 <= App.cinematicPhaseTimer a <= 2.5) /\
      In (App.currentCinematicOffset a) (App.DEFAULT_OFFSET :: App.presets) /\
      App.hasInteracted a = AudioManager.isEnabled (App.audioManager a).
Proof.
  intros es h P F.
  destruct (run_directed es _ h P F init_directed) as (a & h' & E & D & _).
  exists a, h'. split; [exact E | exact D].
Qed.

Lemma app_timers_witness :
  let es := [App.KeyDown "KeyW"%string; App.Animate 26 Sample.origin;
             App.Animate 1 Sample.origin] in
  Forall forward_app es /\ Host.fair (Sample.host 0) /\
  exists a h',
    App.run es App.init (Sample.host 0) = (Some a, h') /\
    0 <= App.walkingTimer a <= 25.
Proof.
  assert (P : Forall forward_app
                [App.KeyDown "KeyW"%string; App.Animate 26 Sample.origin;
                 App.Animate 1 Sample.origin]).
  { repeat constructor; cbn; lra. }
  assert (F : Host.fair (Sample.host 0)) by (intros n; cbn; lra).
  split; [exact P |]. split; [exact F |].
  destruct (app_timers _ (Sample.host 0) P F) as (a & h' & E & W & _).
  exists a, h'. split; [exact E | exact W].
Defined.

(* ================================================================= *)
(** ** The player: where the footprints lie *)

Section Pace.
Import Penguin.

Lemma strongly_snoc {A : Type} (Q : A -> A -> Prop) l b :
  StronglySorted Q l -> Forall (fun a => Q a b) l ->
  StronglySorted Q (l ++ [b]).
Proof.
  induction l as [| a l IH]; intros S F; cbn [app].
  - constructor; constructor.
  - inversion S as [| ? ? S' Fa]; subst. inversion F as [| ? ? Ha F']; subst.
    constructor; [apply IH; assumption |].
    apply Forall_app. split; [exact Fa | constructor; [exact Ha | constructor]].
Qed.

Lemma strongly_tl {A : Type} (Q : A -> A -> Prop) l :
  StronglySorted Q l -> StronglySorted Q (tl l).
Proof. intros S. destruct l; [exact S |]. inversion S; assumption. Qed.

Lemma fade_z dt fp : fp_z (fade dt fp) = fp_z fp.
Proof. reflexivity. Qed.

Lemma apart_decay dt fps :
  StronglySorted apart fps -> StronglySorted apart (Spec.decay dt fps).
Proof.
  induction fps as [| fp fps IH]; intros S.
  - exact S.
  - inversion S as [| ? ? S' F]; subst.
    unfold Spec.decay in *. cbn [filter].
    destruct (Spec.survives dt fp); [| apply IH, S'].
    cbn [map]. constructor; [apply IH, S' |].
    apply Forall_forall. intros b Hb.
    apply in_map_iff in Hb. destruct Hb as (b0 & <- & Hb0).
    apply filter_In in Hb0. destruct Hb0 as [Hb0 _].
    rewrite Forall_forall in F. specialize (F b0 Hb0).
    unfold apart in *. rewrite !fade_z. exact F.
Qed.

Lemma positions_decay (Q : Footprint -> Prop) dt fps :
  (forall fp, Q fp -> Q (fade dt fp)) ->
  Forall Q fps -> Forall Q (Spec.decay dt fps).
Proof.
  intros K F. apply Forall_forall. intros fp H.
  destruct (decay_members dt fps fp H) as (fp0 & I & -> & _).
  rewrite Forall_forall in F. apply K, F, I.
Qed.

(** The waddle runs four times as fast as the player moves. *)
Lemma pace_step (w z dt m : R) :
  w = 4 * z ->
  w + dt * (waddleSpeed * m) = 4 * (z + moveSpeed * m * dt).
Proof. intros ->. unfold waddleSpeed, moveSpeed. lra. Qed.

Lemma set_footprints_paced dt p :
  paced p -> paced (set_footprints p (Spec.decay dt (footprints p))).
Proof.
  intros (X & W & S & F). unfold paced.
  cbn [set_footprints position walkTime footprints lastStepTime].
  split; [exact X |]. split; [exact W |]. split; [apply apart_decay, S |].
  apply positions_decay; [| exact F]. intros fp H. exact H.
Qed.

Lemma update_paced dt moving speedMultiplier p q :
  paced p -> update dt moving speedMultiplier p = Some q -> paced q.
Proof.
  intros P. pose proof (set_footprints_paced dt p P) as P1.
  unfold update. rewrite updateFootprints_decay.
  set (p1 := set_footprints p (Spec.decay dt (footprints p))) in *.
  destruct (negb (body p1)); [intros E; injection E as <-; exact P1 |].
  destruct (negb moving); [intros E; injection E as <-; exact P1 |].
  destruct P1 as (X & W & S & F).
  set (m := match speedMultiplier with Some s => s | None => 1.0 end).
  cbn [position walkTime lastStepTime isLeftStep footprints body rotation_y
       rotation_z footprintTexture footprintNormal allocated].
  assert (W' : walkTime p1 + dt * (waddleSpeed * m)
               = 4 * (Vector3.z (position p1) + moveSpeed * m * dt))
    by (apply pace_step; exact W).
  destruct (Rgt_dec (walkTime p1 + dt * (waddleSpeed * m) - lastStepTime p1) PI)
    as [G | G]; intros E; injection E as <-.
  - unfold spawnFootprint.
    cbn [position walkTime lastStepTime isLeftStep footprints body rotation_y
         rotation_z footprintTexture footprintNormal allocated Vector3.x
         Vector3.y Vector3.z].
    assert (Older : Forall (fun fp =>
                4 * fp_z fp <= walkTime p1 + dt * (waddleSpeed * m) /\ beside fp)
              (footprints p1)).
    { eapply Forall_impl; [| exact F]. cbv beta. intros fp [L B].
      split; [| exact B]. pose proof PI_RGT_0. lra. }
    destruct (negb (footprintTexture p) || negb (footprintNormal p)).
    + unfold paced. cbn. split; [exact X |]. split; [exact W' |].
      split; [exact S | exact Older].
    + set (fp := newFootprint _ _ _).
      assert (Z : fp_z fp = Vector3.z (position p1) + moveSpeed * m * dt)
        by reflexivity.
      assert (S1 : StronglySorted apart (footprints p1 ++ [fp])).
      { apply strongly_snoc; [exact S |].
        eapply Forall_impl; [| exact F]. cbv beta. intros a [L _].
        unfold apart. rewrite Z. lra. }
      assert (F1 : Forall (fun fp =>
                  4 * fp_z fp <= walkTime p1 + dt * (waddleSpeed * m) /\
                  beside fp) (footprints p1 ++ [fp])).
      { apply Forall_app. split; [exact Older |].
        constructor; [| constructor]. split; [rewrite Z; lra |].
        assert (X0 : Vector3.x (position p) = 0) by exact X.
        unfold beside, fp. cbn. rewrite X0.
        destruct (isLeftStep p); [left | right]; lra. }
      match goal with
      | |- context [if ?c then tl _ else _] => destruct c
      end; unfold paced;
        cbn [position walkTime footprints lastStepTime Vector3.x Vector3.z];
        (split; [exact X |]); (split; [exact W' |]).
      * split; [apply strongly_tl, S1 | apply Forall_tl, F1].
      * split; [exact S1 | exact F1].
  - unfold paced. cbn. split; [exact X |]. split; [exact W' |].
    split; [exact S | exact F].
Qed.

Lemma step_paced e p q : own_steps e -> paced p -> step e p = Some q -> paced q.
Proof.
  destruct e as [| | pos l | dt | dt moving sm]; cbn [step own_steps];
    intros O P E.
  - injection E as <-. exact P.
  - injection E as <-. exact P.
  - contradiction.
  - rewrite updateFootprints_decay in E. injection E as <-.
    apply set_footprints_paced, P.
  - apply (update_paced dt moving sm p q P E).
Qed.

Lemma run_paced :
  forall es p, Forall own_steps es -> paced p ->
               exists q, run es p = Some q /\ paced q.
Proof.
  induction es as [| e es IH]; intros p O P; cbn [run].
  - exists p. split; [reflexivity | exact P].
  - inversion O as [| ? ? Oe Os]; subst.
    destruct (step_total e p) as [q E]. rewrite E.
    apply IH; [exact Os |]. apply (step_paced e p q Oe P E).
Qed.

Lemma init_paced : paced init.
Proof.
  unfold paced, init. cbn. split; [reflexivity |]. split; [lra |].
  split; constructor.
Qed.

End Pace.

(** X26.  Where the footprints lie when they all come from the frames of the
    player, whatever the time steps and the speed multipliers: the player
    stays on the line [x = 0] and its waddle time is four times its [z]; the
    footprints of the trail lie at [0.2] to the left or to the right of that
    line, and along the trail each lies more than a quarter of [PI] further
    along [z] than the ones before it. *)
Theorem footprint_spacing :
  forall es : list Penguin.event,
    Forall own_steps es ->
    exists p,
      Penguin.run es Penguin.init = Some p /\
      Vector3.x (Penguin.position p) = 0 /\
      Penguin.walkTime p = 4 * Vector3.z (Penguin.position p) /\
      StronglySorted apart (Penguin.footprints p) /\
      Forall beside (Penguin.footprints p).
Proof.
  intros es O.
  destruct (run_paced es _ O init_paced) as (p & E & X & W & S & F).
  exists p. split; [exact E |]. split; [exact X |]. split; [exact W |].
  split; [exact S |]. eapply Forall_impl; [| exact F].
  cbn. intros fp [_ B]. exact B.
Qed.

Lemma footprint_spacing_witness :
  let es := [Penguin.ModelLoaded; Penguin.ImageLoaded;
             Penguin.Frame 1 true None; Penguin.Decay 1] in
  Forall own_steps es /\
  exists p, Penguin.run es Penguin.init = Some p /\
            Vector3.x (Penguin.position p) = 0.
Proof.
  assert (O : Forall own_steps
                [Penguin.ModelLoaded; Penguin.ImageLoaded;
                 Penguin.Frame 1 true None; Penguin.Decay 1]).
  { repeat constructor. }
  split; [exact O |].
  destruct (footprint_spacing _ O) as (p & E & X & _).
  exists p. split; [exact E | exact X].
Defined.

(* ================================================================= *)
(** ** The heightfield under the footprints *)

Section Ground.
Import Penguin.

Lemma unit_product a b : -1 <= a <= 1 -> -1 <= b <= 1 -> -1 <= a * b <= 1.
Proof. intros A B. split; nra. Qed.

(** The four waves of the heightfield add up to 0.75 at most. *)
Lemma heightfield_range x z :
  - 0.75 <= Environment.getGroundHeight x z <= 0.75.
Proof.
  unfold Environment.getGroundHeight.
  set (windDir := Vector2.normalize _).
  set (windCoord := x * Vector2.x windDir + z * Vector2.y windDir).
  set (perpCoord := x * - Vector2.y windDir + z * Vector2.x windDir).
  cbv zeta.
  pose proof (unit_product _ _ (SIN_bound (x * 0.05)) (COS_bound (z * 0.04))).
  pose proof (SIN_bound (x * 0.02)).
  pose proof (unit_product _ _ (SIN_bound (windCoord * 0.5))
                (SIN_bound (perpCoord * 5.0))).
  pose proof (SIN_bound (windCoord * 0.2)).
  lra.
Qed.

Lemma newFootprint_on_ground id pos l : on_ground (newFootprint id pos l).
Proof.
  unfold on_ground, newFootprint. cbn [fp_position Vector3.x Vector3.y Vector3.z].
  change (getGroundHeight (Vector3.x pos) (Vector3.z pos))
    with (Environment.getGroundHeight (Vector3.x pos) (Vector3.z pos)).
  split; [reflexivity |].
  pose proof (heightfield_range (Vector3.x pos) (Vector3.z pos)). lra.
Qed.

Lemma on_ground_decay dt fps (n : nat) :
  True -> Forall on_ground fps -> Forall on_ground (Spec.decay dt fps).
Proof.
  intros _ F. apply Forall_forall. intros fp H.
  destruct (decay_members dt fps fp H) as (fp0 & I & -> & _).
  rewrite Forall_forall in F. apply (F fp0 I).
Qed.

Lemma on_ground_spawn pos l p :
  Forall on_ground (footprints p) ->
  Forall on_ground (footprints (spawnFootprint pos l p)).
Proof.
  intros F. apply Forall_forall. intros fp H.
  destruct (spawn_members pos l p fp H) as [I | ->].
  - rewrite Forall_forall in F. apply (F fp I).
  - apply newFootprint_on_ground.
Qed.

End Ground.

(** X27.  The heightfield stays between -0.75 and 0.75 everywhere, and in
    every state that the player reaches from its construction every footprint
    of the trail lies 0.03 above the heightfield of the environment at its
    own [x] and [z], wherever it was asked for and however long it has
    faded. *)
Theorem footprints_on_ground :
  (forall x z : R, - 0.75 <= Environment.getGroundHeight x z <= 0.75) /\
  (forall es : list Penguin.event,
      exists p,
        Penguin.run es Penguin.init = Some p /\
        Forall on_ground (Penguin.footprints p)).
Proof.
  split; [apply heightfield_range |]. intros es.
  apply (run_invariant (fun _ => True) (fun fps _ => Forall on_ground fps)
           on_ground_decay on_ground_spawn es Penguin.init (timed_always es)).
  constructor.
Qed.
